(** * discoverCompetition: the extraction pipeline and the notification batcher

    A shallow embedding of [src/index.ts] (the Cloudflare worker that scrapes
    the competition listing, filters the records it has already seen and
    sends the new ones to Telegram) together with the properties the
    specification states about it.

    Conventions of the embedding.
    - A JavaScript string is the list of its UTF-16 code units ([list N]);
      [length] is therefore the [.length] of the source.
    - An index or a length is a [nat]; a number that the source obtains by
      subtraction is a [Z]; a [number] coming out of [JSON.parse] or
      [Number(...)] is an IEEE binary64 value ([spec_float]).
    - [indexOf] returns [None] where the source gets [-1]; a function that
      can throw returns an [option] ([None] is the exception).
    - The seen-record store is a finite map from keys to stored texts. *)

From Stdlib Require Import ZArith NArith Lia DecimalN DecimalPos.
From Stdlib Require Import Floats.SpecFloat.
From stdpp Require Import base strings list gmap.

Open Scope nat_scope.

(** ** JavaScript strings *)

Module JSString.

Abbreviation jsstring := (list N).

(** *** UTF-8 decoding (the decoder behind [TextDecoder])

    The state of the WHATWG UTF-8 decoder while it is inside a
    multi-byte sequence. *)
Record utf8_state := {
  code_point : N;
  bytes_needed : nat;
  lower_boundary : N;
  upper_boundary : N
}.

Definition replacement : N := 65533.

Definition in_range (lo hi b : N) : bool := (lo <=? b)%N && (b <=? hi)%N.

(** A byte read when no sequence is pending: either code points are
    emitted, or a sequence starts. *)
Definition utf8_lead (b : N) : list N * option utf8_state :=
  if in_range 0 127 b then ([b], None)
  else if in_range 194 223 b then
    ([], Some {| code_point := N.land b 31; bytes_needed := 1;
                 lower_boundary := 128; upper_boundary := 191 |})
  else if in_range 224 239 b then
    ([], Some {| code_point := N.land b 15; bytes_needed := 2;
                 lower_boundary := if (b =? 224)%N then 160 else 128;
                 upper_boundary := if (b =? 237)%N then 159 else 191 |})
  else if in_range 240 244 b then
    ([], Some {| code_point := N.land b 7; bytes_needed := 3;
                 lower_boundary := if (b =? 240)%N then 144 else 128;
                 upper_boundary := if (b =? 244)%N then 143 else 191 |})
  else ([replacement], None).

(** A byte read inside a sequence: a byte out of the expected range ends
    the sequence with U+FFFD and is read again as a lead byte. *)
Definition utf8_continue (st : utf8_state) (b : N) : list N * option utf8_state :=
  if in_range (lower_boundary st) (upper_boundary st) b then
    let cp := N.lor (N.shiftl (code_point st) 6) (N.land b 63) in
    match bytes_needed st with
    | 0 | 1 => ([cp], None)
    | S n => ([], Some {| code_point := cp; bytes_needed := n;
                          lower_boundary := 128; upper_boundary := 191 |})
    end
  else
    let '(out, st') := utf8_lead b in (replacement :: out, st').

(** The decoder's handler for one byte. *)
Definition utf8_step (st : option utf8_state) (b : N) : list N * option utf8_state :=
  match st with
  | None => utf8_lead b
  | Some s => utf8_continue s b
  end.

(** The bytes run through the handler; a sequence cut by the end of the
    input gives one more U+FFFD. *)
Fixpoint utf8_run (st : option utf8_state) (bs : list N) : list N :=
  match bs with
  | [] => match st with Some _ => [replacement] | None => [] end
  | b :: bs' => fst (utf8_step st b) ++ utf8_run (snd (utf8_step st b)) bs'
  end.

(** The code points of a byte sequence, invalid sequences replaced. *)
Definition utf8_decode (bs : list N) : list N := utf8_run None bs.

(** A code point as UTF-16 code units. *)
Definition utf16_units (cp : N) : jsstring :=
  if (cp <? 65536)%N then [cp]
  else
    let v := (cp - 65536)%N in
    [(55296 + N.shiftr v 10)%N; (56320 + N.land v 1023)%N].

Definition utf16_encode (cps : list N) : jsstring := concat (map utf16_units cps).

(** A string literal of the source, written here in UTF-8. *)
Definition js (s : string) : jsstring :=
  utf16_encode
    (utf8_decode (map (fun b => N.of_nat (Byte.to_nat b)) (String.list_byte_of_string s))).

Definition jseqb (a b : jsstring) : bool := bool_decide (a = b).

(** *** String methods *)

Fixpoint isPrefix (p s : jsstring) : bool :=
  match p, s with
  | [], _ => true
  | _ :: _, [] => false
  | x :: p', y :: s' => (x =? y)%N && isPrefix p' s'
  end.

(** [indexOf_from needle s k]: [s] is the text from position [k] on. *)
Fixpoint indexOf_from (needle s : jsstring) (k : nat) : option nat :=
  if isPrefix needle s then Some k
  else match s with
       | [] => None
       | _ :: s' => indexOf_from needle s' (S k)
       end.

(** [hay.indexOf(needle, from)]; [None] is [-1]. *)
Definition indexOf (hay needle : jsstring) (from : nat) : option nat :=
  indexOf_from needle (drop from hay) (Nat.min from (length hay)).

(** [hay.includes(needle)] *)
Definition includes (hay needle : jsstring) : bool :=
  match indexOf hay needle 0 with Some _ => true | None => false end.

(** [s.slice(from, to)] for non-negative arguments. *)
Definition slice (s : jsstring) (from to : nat) : jsstring :=
  take (to - from) (drop from s).

(** [parts.join(sep)] *)
Fixpoint join (sep : jsstring) (parts : list jsstring) : jsstring :=
  match parts with
  | [] => []
  | [p] => p
  | p :: rest => p ++ sep ++ join sep rest
  end.

(** [a || b] on strings: the empty string is falsy. *)
Definition orElse (a b : jsstring) : jsstring :=
  match a with [] => b | _ => a end.

(** The class [\s] of regular expressions, which is also what [trim]
    removes: WhiteSpace and LineTerminator code units. *)
Definition isWhiteSpace (c : N) : bool :=
  in_range 9 13 c || (c =? 32)%N || (c =? 160)%N || (c =? 5760)%N
  || in_range 8192 8202 c || (c =? 8232)%N || (c =? 8233)%N
  || (c =? 8239)%N || (c =? 8287)%N || (c =? 12288)%N || (c =? 65279)%N.

Fixpoint trimStart (s : jsstring) : jsstring :=
  match s with
  | c :: s' => if isWhiteSpace c then trimStart s' else s
  | [] => []
  end.

Definition trim (s : jsstring) : jsstring :=
  reverse (trimStart (reverse (trimStart s))).

(** Decimal digits of a natural number, as code units. *)
Fixpoint uint_units (d : Decimal.uint) : jsstring :=
  match d with
  | Decimal.Nil => []
  | Decimal.D0 d => 48%N :: uint_units d
  | Decimal.D1 d => 49%N :: uint_units d
  | Decimal.D2 d => 50%N :: uint_units d
  | Decimal.D3 d => 51%N :: uint_units d
  | Decimal.D4 d => 52%N :: uint_units d
  | Decimal.D5 d => 53%N :: uint_units d
  | Decimal.D6 d => 54%N :: uint_units d
  | Decimal.D7 d => 55%N :: uint_units d
  | Decimal.D8 d => 56%N :: uint_units d
  | Decimal.D9 d => 57%N :: uint_units d
  end.

Definition digitsOfN (n : N) : jsstring := uint_units (N.to_uint n).

(** An integer in a template literal: [`${n}`]. *)
Definition intToString (z : Z) : jsstring :=
  match z with
  | Z0 => [48%N]
  | Zpos p => digitsOfN (Npos p)
  | Zneg p => 45%N :: digitsOfN (Npos p)
  end.

End JSString.
Import JSString.

(** ** JavaScript values and the built-in conversions the source calls *)

Module JSValue.

Abbreviation number := spec_float.

(** The binary64 format. *)
Definition prec : Z := 53.
Definition emax : Z := 1024.

Definition NaN : number := S754_nan.
Definition zero : number := S754_zero false.

(** The number nearest to [(-1)^neg * m * 10^e], ties to even: the value a
    decimal literal denotes. *)
Definition decimalToNumber (neg : bool) (m : N) (e : Z) : number :=
  match m with
  | N0 => S754_zero neg
  | Npos p =>
      match e with
      | Zneg k =>
          let '(q, e', l) :=
            SFdiv_core_binary prec emax (Zpos p) 0 (Zpos (Pos.pow 10 k)) 0 in
          binary_round_aux prec emax neg q e' l
      | Z0 => binary_round prec emax neg p 0
      | Zpos k => binary_round prec emax neg (p * Pos.pow 10 k) 0
      end
  end.

Definition numberOfNat (n : nat) : number := decimalToNumber false (N.of_nat n) 0.

(** What [JSON.parse] can return, and [undefined]. An object keeps its
    members in source order; the last member of a name is the property. *)
#[warnings="-register-all"]
Inductive value :=
| Undefined
| Null
| Bool (b : bool)
| Num (n : number)
| Str (s : jsstring)
| Arr (elems : list value)
| Obj (props : list (jsstring * value)).

(** *** Number::toString, radix 10 *)

(** [x = m * 2^e > 0] as a fraction of positive integers. *)
Definition fractionOf (m : positive) (e : Z) : Z * Z :=
  match e with
  | Zneg k => (Zpos m, Zpos (Pos.pow 2 k))
  | Z0 => (Zpos m, 1%Z)
  | Zpos k => (Zpos (m * Pos.pow 2 k), 1%Z)
  end.

(** [10^n] as a fraction. *)
Definition pow10 (n : Z) : Z * Z :=
  match n with
  | Zneg k => (1%Z, Zpos (Pos.pow 10 k))
  | Z0 => (1%Z, 1%Z)
  | Zpos k => (Zpos (Pos.pow 10 k), 1%Z)
  end.

Definition fracLt (a b : Z * Z) : bool := (fst a * snd b <? fst b * snd a)%Z.

(** [|a - b|] over the common denominator [snd a * snd b]. *)
Definition fracDist (a b : Z * Z) : Z := Z.abs (fst a * snd b - fst b * snd a).

(** The least [n] from [n0] on with [x < 10^n]. *)
Fixpoint magnitude (fuel : nat) (x : Z * Z) (n0 : Z) : Z :=
  match fuel with
  | 0 => n0
  | S f => if fracLt x (pow10 n0) then n0 else magnitude f x (n0 + 1)%Z
  end.

(** A decimal [s * 10^(n - k)] with [k] digits, as [(s, n)]. *)
Definition candidateValue (k : nat) (c : Z * Z) : Z * Z :=
  let p := pow10 (snd c - Z.of_nat k) in ((fst c * fst p)%Z, snd p).

(** The candidates with [k] digits around [x]: the floor and the ceiling
    of [x / 10^(n - k)]; a ceiling that reaches [10^k] is [10^(k-1)] one
    magnitude up. *)
Definition candidates (x : Z * Z) (n : Z) (k : nat) : list (Z * Z) :=
  let p := pow10 (n - Z.of_nat k) in
  let lo := ((fst x * snd p) / (snd x * fst p))%Z in
  let hi := (lo + 1)%Z in
  [ (lo, n);
    if (hi =? 10 ^ Z.of_nat k)%Z then ((10 ^ (Z.of_nat k - 1))%Z, (n + 1)%Z) else (hi, n) ].

Definition numberEq (a b : number) : bool :=
  match a, b with
  | S754_finite s m e, S754_finite s' m' e' =>
      eqb s s' && (m =? m')%positive && (e =? e')%Z
  | _, _ => false
  end.

(** Among the candidates that read back as the number, the one nearest to
    it; of two at the same distance, the even one. *)
Definition bestCandidate (m : positive) (e : Z) (k : nat) (cs : list (Z * Z))
    : option (Z * Z) :=
  let x := fractionOf m e in
  let reads c :=
    numberEq (decimalToNumber false (Z.to_N (fst c)) (snd c - Z.of_nat k))
             (S754_finite false m e) in
  let better c d :=
    let dc := (fracDist (candidateValue k c) x * snd (candidateValue k d))%Z in
    let dd := (fracDist (candidateValue k d) x * snd (candidateValue k c))%Z in
    (dc <? dd)%Z || ((dc =? dd)%Z && Z.even (fst c)) in
  foldl (fun best c =>
           if reads c then
             match best with
             | Some d => if better d c then Some d else Some c
             | None => Some c
             end
           else best) None cs.

(** The shortest digit string: the first [k] that has a candidate. *)
Fixpoint shortest (fuel : nat) (m : positive) (e : Z) (n : Z) (k : nat)
    : option (nat * (Z * Z)) :=
  match fuel with
  | 0 => None
  | S f =>
      match bestCandidate m e k (candidates (fractionOf m e) n k) with
      | Some c => Some (k, c)
      | None => shortest f m e n (S k)
      end
  end.

Definition zeros (n : nat) : jsstring := replicate n 48%N.

(** The text of the number with digits [s] ([k] of them) and magnitude [n]. *)
Definition formatDecimal (k : nat) (s : Z) (n : Z) : jsstring :=
  let digits := digitsOfN (Z.to_N s) in
  if ((-5 <=? n)%Z && (n <=? 21)%Z)%bool then
    if (Z.of_nat k <=? n)%Z then digits ++ zeros (Z.to_nat n - k)
    else if (0 <? n)%Z then
      take (Z.to_nat n) digits ++ [46%N] ++ drop (Z.to_nat n) digits
    else [48%N; 46%N] ++ zeros (Z.to_nat (- n)) ++ digits
  else
    let ex := (n - 1)%Z in
    let sign := if (ex <? 0)%Z then 45%N else 43%N in
    let tail := [101%N; sign] ++ digitsOfN (Z.abs_N ex) in
    match digits with
    | [d] => d :: tail
    | d :: more => d :: 46%N :: more ++ tail
    | [] => tail
    end.

(** Number::toString(x). The magnitude of a finite number lies between
    -323 and 309, and seventeen digits always read back as the number. *)
Definition numberToString (x : number) : jsstring :=
  match x with
  | S754_nan => js "NaN"
  | S754_zero _ => js "0"
  | S754_infinity s => (if s then [45%N] else []) ++ js "Infinity"
  | S754_finite s m e =>
      let n := magnitude 700 (fractionOf m e) (-330) in
      (if s then [45%N] else []) ++
      match shortest 17 m e n 1 with
      | Some (k, (d, n')) => formatDecimal k d n'
      | None => []
      end
  end.

(** *** Reading numbers *)

Definition isDigit (c : N) : bool := in_range 48 57 c.

(** The leading decimal digits of a text, as digit values, and the rest. *)
Fixpoint spanDigits (s : jsstring) : list N * jsstring :=
  match s with
  | c :: r =>
      if isDigit c then let '(ds, rest) := spanDigits r in ((c - 48)%N :: ds, rest)
      else ([], s)
  | [] => ([], [])
  end.

Definition digitsValue (base : N) (ds : list N) : N :=
  foldl (fun a d => (base * a + d)%N) 0%N ds.

Definition hexValue (c : N) : option N :=
  if in_range 48 57 c then Some (c - 48)%N
  else if in_range 97 102 c then Some (c - 87)%N
  else if in_range 65 70 c then Some (c - 55)%N
  else None.

(** All of [s] as digits of the given base, or nothing. *)
Fixpoint allDigits (base : N) (s : jsstring) : option (list N) :=
  match s with
  | [] => Some []
  | c :: r =>
      match hexValue c with
      | Some d => if (d <? base)%N then cons d <$> allDigits base r else None
      | None => None
      end
  end.

(** The text starts with the code unit [k]. *)
Definition headIs (k : N) (s : jsstring) : bool :=
  match s with
  | c :: _ => (c =? k)%N
  | [] => false
  end.

(** An exponent part [e], [e+] or [e-] followed by digits; the text after
    the letter is given. *)
Definition exponentPart (r : jsstring) : option (Z * jsstring) :=
  let neg := headIs 45 r in
  let r1 := if headIs 45 r || headIs 43 r then drop 1 r else r in
  match spanDigits r1 with
  | ([], _) => None
  | (ds, rest) =>
      let v := Z.of_N (digitsValue 10 ds) in
      Some (if neg then (- v)%Z else v, rest)
  end.

(** StringToNumber: the value of [Number(s)] for a string. *)
Definition unsignedDecimal (neg : bool) (s : jsstring) : number :=
  if jseqb s (js "Infinity") then S754_infinity neg
  else
    let '(ip, s1) := spanDigits s in
    let '(fp, s2) :=
      match s1 with
      | 46%N :: r => spanDigits r
      | _ => ([], s1)
      end in
    match ip ++ fp with
    | [] => NaN
    | ds =>
        let mant := digitsValue 10 ds in
        let shift := Z.of_nat (length fp) in
        match s2 with
        | [] => decimalToNumber neg mant (- shift)
        | c :: r =>
            if (c =? 101)%N || (c =? 69)%N then
              match exponentPart r with
              | Some (ex, []) => decimalToNumber neg mant (ex - shift)
              | _ => NaN
              end
            else NaN
        end
    end.

Definition radixLiteral (base : N) (r : jsstring) : number :=
  match r, allDigits base r with
  | _ :: _, Some ds => decimalToNumber false (digitsValue base ds) 0
  | _, _ => NaN
  end.

Definition stringToNumber (s : jsstring) : number :=
  match trim s with
  | [] => zero
  | 48%N :: x :: r =>
      if (x =? 120)%N || (x =? 88)%N then radixLiteral 16 r
      else if (x =? 111)%N || (x =? 79)%N then radixLiteral 8 r
      else if (x =? 98)%N || (x =? 66)%N then radixLiteral 2 r
      else unsignedDecimal false (48%N :: x :: r)
  | 43%N :: r => unsignedDecimal false r
  | 45%N :: r => unsignedDecimal true r
  | t => unsignedDecimal false t
  end.

(** *** Conversions of values *)

Fixpoint lookupProp (name : jsstring) (props : list (jsstring * value)) : option value :=
  match props with
  | [] => None
  | (k, v) :: rest =>
      match lookupProp name rest with
      | Some w => Some w
      | None => if jseqb k name then Some v else None
      end
  end.

(** [v.name] and [v?.name], for the names the source reads: none of them
    is [length], an index or a name that a prototype defines, so only an
    object's own member can give something else than [undefined]. *)
Definition getProp (v : value) (name : jsstring) : value :=
  match v with
  | Obj props => default Undefined (lookupProp name props)
  | _ => Undefined
  end.

(** ToBoolean: [!v] is [negb (truthy v)]. *)
Definition truthy (v : value) : bool :=
  match v with
  | Undefined | Null => false
  | Bool b => b
  | Num (S754_zero _) | Num S754_nan => false
  | Num _ => true
  | Str [] => false
  | Str _ => true
  | Arr _ | Obj _ => true
  end.

(** [v ?? d] *)
Definition nullish (v d : value) : value :=
  match v with
  | Undefined | Null => d
  | _ => v
  end.

(** [Array.isArray(v)] *)
Definition isArray (v : value) : bool :=
  match v with Arr _ => true | _ => false end.

(** [String(v)]; [None] is the TypeError of an object whose own member
    [toString] hides the inherited method. Inside an array [null] and
    [undefined] give the empty string. *)
Fixpoint toString (v : value) : option jsstring :=
  match v with
  | Undefined => Some (js "undefined")
  | Null => Some (js "null")
  | Bool true => Some (js "true")
  | Bool false => Some (js "false")
  | Num n => Some (numberToString n)
  | Str s => Some s
  | Arr elems =>
      join (js ",") <$>
        (fix each (l : list value) : option (list jsstring) :=
           match l with
           | [] => Some []
           | x :: l' =>
               match (match x with
                      | Undefined | Null => Some []
                      | _ => toString x
                      end), each l' with
               | Some s, Some ss => Some (s :: ss)
               | _, _ => None
               end
           end) elems
  | Obj props =>
      match lookupProp (js "toString") props with
      | Some _ => None
      | None => Some (js "[object Object]")
      end
  end.

(** [Number(v)]; an array or an object is first turned into its string. *)
Definition toNumber (v : value) : option number :=
  match v with
  | Undefined => Some NaN
  | Null => Some zero
  | Bool true => Some (decimalToNumber false 1 0)
  | Bool false => Some zero
  | Num n => Some n
  | Str s => Some (stringToNumber s)
  | Arr _ | Obj _ => stringToNumber <$> toString v
  end.

(** *** JSON.parse *)

Definition isJsonSpace (c : N) : bool :=
  (c =? 9)%N || (c =? 10)%N || (c =? 13)%N || (c =? 32)%N.

Fixpoint skipSpace (s : jsstring) : jsstring :=
  match s with
  | c :: r => if isJsonSpace c then skipSpace r else s
  | [] => []
  end.

(** The character an escape letter stands for. *)
Definition simpleEscape (c : N) : option N :=
  if (c =? 34)%N then Some 34%N
  else if (c =? 92)%N then Some 92%N
  else if (c =? 47)%N then Some 47%N
  else if (c =? 98)%N then Some 8%N
  else if (c =? 102)%N then Some 12%N
  else if (c =? 110)%N then Some 10%N
  else if (c =? 114)%N then Some 13%N
  else if (c =? 116)%N then Some 9%N
  else None.

Definition hex4 (a b c d : N) : option N :=
  match hexValue a, hexValue b, hexValue c, hexValue d with
  | Some x, Some y, Some z, Some w => Some (digitsValue 16 [x; y; z; w])
  | _, _, _, _ => None
  end.

(** The characters of a string literal after its opening quote, and the
    text after its closing quote. *)
Fixpoint parseChars (s : jsstring) : option (jsstring * jsstring) :=
  match s with
  | [] => None
  | c :: r =>
      if (c =? 34)%N then Some ([], r)
      else if (c =? 92)%N then
        match r with
        | [] => None
        | e :: r' =>
            if (e =? 117)%N then
              match r' with
              | h1 :: h2 :: h3 :: h4 :: r'' =>
                  match hex4 h1 h2 h3 h4, parseChars r'' with
                  | Some u, Some (str, rest) => Some (u :: str, rest)
                  | _, _ => None
                  end
              | _ => None
              end
            else
              match simpleEscape e, parseChars r' with
              | Some u, Some (str, rest) => Some (u :: str, rest)
              | _, _ => None
              end
        end
      else if (c <? 32)%N then None
      else
        match parseChars r with
        | Some (str, rest) => Some (c :: str, rest)
        | None => None
        end
  end.

(** A JSON number at the head of the text: an optional minus, [0] or
    digits that start with a nonzero one, an optional fraction and an
    optional exponent. *)
Definition parseNumber (s : jsstring) : option (number * jsstring) :=
  let neg := headIs 45 s in
  let s0 := if neg then drop 1 s else s in
  let intPart :=
    if headIs 48 s0 then Some ([0%N], drop 1 s0)
    else match spanDigits s0 with
         | ([], _) => None
         | p => Some p
         end in
  match intPart with
  | None => None
  | Some (ip, s1) =>
      let fracPart :=
        if headIs 46 s1 then
          match spanDigits (drop 1 s1) with
          | ([], _) => None
          | p => Some p
          end
        else Some ([], s1) in
      match fracPart with
      | None => None
      | Some (fp, s2) =>
          let mant := digitsValue 10 (ip ++ fp) in
          let shift := Z.of_nat (length fp) in
          if headIs 101 s2 || headIs 69 s2 then
            match exponentPart (drop 1 s2) with
            | Some (ex, rest) => Some (decimalToNumber neg mant (ex - shift), rest)
            | None => None
            end
          else Some (decimalToNumber neg mant (- shift), s2)
      end
  end.

(** [null], [true], [false] or a number at the head of the text. *)
Definition parseLiteral (t : jsstring) : option (value * jsstring) :=
  if isPrefix (js "null") t then Some (Null, drop 4 t)
  else if isPrefix (js "true") t then Some (Bool true, drop 4 t)
  else if isPrefix (js "false") t then Some (Bool false, drop 5 t)
  else
    match parseNumber t with
    | Some (n, rest) => Some (Num n, rest)
    | None => None
    end.

(** A value at the head of the text, after white space; the elements of
    an array after its bracket, up to the closing bracket; the members of
    an object after its brace, up to the closing brace. [fuel] bounds the
    nesting of the calls. *)
Fixpoint parseValue (fuel : nat) (s : jsstring) : option (value * jsstring) :=
  match fuel with
  | 0 => None
  | S f =>
      let t := skipSpace s in
      if headIs 34 t then
        match parseChars (drop 1 t) with
        | Some (str, rest) => Some (Str str, rest)
        | None => None
        end
      else if headIs 91 t then
        let r := skipSpace (drop 1 t) in
        if headIs 93 r then Some (Arr [], drop 1 r)
        else
          match parseElements f r with
          | Some (vs, rest) => Some (Arr vs, rest)
          | None => None
          end
      else if headIs 123 t then
        let r := skipSpace (drop 1 t) in
        if headIs 125 r then Some (Obj [], drop 1 r)
        else
          match parseMembers f r with
          | Some (ms, rest) => Some (Obj ms, rest)
          | None => None
          end
      else parseLiteral t
  end
with parseElements (fuel : nat) (s : jsstring) : option (list value * jsstring) :=
  match fuel with
  | 0 => None
  | S f =>
      match parseValue f s with
      | None => None
      | Some (v, r) =>
          let t := skipSpace r in
          if headIs 44 t then
            match parseElements f (drop 1 t) with
            | Some (vs, rest) => Some (v :: vs, rest)
            | None => None
            end
          else if headIs 93 t then Some ([v], drop 1 t)
          else None
      end
  end
with parseMembers (fuel : nat) (s : jsstring) : option (list (jsstring * value) * jsstring) :=
  match fuel with
  | 0 => None
  | S f =>
      let t := skipSpace s in
      if headIs 34 t then
        match parseChars (drop 1 t) with
        | None => None
        | Some (key, r1) =>
            let t1 := skipSpace r1 in
            if headIs 58 t1 then
              match parseValue f (drop 1 t1) with
              | None => None
              | Some (v, r3) =>
                  let t3 := skipSpace r3 in
                  if headIs 44 t3 then
                    match parseMembers f (drop 1 t3) with
                    | Some (ms, rest) => Some ((key, v) :: ms, rest)
                    | None => None
                    end
                  else if headIs 125 t3 then Some ([(key, v)], drop 1 t3)
                  else None
              end
            else None
        end
      else None
  end.

(** [JSON.parse(text)]; [None] is the SyntaxError. The fuel is enough for
    every text (see [parseValue_fuel]); the limit an engine puts on the
    nesting depth is not part of the model. *)
Definition JSON_parse (text : jsstring) : option value :=
  match parseValue (2 * length text + 2) text with
  | Some (v, rest) =>
      match skipSpace rest with
      | [] => Some v
      | _ => None
      end
  | None => None
  end.

(** *** TextDecoder *)

(** [new TextDecoder(utf-8, { fatal: false }).decode(buf)]: a byte order
    mark at the start is dropped, invalid sequences become U+FFFD. *)
Definition byteOrderMark : list N := [239%N; 187%N; 191%N].

Definition TextDecoder_decode (buf : list N) : jsstring :=
  let body := if isPrefix byteOrderMark buf then drop 3 buf else buf in
  utf16_encode (utf8_decode body).

(** [buf[i] = s.charCodeAt(i)] for a [Uint8Array]: the low eight bits. *)
Definition toUint8Array (s : jsstring) : list N := map (fun c => N.land c 255) s.

End JSValue.
Import JSValue.

(** ** The canonical record *)

(** [interface Competition] *)
Record Competition := {
  id : jsstring;
  title : jsstring;
  description : jsstring;
  prize : jsstring;
  timeLeft : jsstring;
  source : jsstring;
  participants : spec_float;
  tags : list jsstring
}.

(** ** Extraction pipeline *)

Module Extract.

(** The two [replace] calls of [decodeEscapedString]: every backslash is
    doubled, then a backslash goes before every quote. *)
Definition escapeLiteral (input : jsstring) : jsstring :=
  flat_map (fun c => if (c =? 34)%N then [92%N; 34%N] else [c])
    (flat_map (fun c => if (c =? 92)%N then [92%N; 92%N] else [c]) input).

(** [input.replace(/\\u([0-9a-fA-F]{4})/g, ...)]: each escape becomes the
    code unit it names. *)
Fixpoint unescapeUnicode (input : jsstring) : jsstring :=
  match input with
  | [] => []
  | c :: r =>
      match c, r with
      | 92%N, 117%N :: h1 :: h2 :: h3 :: h4 :: r' =>
          match hex4 h1 h2 h3 h4 with
          | Some u => u :: unescapeUnicode r'
          | None => c :: unescapeUnicode r
          end
      | _, _ => c :: unescapeUnicode r
      end
  end.

(** [null] when [JSON.parse] throws. *)
Definition decodeEscapedString (input : jsstring) : option jsstring :=
  let escaped := escapeLiteral input in
  match JSON_parse ([34%N] ++ escaped ++ [34%N]) with
  | Some (Str firstPass) => Some (unescapeUnicode firstPass)
  | _ => None
  end.

(** The fixed text before and after the group of [RSC_CHUNK_REGEX]. *)
Definition chunkOpen : jsstring := js "self.__next_f.push([1," ++ [34%N].
Definition chunkClose : jsstring := [34%N] ++ js "])".

(** The loop over [html.matchAll(regex)]: the next match starts at the
    first [chunkOpen] from [lastIndex] on and its group ends before the
    first [chunkClose] after it. The outer [None] is fuel running out. *)
Fixpoint matchLoop (fuel : nat) (html : jsstring) (lastIndex : nat)
    : option (option jsstring) :=
  match fuel with
  | 0 => None
  | S f =>
      match indexOf html chunkOpen lastIndex with
      | None => Some None
      | Some p =>
          let groupStart := p + length chunkOpen in
          match indexOf html chunkClose groupStart with
          | None => Some None
          | Some groupEnd =>
              let raw := slice html groupStart groupEnd in
              match decodeEscapedString raw with
              | Some (c :: decoded) =>
                  if includes (c :: decoded) (js "card-view-")
                  then Some (Some (c :: decoded))
                  else matchLoop f html (groupEnd + length chunkClose)
              | _ => matchLoop f html (groupEnd + length chunkClose)
              end
          end
      end
  end.

Definition decodeCompetitionChunk (html : jsstring) : option (option jsstring) :=
  matchLoop (S (length html)) html 0.

(** [input.replace(/[\x00-\x1F]/g, ...)] *)
Definition sanitizeJsonString (input : jsstring) : jsstring :=
  flat_map (fun char =>
              if (char <? 32)%N then
                if (char =? 10)%N then [92%N; 110%N]
                else if (char =? 13)%N then [92%N; 114%N]
                else if (char =? 9)%N then [92%N; 116%N]
                else if (char =? 8)%N then [92%N; 98%N]
                else if (char =? 12)%N then [92%N; 102%N]
                else []
              else [char]) input.

(** The [replace] of [parseCompetitionJson]: every backslash followed by
    a quote becomes the quote alone; the scan goes on after the pair. *)
Fixpoint unescapeQuotes (s : jsstring) : jsstring :=
  match s with
  | [] => []
  | c :: r =>
      match r with
      | c' :: r' =>
          if (c =? 92)%N && (c' =? 34)%N then 34%N :: unescapeQuotes r'
          else c :: unescapeQuotes r
      | [] => [c]
      end
  end.

(** [None] when the second [JSON.parse] throws as well. *)
Definition parseCompetitionJson (raw : jsstring) : option value :=
  let sanitized := sanitizeJsonString raw in
  let normalized := unescapeQuotes sanitized in
  match JSON_parse normalized with
  | Some v => Some v
  | None =>
      let buf := toUint8Array normalized in
      let decoded := TextDecoder_decode buf in
      JSON_parse decoded
  end.

(** The body of the [for] loop of [extractJsonBlock] from index [i] on;
    [rest] is the text from there and [prev] is [source[i - 1]]. *)
Fixpoint scanBlock (source : jsstring) (startIndex : nat) (rest : jsstring) (i : nat)
    (prev : option N) (depth : Z) (inString : bool) : option jsstring :=
  match rest with
  | [] => None
  | char :: rest' =>
      let inString :=
        if (char =? 34)%N && negb (bool_decide (prev = Some 92%N))
        then negb inString else inString in
      if inString then scanBlock source startIndex rest' (S i) (Some char) depth inString
      else if (char =? 123)%N then
        scanBlock source startIndex rest' (S i) (Some char) (depth + 1)%Z inString
      else if (char =? 125)%N then
        let depth := (depth - 1)%Z in
        if (depth =? 0)%Z then Some (slice source startIndex (i + 1))
        else scanBlock source startIndex rest' (S i) (Some char) depth inString
      else scanBlock source startIndex rest' (S i) (Some char) depth inString
  end.

Definition extractJsonBlock (source : jsstring) (startIndex : nat) : option jsstring :=
  scanBlock source startIndex (drop startIndex source) startIndex
    (match startIndex with 0 => None | S j => source !! j end) 0%Z false.

(** [false] when a run of white space is being skipped. *)
Fixpoint collapseSpaces (inRun : bool) (s : jsstring) : jsstring :=
  match s with
  | [] => []
  | c :: r =>
      if isWhiteSpace c
      then (if inRun then [] else [32%N]) ++ collapseSpaces true r
      else c :: collapseSpaces false r
  end.

(** [input.replace(/\s+/g, SPACE).trim()]; on anything but a string the
    call of [replace] is a TypeError. *)
Definition normalizeSpaces (input : value) : option jsstring :=
  match input with
  | Str s => Some (trim (collapseSpaces false s))
  | _ => None
  end.

Definition marker : jsstring := [92%N; 34%N] ++ js "card-view-".

(** The object literal handed to [competitions.push]; [None] when one of
    the conversions throws. *)
Definition buildRecord (comp : value) : option Competition :=
  description ← normalizeSpaces (nullish (getProp comp (js "description")) (Str []));
  id ← toString (getProp comp (js "id"));
  title ← toString (getProp comp (js "title"));
  prize ← toString (nullish (getProp comp (js "prize")) (Str []));
  timeLeft ← toString (nullish (getProp comp (js "timeLeft")) (Str []));
  source ← toString (nullish (getProp comp (js "source")) (Str []));
  participants ← toNumber (nullish (getProp comp (js "participants")) (Num zero));
  tags ← match getProp comp (js "tags") with
          | Arr elems => mapM toString elems
          | _ => Some []
          end;
  Some {| id := id; title := title; description := description; prize := prize;
          timeLeft := timeLeft; source := source; participants := participants;
          tags := tags |}.

(** What the [try] block does with one raw block. *)
Inductive outcome :=
| Invalid
| Pushed (c : Competition)
| Thrown.

Definition tryCandidate (raw : jsstring) : outcome :=
  match parseCompetitionJson raw with
  | None => Thrown
  | Some json =>
      let comp := getProp json (js "competition") in
      if negb (truthy comp) || negb (truthy (getProp comp (js "id")))
         || negb (truthy (getProp comp (js "title")))
      then Invalid
      else match buildRecord comp with
           | Some c => Pushed c
           | None => Thrown
           end
  end.

(** One turn of the [while] loop: it ends the loop, or it goes on with a
    new [searchIndex] and possibly one record more. *)
Inductive turn :=
| Break
| Continue (searchIndex : nat) (pushed : list Competition).

Definition scanTurn (chunk : jsstring) (searchIndex : nat) : turn :=
  match indexOf chunk marker searchIndex with
  | None => Break
  | Some markerIndex =>
      match indexOf chunk (js "{") markerIndex with
      | None => Break
      | Some objectStart =>
          match extractJsonBlock chunk objectStart with
          | None | Some [] => Continue (objectStart + 1) []
          | Some raw =>
              match tryCandidate raw with
              | Pushed c => Continue (objectStart + length raw) [c]
              | Invalid | Thrown => Continue (objectStart + length raw) []
              end
          end
      end
  end.

(** The [while (true)] loop; [None] is fuel running out. The counter
    [iteration] of the source only feeds the log lines and is left out. *)
Fixpoint scanLoop (fuel : nat) (chunk : jsstring) (searchIndex : nat)
    (competitions : list Competition) : option (list Competition) :=
  match fuel with
  | 0 => None
  | S f =>
      match scanTurn chunk searchIndex with
      | Break => Some competitions
      | Continue searchIndex' pushed =>
          scanLoop f chunk searchIndex' (competitions ++ pushed)
      end
  end.

(** The loop on a decoded chunk, with fuel for every position. *)
Definition scanChunk (chunk : jsstring) : option (list Competition) :=
  scanLoop (S (length chunk)) chunk 0 [].

(** [None] only stands for a loop that ran out of fuel, which does not
    happen ([extractCompetitions_total]). *)
Definition extractCompetitions (html : jsstring) : option (list Competition) :=
  match decodeCompetitionChunk html with
  | None => None
  | Some None => Some []
  | Some (Some chunk) => scanChunk chunk
  end.

End Extract.
Import Extract.

(** ** Deduplication gate *)

Module Dedup.

(** The store behind [KVNamespace]: the text kept under each key. *)
Abbreviation KVNamespace := (gmap jsstring jsstring).

(** [interface Env]; a binding that is not configured is [None]. *)
Record Env := {
  COMPETITION_KV : option KVNamespace;
  TARGET_URL : option jsstring;
  COMPETITION_PAGE_BASE : option jsstring;
  TELEGRAM_BOT_TOKEN : option jsstring;
  TELEGRAM_CHAT_ID : option jsstring
}.

(** [kv.get(key, { type: text })]: the stored text, or [null]. The
    lookups only read the store, so the order in which the promises
    settle does not matter, and [Promise.all] keeps the results in the
    order of the records. *)
Definition KV_get (kv : KVNamespace) (key : jsstring) : option jsstring := kv !! key.

Definition seenKey (comp : Competition) : jsstring := js "seen:" ++ id comp.

(** [existing.forEach((value, index) => ...)] from [index] on. The source
    pushes [competitions[index]]; [existing] has the length of
    [competitions], so the index is always in range. *)
Fixpoint forEachExisting (existing : list (option jsstring)) (index : nat)
    (competitions fresh : list Competition) : list Competition :=
  match existing with
  | [] => fresh
  | value :: rest =>
      forEachExisting rest (S index) competitions
        (match value with
         | None => fresh ++ option_list (competitions !! index)
         | Some _ => fresh
         end)
  end.

Definition filterNewCompetitions (env : Env) (competitions : list Competition)
    : list Competition :=
  match COMPETITION_KV env with
  | None => competitions
  | Some kv =>
      let checks := map (fun comp => KV_get kv (seenKey comp)) competitions in
      let existing := checks in
      forEachExisting existing 0 competitions []
  end.

End Dedup.
Import Dedup.

(** ** Notification batcher and formatter *)

Module Telegram.

Definition TELEGRAM_MAX_LENGTH : nat := 4096.

(** The characters of the class in [escapeMarkdown]'s regular expression. *)
Definition markdownReserved : jsstring := js "_*[]()~`>#+-=|{}.!\".

Definition isReserved (c : N) : bool := bool_decide (c ∈ markdownReserved).

(** [input.replace(...)]: a backslash goes before every reserved
    character. *)
Definition escapeMarkdown (input : jsstring) : jsstring :=
  flat_map (fun c => if isReserved c then [92%N; c] else [c]) input.

Definition trimDescription (description : jsstring) : jsstring :=
  if length description <=? 160 then description
  else slice description 0 157 ++ js "...".

Definition formatCompetition (comp : Competition) (baseUrl : jsstring) : jsstring :=
  let link := escapeMarkdown (baseUrl ++ id comp) in
  let title := escapeMarkdown (title comp) in
  let prize := escapeMarkdown (orElse (prize comp) (js "未知")) in
  let timeLeft := escapeMarkdown (orElse (timeLeft comp) (js "未知")) in
  let description :=
    match description comp with
    | [] => js "\-"
    | d => escapeMarkdown (trimDescription d)
    end in
  let tags :=
    if 0 <? length (tags comp)
    then join (js " ") (map (fun tag => js "`" ++ escapeMarkdown tag ++ js "`") (tags comp))
    else js "\-" in
  join [10%N]
    [ js "• [" ++ title ++ js "](" ++ link ++ js ")";
      js "  来源: " ++ escapeMarkdown (orElse (source comp) (js "未知"));
      js "  奖金: " ++ prize;
      js "  截止: " ++ timeLeft;
      js "  标签: " ++ tags;
      js "  简介: " ++ description ].

(** [buildHeader(total, start?, end?)]: an argument left out is [None]. *)
Definition buildHeader (total : Z) (start end_ : option Z) : jsstring :=
  match start, end_ with
  | Some s, Some e =>
      js "发现 " ++ intToString total ++ js " 个新竞赛（" ++ intToString s
        ++ js "\-" ++ intToString e ++ js "/" ++ intToString total
        ++ js "）：" ++ [10%N; 10%N]
  | _, _ => js "发现 " ++ intToString total ++ js " 个新竞赛：" ++ [10%N; 10%N]
  end.

(** The variables the loop of [buildTelegramMessages] updates. *)
Record BatchState := {
  messages : list jsstring;
  currentBatch : list jsstring;
  currentLength : nat
}.

Definition separator : jsstring := [10%N; 10%N].

(** One turn of the [for] loop, at index [i] with [competitions[i] = comp]. *)
Definition batchStep (totalCount : nat) (baseUrl : jsstring) (i : nat)
    (comp : Competition) (st : BatchState) : BatchState :=
  let formatted := formatCompetition comp baseUrl in
  let batchStart := (Z.of_nat i - Z.of_nat (length (currentBatch st)) + 1)%Z in
  let headerTemplate :=
    buildHeader (Z.of_nat totalCount) (Some batchStart) (Some (Z.of_nat i + 1)%Z) in
  let wouldBeLength :=
    length headerTemplate
    + foldl (fun a b => a + b) 0 (map length (currentBatch st))
    + (if 0 <? length (currentBatch st)
       then length separator * length (currentBatch st) else 0)
    + length formatted in
  if (TELEGRAM_MAX_LENGTH <? wouldBeLength) && (0 <? length (currentBatch st)) then
    let batchEnd := Z.of_nat i in
    let header :=
      if totalCount =? length (currentBatch st)
      then buildHeader (Z.of_nat totalCount) None None
      else buildHeader (Z.of_nat totalCount) (Some batchStart) (Some batchEnd) in
    {| messages := messages st ++ [header ++ join separator (currentBatch st)];
       currentBatch := [formatted];
       currentLength := length formatted |}
  else
    {| messages := messages st;
       currentBatch := currentBatch st ++ [formatted];
       currentLength := wouldBeLength |}.

(** The [for] loop from index [i] on; [rest] are the records not yet seen. *)
Fixpoint batchLoop (totalCount : nat) (baseUrl : jsstring) (i : nat)
    (rest : list Competition) (st : BatchState) : BatchState :=
  match rest with
  | [] => st
  | comp :: rest' =>
      batchLoop totalCount baseUrl (S i) rest' (batchStep totalCount baseUrl i comp st)
  end.

Definition buildTelegramMessages (competitions : list Competition)
    (baseUrl : jsstring) : list jsstring :=
  let totalCount := length competitions in
  let st :=
    batchLoop totalCount baseUrl 0 competitions
      {| messages := []; currentBatch := []; currentLength := 0 |} in
  if 0 <? length (currentBatch st) then
    let batchStart :=
      (Z.of_nat (length competitions) - Z.of_nat (length (currentBatch st)) + 1)%Z in
    let header :=
      if length (messages st) =? 0
      then buildHeader (Z.of_nat totalCount) None None
      else buildHeader (Z.of_nat totalCount) (Some batchStart) (Some (Z.of_nat totalCount)) in
    messages st ++ [header ++ join separator (currentBatch st)]
  else messages st.

End Telegram.
Import Telegram.


(** ** JSON.stringify, as far as the source calls it *)

Module JSONText.

(** A hexadecimal digit, lower case. *)
Definition hexDigit (d : N) : N := if (d <? 10)%N then (48 + d)%N else (87 + d)%N.

(** UnicodeEscape: a backslash, the letter u and four digits. *)
Definition unicodeEscape (c : N) : jsstring :=
  [92%N; 117%N; hexDigit ((c / 4096) mod 16); hexDigit ((c / 256) mod 16);
   hexDigit ((c / 16) mod 16); hexDigit (c mod 16)].

Definition isLeadSurrogate (c : N) : bool := in_range 55296 56319 c.
Definition isTrailSurrogate (c : N) : bool := in_range 56320 57343 c.

(** The characters QuoteJSONString puts between the quotes: the short
    escapes, a unicode escape for the other control characters and for a
    surrogate that is not part of a pair, and every other code point as
    it is. *)
Fixpoint quoteUnits (s : jsstring) : jsstring :=
  match s with
  | [] => []
  | c :: r =>
      if (c =? 8)%N then [92%N; 98%N] ++ quoteUnits r
      else if (c =? 9)%N then [92%N; 116%N] ++ quoteUnits r
      else if (c =? 10)%N then [92%N; 110%N] ++ quoteUnits r
      else if (c =? 12)%N then [92%N; 102%N] ++ quoteUnits r
      else if (c =? 13)%N then [92%N; 114%N] ++ quoteUnits r
      else if (c =? 34)%N then [92%N; 34%N] ++ quoteUnits r
      else if (c =? 92)%N then [92%N; 92%N] ++ quoteUnits r
      else if (c <? 32)%N then unicodeEscape c ++ quoteUnits r
      else if isLeadSurrogate c then
        match r with
        | d :: r' =>
            if isTrailSurrogate d then c :: d :: quoteUnits r'
            else unicodeEscape c ++ quoteUnits r
        | [] => unicodeEscape c
        end
      else if isTrailSurrogate c then unicodeEscape c ++ quoteUnits r
      else c :: quoteUnits r
  end.

(** QuoteJSONString *)
Definition quoteJSON (s : jsstring) : jsstring := [34%N] ++ quoteUnits s ++ [34%N].

(** SerializeJSONObject for an object literal: its member names are
    distinct and none is an array index, so they come in the order
    written. [members] holds each name with the text of its value, [gap]
    is the indentation unit and [indent] the indentation around the
    object. *)
Definition serializeObject (gap indent : jsstring) (members : list (jsstring * jsstring))
    : jsstring :=
  let stepback := indent in
  let indent := indent ++ gap in
  let partial :=
    map (fun m => quoteJSON (fst m) ++ [58%N]
                  ++ (match gap with [] => [] | _ => [32%N] end) ++ snd m) members in
  match partial with
  | [] => js "{}"
  | _ =>
      match gap with
      | [] => [123%N] ++ join [44%N] partial ++ [125%N]
      | _ =>
          [123%N; 10%N] ++ indent ++ join ([44%N; 10%N] ++ indent) partial
            ++ [10%N] ++ stepback ++ [125%N]
      end
  end.

End JSONText.
Import JSONText.

(** ** The workflow and its effects *)

Module Worker.

Definition DEFAULT_TARGET_URL : jsstring :=
  js "https://www.competehub.dev/zh/competitions?page=1&sort=recently-launched".

Definition DEFAULT_COMPETITION_PAGE_BASE : jsstring :=
  js "https://www.competehub.dev/competitions/".

(** [interface WorkflowResult] *)
Record WorkflowResult := {
  fetched : nat;
  newItems : nat;
  notified : nat;
  timestamp : jsstring
}.

(** A call of the global [fetch]: the method, the address, the headers,
    the form fields of the body and the [cf] options [cacheTtl] and
    [cacheEverything] when they are given. *)
Record Call := {
  call_method : jsstring;
  call_url : jsstring;
  call_headers : list (jsstring * jsstring);
  call_form : list (jsstring * jsstring);
  call_cf : option (Z * bool)
}.

(** What a call is answered with: the status and the text of the body. *)
Record Response := {
  status : nat;
  body : jsstring
}.

(** [response.ok] *)
Definition ok (response : Response) : bool :=
  (200 <=? status response) && (status response <=? 299).

(** What the worker does to the world around it, in the order it does it. *)
Inductive Event :=
| Fetch (call : Call)
| Put (key value : jsstring) (expirationTtl : Z)
| Sleep (ms : nat).

(** An entry of the store: its text and the time, in seconds, at which it
    expires. *)
Record Entry := {
  entry_text : jsstring;
  entry_expiration : Z
}.

(** The world around the worker.
    - [network] is the answer to a call, given what the worker has done
      before; [None] is a call that fails (the promise of [fetch] is
      rejected).
    - [clock n] is the text that the [n]-th evaluation of
      [new Date().toISOString()] gives; [readings] counts them.
    - [seconds] is the time of the store, which is taken to stand still
      during one run; [store] holds the entries with their expiration.
      The store answers every operation.
    - [trace] is what the worker has done so far. The lines written to
      the console are not kept. *)
Record World := {
  network : list Event → Call → option Response;
  clock : nat → jsstring;
  readings : nat;
  seconds : Z;
  store : gmap jsstring Entry;
  trace : list Event
}.

Definition record (e : Event) (w : World) : World :=
  {| network := network w; clock := clock w; readings := readings w;
     seconds := seconds w; store := store w; trace := trace w ++ [e] |}.

(** An entry is returned by [get] until the time of its expiration. *)
Definition live (now : Z) (e : Entry) : bool := (now <? entry_expiration e)%Z.

(** The texts [get] can return at the moment. *)
Definition contents (w : World) : KVNamespace :=
  entry_text <$> filter (fun kv => live (seconds w) (snd kv) = true) (store w).

(** [env] as the worker finds it at the moment: the binding, when there is
    one, stands for the live entries of the store. *)
Definition envAt (env : Env) (w : World) : Env :=
  {| COMPETITION_KV := (fun _ => contents w) <$> COMPETITION_KV env;
     TARGET_URL := TARGET_URL env;
     COMPETITION_PAGE_BASE := COMPETITION_PAGE_BASE env;
     TELEGRAM_BOT_TOKEN := TELEGRAM_BOT_TOKEN env;
     TELEGRAM_CHAT_ID := TELEGRAM_CHAT_ID env |}.

(** [kv.put(key, value, { expirationTtl })]: the entry expires that many
    seconds from now. *)
Definition KV_put (key value : jsstring) (expirationTtl : Z) (w : World) : World :=
  record (Put key value expirationTtl)
    {| network := network w; clock := clock w; readings := readings w;
       seconds := seconds w;
       store := <[key := {| entry_text := value;
                            entry_expiration := (seconds w + expirationTtl)%Z |}]> (store w);
       trace := trace w |}.

(** [new Date().toISOString()] *)
Definition newDateISO (w : World) : jsstring * World :=
  (clock w (readings w),
   {| network := network w; clock := clock w; readings := S (readings w);
      seconds := seconds w; store := store w; trace := trace w |}).

(** [fetch(url, init)]; the call is answered from what was done before it. *)
Definition globalFetch (call : Call) (w : World) : option Response * World :=
  (network w (trace w) call, record (Fetch call) w).

(** [sleep(ms)] *)
Definition sleep (ms : nat) (w : World) : World := record (Sleep ms) w.

(** The call [fetchHtml] makes for the listing page. *)
Definition pageCall (url : jsstring) : Call :=
  {| call_method := js "GET";
     call_url := url;
     call_headers :=
       [ (js "user-agent",
          js "Mozilla/5.0 (Macintosh; Intel Mac OS X 10_15_7) "
            ++ js "AppleWebKit/537.36 (KHTML, like Gecko) "
            ++ js "Chrome/122.0.0.0 Safari/537.36");
         (js "accept", js "text/html,application/xhtml+xml") ];
     call_form := [];
     call_cf := Some (0%Z, false) |}.

(** [None] is the exception: the call failed, or the answer is not [ok]. *)
Definition fetchHtml (env : Env) (w : World) : option jsstring * World :=
  let url := default DEFAULT_TARGET_URL (TARGET_URL env) in
  match globalFetch (pageCall url) w with
  | (Some response, w') =>
      if negb (ok response) then (None, w') else (Some (body response), w')
  | (None, w') => (None, w')
  end.

(** [JSON.stringify({ id: comp.id, storedAt })] *)
Definition storedValue (comp : Competition) (storedAt : jsstring) : jsstring :=
  serializeObject [] []
    [ (js "id", quoteJSON (id comp)); (js "storedAt", quoteJSON storedAt) ].

(** The callback of [competitions.map] in [storeSeen]: the date is read,
    then the entry is put. The puts are started in the order of the
    records and are taken to be done in that order; two puts for one key
    differ in the date only. *)
Definition putSeen (w : World) (comp : Competition) : World :=
  let '(storedAt, w') := newDateISO w in
  KV_put (seenKey comp) (storedValue comp storedAt) (60 * 60 * 24 * 90) w'.

Definition storeSeen (env : Env) (competitions : list Competition) (w : World) : World :=
  match COMPETITION_KV env with
  | None => w
  | Some _ => foldl putSeen w competitions
  end.

(** The call [sendTelegramMessage] makes. *)
Definition telegramCall (token chatId text : jsstring) : Call :=
  {| call_method := js "POST";
     call_url := js "https://api.telegram.org/bot" ++ token ++ js "/sendMessage";
     call_headers := [ (js "content-type", js "application/x-www-form-urlencoded") ];
     call_form :=
       [ (js "chat_id", chatId); (js "text", text);
         (js "parse_mode", js "MarkdownV2");
         (js "disable_web_page_preview", js "true") ];
     call_cf := None |}.

(** [None] is the exception. *)
Definition sendTelegramMessage (token chatId text : jsstring) (w : World)
    : option unit * World :=
  match globalFetch (telegramCall token chatId text) w with
  | (Some response, w') => if negb (ok response) then (None, w') else (Some tt, w')
  | (None, w') => (None, w')
  end.

(** The [for] loop of [notifyTelegram] from index [i] on; [rest] are the
    messages from there. *)
Fixpoint sendLoop (token chatId : jsstring) (messages : list jsstring) (i : nat)
    (rest : list jsstring) (w : World) : option unit * World :=
  match rest with
  | [] => (Some tt, w)
  | message :: rest' =>
      match sendTelegramMessage token chatId message w with
      | (None, w') => (None, w')
      | (Some _, w') =>
          sendLoop token chatId messages (S i) rest'
            (if i <? length messages - 1 then sleep 100 w' else w')
      end
  end.

(** [!s] for a string that may be undefined. *)
Definition missing (s : option jsstring) : bool :=
  match s with
  | Some (_ :: _) => false
  | _ => true
  end.

Definition notifyTelegram (env : Env) (competitions : list Competition) (w : World)
    : option unit * World :=
  let token := TELEGRAM_BOT_TOKEN env in
  let chatId := TELEGRAM_CHAT_ID env in
  if missing token || missing chatId then (Some tt, w)
  else
    let baseUrl := default DEFAULT_COMPETITION_PAGE_BASE (COMPETITION_PAGE_BASE env) in
    let messages := buildTelegramMessages competitions baseUrl in
    sendLoop (default [] token) (default [] chatId) messages 0 messages w.

(** [None] is the exception that leaves [runWorkflow]. The extraction
    always returns ([extractCompetitions_total]). *)
Definition runWorkflow (env : Env) (w : World) : option WorkflowResult * World :=
  match fetchHtml env w with
  | (None, w1) => (None, w1)
  | (Some html, w1) =>
      match extractCompetitions html with
      | None => (None, w1)
      | Some competitions =>
          let newItems := filterNewCompetitions (envAt env w1) competitions in
          let '(notified, w3) :=
            if 0 <? length newItems then
              let w2 := storeSeen env newItems w1 in
              match notifyTelegram env newItems w2 with
              | (Some _, w3) => (length newItems, w3)
              | (None, w3) => (0, w3)
              end
            else (0, w1) in
          let '(now, w4) := newDateISO w3 in
          (Some {| fetched := length competitions; newItems := length newItems;
                   notified := notified; timestamp := now |}, w4)
      end
  end.

(** [JSON.stringify(result, null, 2)]; a count is written with its
    decimal digits. *)
Definition resultText (result : WorkflowResult) : jsstring :=
  serializeObject (js "  ") []
    [ (js "fetched", intToString (Z.of_nat (fetched result)));
      (js "newItems", intToString (Z.of_nat (newItems result)));
      (js "notified", intToString (Z.of_nat (notified result)));
      (js "timestamp", quoteJSON (timestamp result)) ].

(** The request, with the path of its address. *)
Record Request := {
  pathname : jsstring
}.

(** The answer of the worker: the status, the body and the headers it
    is made with. *)
Record Reply := {
  reply_status : nat;
  reply_body : jsstring;
  reply_headers : list (jsstring * jsstring)
}.

(** The handler [fetch] of the worker. *)
Definition fetch (request : Request) (env : Env) (w : World) : Reply * World :=
  if jseqb (pathname request) (js "/__health") then
    ({| reply_status := 200; reply_body := js "ok"; reply_headers := [] |}, w)
  else
    match runWorkflow env w with
    | (Some result, w') =>
        ({| reply_status := 200; reply_body := resultText result;
            reply_headers := [ (js "content-type", js "application/json") ] |}, w')
    | (None, w') =>
        ({| reply_status := 500; reply_body := js "internal error";
            reply_headers := [] |}, w')
    end.

(** The handler [scheduled]: the workflow runs, its result is only
    written to the console. *)
Definition scheduled (env : Env) (w : World) : World := snd (runWorkflow env w).

End Worker.
Import Worker.
(** ** Vocabulary of the statements *)

(** A message taken apart: the range its header shows ([None] for the
    header without a range) and the blocks it joins. *)
Record Batch := {
  b_range : option (Z * Z);
  b_blocks : list jsstring
}.

(** The message of a batch when there are [total] records in all. *)
Definition renderBatch (total : nat) (b : Batch) : jsstring :=
  buildHeader (Z.of_nat total) (fst <$> b_range b) (snd <$> b_range b)
    ++ join separator (b_blocks b).

(** The blocks of a list of batches, in order. *)
Definition blocksOf (bs : list Batch) : list jsstring := concat (map b_blocks bs).

(** A batch closed inside the loop shows the positions of its first and
    last record, and fits the limit when it holds more than one block. *)
Definition closedAt (totalCount : nat) (bs : list Batch) (k : nat) (b : Batch) : Prop :=
  b_blocks b ≠ [] ∧
  b_range b = Some ((Z.of_nat (length (blocksOf (take k bs))) + 1)%Z,
                    Z.of_nat (length (blocksOf (take (S k) bs)))) ∧
  (2 ≤ length (b_blocks b) → length (renderBatch totalCount b) ≤ TELEGRAM_MAX_LENGTH).

(** The state of the loop after the records whose blocks are [blocks];
    [bs] are the batches behind the messages pushed so far. *)
Record batch_inv (totalCount : nat) (blocks : list jsstring) (st : BatchState)
    (bs : list Batch) : Prop := {
  inv_messages : messages st = map (renderBatch totalCount) bs;
  inv_blocks : blocksOf bs ++ currentBatch st = blocks;
  inv_closed : ∀ k b, bs !! k = Some b → closedAt totalCount bs k b;
  inv_current :
    2 ≤ length (currentBatch st) →
    length (buildHeader (Z.of_nat totalCount)
              (Some (Z.of_nat (length blocks) - Z.of_nat (length (currentBatch st)) + 1)%Z)
              (Some (Z.of_nat (length blocks))))
    + length (join separator (currentBatch st)) ≤ TELEGRAM_MAX_LENGTH
}.

(** A batch of the finished message list. *)
Definition batchAt (total : nat) (bs : list Batch) (k : nat) (b : Batch) : Prop :=
  b_blocks b ≠ [] ∧
  match b_range b with
  | Some (s, e) =>
      s = (Z.of_nat (length (blocksOf (take k bs))) + 1)%Z ∧
      e = Z.of_nat (length (blocksOf (take (S k) bs)))
  | None => bs = [b]
  end ∧
  (2 ≤ length (b_blocks b) → length (renderBatch total b) ≤ TELEGRAM_MAX_LENGTH).

(** The formatted blocks of the records at the 1-based positions [s] to [e]. *)
Definition formattedRange (competitions : list Competition) (baseUrl : jsstring)
    (s e : Z) : list jsstring :=
  map (fun c => formatCompetition c baseUrl)
      (take (Z.to_nat (e - s + 1)) (drop (Z.to_nat (s - 1)) competitions)).

(** The number a text denotes when all of it is decimal digits. *)
Definition readNumeral (s : jsstring) : option N :=
  match spanDigits s with
  | (d :: ds, []) => Some (digitsValue 10 (d :: ds))
  | _ => None
  end.

(** The header shows [total] records and, when there is a range, the
    positions it runs from and to: the fixed words of the header around
    decimal numerals that denote these numbers. *)
Definition headerShows (header : jsstring) (total : nat) (range : option (Z * Z)) : Prop :=
  match range with
  | Some (s, e) =>
      ∃ nt ns ne,
        header = js "发现 " ++ nt ++ js " 个新竞赛（" ++ ns ++ js "\-" ++ ne
                   ++ js "/" ++ nt ++ js "）：" ++ [10%N; 10%N] ∧
        readNumeral nt = Some (N.of_nat total) ∧
        (0 ≤ s)%Z ∧ readNumeral ns = Some (Z.to_N s) ∧
        (0 ≤ e)%Z ∧ readNumeral ne = Some (Z.to_N e)
  | None =>
      ∃ nt,
        header = js "发现 " ++ nt ++ js " 个新竞赛：" ++ [10%N; 10%N] ∧
        readNumeral nt = Some (N.of_nat total)
  end.


(** The messages for [competitions] are the rendered batches of a list
    whose blocks are the formatted records in order; every message is a
    header that shows the number of records, and the range of its batch
    when it has one, followed by the blocks of the batch joined by blank
    lines; each range is the positions of the first and last record of
    its batch. *)
Definition coversRecords (competitions : list Competition) (baseUrl : jsstring) : Prop :=
  ∃ bs : list Batch,
    bs ≠ [] ∧
    buildTelegramMessages competitions baseUrl
      = map (renderBatch (length competitions)) bs ∧
    blocksOf bs = map (fun c => formatCompetition c baseUrl) competitions ∧
    ∀ k b, bs !! k = Some b →
      b_blocks b ≠ [] ∧
      (∃ header,
         buildTelegramMessages competitions baseUrl !! k
           = Some (header ++ join [10%N; 10%N] (b_blocks b)) ∧
         headerShows header (length competitions) (b_range b)) ∧
      match b_range b with
      | Some (s, e) =>
          s = (Z.of_nat (length (blocksOf (take k bs))) + 1)%Z ∧
          e = (s + Z.of_nat (length (b_blocks b)) - 1)%Z ∧
          (1 ≤ s ≤ e)%Z ∧ (e ≤ Z.of_nat (length competitions))%Z ∧
          b_blocks b = formattedRange competitions baseUrl s e
      | None => bs = [b]
      end.

(** A record is new when the store has nothing under its key. *)
Definition unseen (kv : gmap jsstring jsstring) (comp : Competition) : Prop :=
  KV_get kv (seenKey comp) = None.

#[global] Instance unseen_dec (kv : gmap jsstring jsstring) (comp : Competition) :
  Decision (unseen kv comp) := decide (KV_get kv (seenKey comp) = None).

(** A value that is absent or empty. *)
Definition absentOrEmpty (v : value) : Prop := v = Undefined ∨ v = Null ∨ v = Str [].

(** The tolerant decoder in the order the specification gives: the
    fallback turns the sanitized text into bytes, decodes them, and only
    then removes the backslashes before quotes. *)
Definition parseCompetitionJson_spec (raw : jsstring) : option value :=
  let sanitized := sanitizeJsonString raw in
  match JSON_parse (unescapeQuotes sanitized) with
  | Some v => Some v
  | None =>
      let decoded := TextDecoder_decode (toUint8Array sanitized) in
      JSON_parse (unescapeQuotes decoded)
  end.

(** The states the UTF-8 decoder can be in while a sequence is pending:
    the bits read so far make the finished code point at least U+0080. *)
Definition pendingOK (s : utf8_state) : Prop :=
  (128 ≤ lower_boundary s)%N ∧ (upper_boundary s ≤ 191)%N ∧
  match bytes_needed s with
  | 1 => (2 ≤ code_point s)%N
  | 2 => (1 ≤ code_point s)%N ∨ (160 ≤ lower_boundary s)%N
  | 3 => (1 ≤ code_point s)%N ∨ (144 ≤ lower_boundary s)%N
  | _ => False
  end.

Definition stateOK (st : option utf8_state) : Prop :=
  match st with
  | None => True
  | Some s => pendingOK s
  end.

(** The code units the decoder gives from a state on. *)
Definition runUnits (st : option utf8_state) (bs : list N) : jsstring :=
  utf16_encode (utf8_run st bs).

(** What the decoder has emitted before it reads an ASCII byte. *)
Definition flushed (st : option utf8_state) : jsstring :=
  match st with
  | None => []
  | Some _ => [replacement]
  end.

(** No code unit below U+0080. *)
Definition allHigh (s : jsstring) : Prop := Forall (fun u => (128 ≤ u)%N) s.

(** Only code units below 256: a text that is its own byte sequence. *)
Definition allBytes (s : jsstring) : Prop := Forall (fun u => (u < 256)%N) s.

(** The text does not start with the code unit [k]. *)
Definition notHead (k : N) (s : jsstring) : Prop := ∀ r, s ≠ k :: r.

(** The text is empty or starts with a code unit from U+0080 on. *)
Definition headHigh (s : jsstring) : Prop := ∀ x r, s = x :: r → (128 ≤ x)%N.

(** Dropping the byte order mark, as [TextDecoder_decode] does. *)
Definition stripMark (buf : list N) : list N :=
  if isPrefix byteOrderMark buf then drop 3 buf else buf.

(** No code unit above 255 has the low byte of a backslash or of a quote:
    taking the low bytes makes no new backslash and no new quote. *)
Definition noAlias (s : jsstring) : Prop :=
  Forall (fun u => (N.land u 255 = 92%N → u = 92%N) ∧ (N.land u 255 = 34%N → u = 34%N)) s.

(** A parse that succeeds with fuel [f] reads at least one character and
    succeeds with any fuel from twice the number of characters read on. *)
Definition valueFuel (f : nat) : Prop :=
  ∀ s v rest, parseValue f s = Some (v, rest) →
    length rest < length s ∧
    ∀ f', 2 * (length s - length rest) ≤ f' + 1 → parseValue f' s = Some (v, rest).

Definition elementsFuel (f : nat) : Prop :=
  ∀ s vs rest, parseElements f s = Some (vs, rest) →
    length rest < length s ∧
    ∀ f', 2 * (length s - length rest) ≤ f' → parseElements f' s = Some (vs, rest).

Definition membersFuel (f : nat) : Prop :=
  ∀ s ms rest, parseMembers f s = Some (ms, rest) →
    length rest < length s ∧
    ∀ f', 2 * (length s - length rest) ≤ f' → parseMembers f' s = Some (ms, rest).

(** *** Sample inputs *)

(** A chunk written with an apostrophe for each escaped quote (a backslash
    and a quote in the chunk). *)
Definition chunkOf (s : string) : jsstring :=
  flat_map (fun c => if (c =? 39)%N then [92%N; 34%N] else [c]) (js s).

(** The first marker is followed by an object that is never closed. *)
Definition chunkUnbalanced : jsstring :=
  chunkOf "'card-view-1':{ 'card-view-2':{'competition':{'id':'b','title':'B'}}".

(** The second candidate has no title. *)
Definition chunkOneInvalid : jsstring :=
  chunkOf "'card-view-1':{'competition':{'id':'a','title':'A'}},'card-view-2':{'competition':{'id':'b'}}".

Definition plainRecord (i t : string) : Competition :=
  {| id := js i; title := js t; description := []; prize := []; timeLeft := [];
     source := []; participants := zero; tags := [] |}.

(** A candidate with an id, a title and the members [p]. *)
Definition candidateWith (p : list (jsstring * value)) : value :=
  Obj ([(js "id", Str (js "a")); (js "title", Str (js "A"))] ++ p).

Definition envWith (kv : option (gmap jsstring jsstring)) : Env :=
  {| COMPETITION_KV := kv; TARGET_URL := None; COMPETITION_PAGE_BASE := None;
     TELEGRAM_BOT_TOKEN := None; TELEGRAM_CHAT_ID := None |}.

Definition storeWithA : gmap jsstring jsstring :=
  {[ js "seen:A" := js "{}" ]}.

(** A record whose title alone is as long as the limit. *)
Definition oversized : Competition :=
  {| id := js "x"; title := replicate 4096 97%N; description := []; prize := [];
     timeLeft := []; source := []; participants := zero; tags := [] |}.



Definition sampleBase : jsstring := js "https://www.competehub.dev/competitions/".

(** A block in which the code unit U+015C stands before each quote: its
    low byte is that of a backslash. The first parse fails on it. *)
Definition rawWide : jsstring :=
  [123%N; 348%N; 34%N; 97%N; 348%N; 34%N; 58%N; 49%N; 125%N].

(** Two records whose blocks do not fit one message together. *)
Definition wideA : Competition :=
  {| id := js "a"; title := replicate 2100 97%N; description := []; prize := [];
     timeLeft := []; source := []; participants := zero; tags := [] |}.

Definition wideB : Competition :=
  {| id := js "b"; title := replicate 2100 98%N; description := []; prize := [];
     timeLeft := []; source := []; participants := zero; tags := [] |}.

(** A candidate whose id and title are empty arrays. *)
Definition rawEmptyId : jsstring := chunkOf "{'competition':{'id':[],'title':[]}}".

Definition chunkEmptyId : jsstring := chunkOf "'card-view-1':" ++ rawEmptyId.

Definition recordEmptyId : Competition :=
  {| id := []; title := []; description := []; prize := []; timeLeft := [];
     source := []; participants := zero; tags := [] |}.

(** The turn of the marker scan at [searchIndex] finds the block [raw] at
    [objectStart]. *)
Definition turnFinds (chunk : jsstring) (searchIndex objectStart : nat) (raw : jsstring)
    : Prop :=
  ∃ markerIndex,
    indexOf chunk marker searchIndex = Some markerIndex ∧
    indexOf chunk (js "{") markerIndex = Some objectStart ∧
    extractJsonBlock chunk objectStart = Some raw.

(** The second candidate comes first. *)
Definition chunkInvalidFirst : jsstring :=
  chunkOf "'card-view-1':{'competition':{'id':'b'}},'card-view-2':{'competition':{'id':'a','title':'A'}}".

(** *** Vocabulary of the statements about the texts *)

(** No code unit of the text is a control character. *)
Definition noControl (s : jsstring) : bool := forallb (fun c => (32 <=? c)%N) s.

(** Text in which white space only occurs as single U+0020 between two
    other characters: every white-space character is a U+0020, no two
    are adjacent, and none is first or last. *)
Definition normalText (t : jsstring) : Prop :=
  (∀ c, c ∈ t → isWhiteSpace c = true → c = 32%N) ∧
  (∀ l1 a b l2, t = l1 ++ a :: b :: l2 → isWhiteSpace a = true → isWhiteSpace b = false) ∧
  (∀ c r, t = c :: r → isWhiteSpace c = false) ∧
  (∀ l c, t = l ++ [c] → isWhiteSpace c = false).

(** The characters of a text that are not white space, in order. *)
Definition inkOf (s : jsstring) : jsstring := filter (fun c => isWhiteSpace c = false) s.

(** [spaced p t]: every white-space character of [t] is a U+0020 that does
    not follow another one; [p] tells whether [t] follows one. *)
Fixpoint spaced (p : bool) (t : jsstring) : bool :=
  match t with
  | [] => true
  | c :: r =>
      if isWhiteSpace c then (c =? 32)%N && negb p && spaced true r
      else spaced false r
  end.

(** White space that is sparse: the first two parts of [normalText]. *)
Definition sparse (t : jsstring) : Prop :=
  (∀ c, c ∈ t → isWhiteSpace c = true → c = 32%N) ∧
  (∀ l1 a b l2, t = l1 ++ a :: b :: l2 → isWhiteSpace a = true → isWhiteSpace b = false).

(** Only code units below U+0080. *)
Definition allAscii (s : jsstring) : Prop := Forall (fun u => (u < 128)%N) s.

(** *** Vocabulary of the statements about the workflow *)

(** The world [d] seconds later, nothing else having happened. *)
Definition later (d : Z) (w : World) : World :=
  {| network := network w; clock := clock w; readings := readings w;
     seconds := (seconds w + d)%Z; store := store w; trace := trace w |}.

(** The life time [storeSeen] gives an entry, in seconds. *)
Definition ninetyDays : Z := 60 * 60 * 24 * 90.

(** The calls of [fetch] among some events, in order. *)
Definition callsOf (events : list Event) : list Call :=
  omap (fun e => match e with Fetch call => Some call | _ => None end) events.

(** The entries put among some events, in order. *)
Definition putsOf (events : list Event) : list jsstring :=
  omap (fun e => match e with Put key _ _ => Some key | _ => None end) events.

(** A string of JavaScript: every code unit has sixteen bits. *)
Definition wellFormed (s : jsstring) : Prop := Forall (fun u => (u < 65536)%N) s.

(** The events of sending some calls one after the other: the worker
    sleeps a tenth of a second between two of them. *)
Fixpoint sendEvents (calls : list Call) : list Event :=
  match calls with
  | [] => []
  | [call] => [Fetch call]
  | call :: rest => Fetch call :: Sleep 100 :: sendEvents rest
  end.

(** The page the listing site is asked for. *)
Definition pageOf (env : Env) : Call := pageCall (default DEFAULT_TARGET_URL (TARGET_URL env)).

(** The calls that carry the messages for some records. *)
Definition messageCalls (env : Env) (competitions : list Competition) : list Call :=
  map (telegramCall (default [] (TELEGRAM_BOT_TOKEN env)) (default [] (TELEGRAM_CHAT_ID env)))
    (buildTelegramMessages competitions
       (default DEFAULT_COMPETITION_PAGE_BASE (COMPETITION_PAGE_BASE env))).

(** The network accepts every call. *)
Definition accepting (w : World) : Prop :=
  ∀ history call, ∃ response, network w history call = Some response ∧ ok response = true.

(** Whether the listing page is fetched in this world. *)
Definition pageFetched (env : Env) (w : World) : bool :=
  match network w (trace w) (pageOf env) with
  | Some response => ok response
  | None => false
  end.

(** The records of the page as it is answered in this world, and the new
    ones among them. *)
Definition pageRecords (env : Env) (w : World) : list Competition :=
  match network w (trace w) (pageOf env) with
  | Some response => default [] (extractCompetitions (body response))
  | None => []
  end.

Definition newRecords (env : Env) (w : World) : list Competition :=
  filterNewCompetitions (envAt env w) (pageRecords env w).

(** *** Sample worlds *)

Definition samplePage : jsstring :=
  js "<html><script>self.__next_f.push([1," ++ [34%N] ++ chunkOneInvalid ++ [34%N]
    ++ js "])</script></html>".

Definition sampleEnv : Env :=
  {| COMPETITION_KV := Some ∅; TARGET_URL := None; COMPETITION_PAGE_BASE := None;
     TELEGRAM_BOT_TOKEN := Some (js "T0KEN"); TELEGRAM_CHAT_ID := Some (js "42") |}.

(** The listing site answers with [samplePage]; the Bot API answers with
    [botStatus]. *)
Definition sampleWorld (botStatus : nat) : World :=
  {| network := fun _ call =>
       if jseqb (call_url call) DEFAULT_TARGET_URL
       then Some {| status := 200; body := samplePage |}
       else Some {| status := botStatus; body := js "{}" |};
     clock := fun _ => js "2024-05-01T00:00:00.000Z";
     readings := 0;
     seconds := 1714521600;
     store := ∅;
     trace := [] |}.
(** ** The model on concrete inputs *)

Section ModelExamples.

Example limit_value : TELEGRAM_MAX_LENGTH = 4096.
Proof. reflexivity. Qed.

Example literal_units : js "发现 • A" = [21457; 29616; 32; 8226; 32; 65]%N.
Proof. vm_compute. reflexivity. Qed.

Example header_whole :
  buildHeader 12 None None = js "发现 12 个新竞赛：" ++ [10; 10]%N.
Proof. vm_compute. reflexivity. Qed.

Example header_range :
  buildHeader 12 (Some 4%Z) (Some 9%Z) = js "发现 12 个新竞赛（4\-9/12）：" ++ [10; 10]%N.
Proof. vm_compute. reflexivity. Qed.

Example escapeMarkdown_reserved :
  escapeMarkdown (js "C++ (beta)!") = js "C\+\+ \(beta\)\!".
Proof. vm_compute. reflexivity. Qed.

Example trimDescription_long :
  trimDescription (replicate 161 97%N) = replicate 157 97%N ++ js "...".
Proof. vm_compute. reflexivity. Qed.

Example indexOf_found : indexOf (js "abcabc") (js "ca") 0 = Some 2.
Proof. vm_compute. reflexivity. Qed.

Example indexOf_missing : indexOf (js "abcabc") (js "ca") 3 = None.
Proof. vm_compute. reflexivity. Qed.

Example normalizeSpaces_runs :
  normalizeSpaces (Str ([9; 32]%N ++ js "a" ++ [10; 160; 32]%N ++ js "b "))
  = Some (js "a b").
Proof. vm_compute. reflexivity. Qed.

Example extractJsonBlock_nested :
  extractJsonBlock (js "x{a{b}c}d}") 1 = Some (js "{a{b}c}").
Proof. vm_compute. reflexivity. Qed.

Example extractJsonBlock_open : extractJsonBlock (js "x{a{b}c") 1 = None.
Proof. vm_compute. reflexivity. Qed.

Example JSON_parse_object :
  JSON_parse (unescapeQuotes (chunkOf "{'a':[1,true,null],'b':'x'}"))
  = Some (Obj [(js "a", Arr [Num (numberOfNat 1); Bool true; Null]);
               (js "b", Str (js "x"))]).
Proof. vm_compute. reflexivity. Qed.

Example JSON_parse_trailing_comma : JSON_parse (js "[1,]") = None.
Proof. vm_compute. reflexivity. Qed.

Example JSON_parse_leading_zero : JSON_parse (js "01") = None.
Proof. vm_compute. reflexivity. Qed.

Example number_half : JSON_parse (js "0.5") = Some (Num (S754_finite false 4503599627370496 (-53))).
Proof. vm_compute. reflexivity. Qed.

Example numberToString_integer : numberToString (numberOfNat 42) = js "42".
Proof. vm_compute. reflexivity. Qed.

Example numberToString_fraction :
  numberToString (decimalToNumber false 1 (-1)) = js "0.1".
Proof. vm_compute. reflexivity. Qed.

Example numberToString_large :
  numberToString (decimalToNumber false 1 21) = js "1e+21".
Proof. vm_compute. reflexivity. Qed.

Example stringToNumber_hex : stringToNumber (js " 0x1F ") = numberOfNat 31.
Proof. vm_compute. reflexivity. Qed.

Example stringToNumber_text : stringToNumber (js "12px") = NaN.
Proof. vm_compute. reflexivity. Qed.

Example toString_array :
  toString (Arr [Null; Num (numberOfNat 3); Arr [Str (js "a"); Bool false]; Obj []])
  = Some (js ",3,a,false,[object Object]").
Proof. vm_compute. reflexivity. Qed.

Example decode_invalid :
  TextDecoder_decode [239; 187; 191; 228; 184; 173; 255; 65]%N = [20013; 65533; 65]%N.
Proof. vm_compute. reflexivity. Qed.

Example decodeCompetitionChunk_second :
  decodeCompetitionChunk
    (js "<script>self.__next_f.push([1," ++ [34%N] ++ js "none" ++ [34%N]
     ++ js "])</script><script>self.__next_f.push([1," ++ [34%N]
     ++ js "xA card-view-1" ++ [34%N] ++ js "])</script>")
  = Some (Some (js "xA card-view-1")).
Proof. vm_compute. reflexivity. Qed.

Example tryCandidate_valid :
  tryCandidate (chunkOf "{'competition':{'id':7,'title':'T','description':' a  b ','tags':['x',1]}}")
  = Pushed {| id := js "7"; title := js "T"; description := js "a b"; prize := [];
              timeLeft := []; source := []; participants := zero;
              tags := [js "x"; js "1"] |}.
Proof. vm_compute. reflexivity. Qed.

Example tryCandidate_bad_description :
  tryCandidate (chunkOf "{'competition':{'id':'a','title':'T','description':5}}") = Thrown.
Proof. vm_compute. reflexivity. Qed.

End ModelExamples.


Section WorkerExamples.

Example quoteJSON_escapes :
  quoteJSON ([97; 10; 1; 34; 55357; 56832; 55357]%N)
  = [34%N] ++ js "a\n\u0001\" ++ [34; 55357; 56832]%N ++ js "\ud83d" ++ [34%N].
Proof. vm_compute. reflexivity. Qed.

Example storedValue_text_sample :
  storedValue (plainRecord "a" "A") (js "2024-05-01T00:00:00.000Z")
  = js "{" ++ [34%N] ++ js "id" ++ [34%N] ++ js ":" ++ [34%N] ++ js "a" ++ [34%N]
      ++ js "," ++ [34%N] ++ js "storedAt" ++ [34%N] ++ js ":" ++ [34%N]
      ++ js "2024-05-01T00:00:00.000Z" ++ [34%N] ++ js "}".
Proof. vm_compute. reflexivity. Qed.

Example resultText_sample :
  resultText {| fetched := 12; newItems := 3; notified := 0; timestamp := js "T" |}
  = js "{" ++ [10%N] ++ js "  " ++ [34%N] ++ js "fetched" ++ [34%N] ++ js ": 12,"
      ++ [10%N] ++ js "  " ++ [34%N] ++ js "newItems" ++ [34%N] ++ js ": 3,"
      ++ [10%N] ++ js "  " ++ [34%N] ++ js "notified" ++ [34%N] ++ js ": 0,"
      ++ [10%N] ++ js "  " ++ [34%N] ++ js "timestamp" ++ [34%N] ++ js ": "
      ++ [34%N] ++ js "T" ++ [34%N] ++ [10%N] ++ js "}".
Proof. vm_compute. reflexivity. Qed.

Example runWorkflow_sample :
  fst (runWorkflow sampleEnv (sampleWorld 200))
  = Some {| fetched := 1; newItems := 1; notified := 1;
            timestamp := js "2024-05-01T00:00:00.000Z" |}.
Proof. vm_compute. reflexivity. Qed.

Example runWorkflow_refused :
  fst (runWorkflow sampleEnv (sampleWorld 429))
  = Some {| fetched := 1; newItems := 1; notified := 0;
            timestamp := js "2024-05-01T00:00:00.000Z" |}.
Proof. vm_compute. reflexivity. Qed.

Example health_sample :
  fst (fetch {| pathname := js "/__health" |} sampleEnv (sampleWorld 200))
  = {| reply_status := 200; reply_body := js "ok"; reply_headers := [] |}.
Proof. vm_compute. reflexivity. Qed.

End WorkerExamples.
(** ** Facts about the string methods *)

Section StringFacts.

Lemma isPrefix_length (p s : jsstring) : isPrefix p s = true → length p ≤ length s.
Proof.
  revert s; induction p as [|x p IH]; intros [|y s]; simpl; try lia; try discriminate.
  intros H. apply andb_prop in H as [_ H]. apply IH in H. lia.
Qed.

Lemma indexOf_from_bounds (needle s : jsstring) (k j : nat) :
  indexOf_from needle s k = Some j →
  k ≤ j ∧ j + length needle ≤ k + length s.
Proof.
  revert k; induction s as [|c s IH]; intros k; simpl.
  - destruct (isPrefix needle []) eqn:E; [|discriminate].
    intros [= <-]. apply isPrefix_length in E. simpl in E. lia.
  - destruct (isPrefix needle (c :: s)) eqn:E.
    + intros [= <-]. apply isPrefix_length in E. simpl in E. lia.
    + intros H. apply IH in H. lia.
Qed.

Lemma indexOf_bounds (hay needle : jsstring) (from j : nat) :
  needle ≠ [] →
  indexOf hay needle from = Some j →
  from ≤ j ∧ j + length needle ≤ length hay.
Proof.
  intros Hne H. unfold indexOf in H. apply indexOf_from_bounds in H.
  rewrite length_drop in H.
  assert (0 < length needle) by (destruct needle; simpl; [congruence | lia]).
  lia.
Qed.

Lemma indexOf_from_complete (needle s : jsstring) (k d : nat) :
  isPrefix needle (drop d s) = true →
  ∃ j, indexOf_from needle s k = Some j ∧ j ≤ k + d.
Proof.
  revert k d. induction s as [|c s IH]; intros k d H; cbn [indexOf_from].
  - rewrite drop_nil in H. rewrite H. exists k. split; [done | lia].
  - destruct (isPrefix needle (c :: s)) eqn:E; [exists k; split; [done | lia]|].
    destruct d as [|d]; [rewrite drop_0 in H; congruence|].
    cbn [drop] in H. destruct (IH (S k) d H) as (j & Hj & Hle).
    exists j. split; [done | lia].
Qed.

(** An occurrence at [pos], at or after [from], is not passed over. *)
Lemma indexOf_complete (hay needle : jsstring) (from pos : nat) :
  from ≤ pos →
  isPrefix needle (drop pos hay) = true →
  ∃ j, indexOf hay needle from = Some j ∧ j ≤ pos.
Proof.
  intros Hle H. unfold indexOf.
  destruct (indexOf_from_complete needle (drop from hay)
              (Nat.min from (length hay)) (pos - from)) as (j & Hj & Hjle).
  { rewrite drop_drop. by replace (from + (pos - from)) with pos by lia. }
  exists j. split; [done | lia].
Qed.

Lemma length_slice (s : jsstring) (from to : nat) :
  to ≤ length s → length (slice s from to) = to - from.
Proof. intros H. unfold slice. rewrite length_take, length_drop. lia. Qed.

End StringFacts.

(** ** The balanced-brace scan *)

Section ScanFacts.

Lemma scanBlock_some (source : jsstring) (startIndex : nat) (rest : jsstring) (i : nat)
    (prev : option N) (depth : Z) (inString : bool) (raw : jsstring) :
  scanBlock source startIndex rest i prev depth inString = Some raw →
  ∃ j, i ≤ j < i + length rest ∧ raw = slice source startIndex (j + 1).
Proof.
  revert i prev depth inString.
  induction rest as [|char rest IH]; intros i prev depth inString; simpl; [discriminate|].
  generalize (if (char =? 34)%N && negb (bool_decide (prev = Some 92%N))
              then negb inString else inString).
  intros inS.
  assert (Hrec : ∀ d b, scanBlock source startIndex rest (S i) (Some char) d b = Some raw →
                  ∃ j, i ≤ j < i + S (length rest) ∧ raw = slice source startIndex (j + 1)).
  { intros d b H. apply IH in H as (j & Hj & ->). exists j. split; [lia | done]. }
  destruct inS; [apply Hrec|].
  destruct (char =? 123)%N; [apply Hrec|].
  destruct (char =? 125)%N; [|apply Hrec].
  destruct (depth - 1 =? 0)%Z; [|apply Hrec].
  intros [= <-]. exists i. split; [lia | done].
Qed.

Lemma extractJsonBlock_some (source : jsstring) (startIndex : nat) (raw : jsstring) :
  extractJsonBlock source startIndex = Some raw →
  0 < length raw ∧ startIndex + length raw ≤ length source.
Proof.
  unfold extractJsonBlock. intros H.
  apply scanBlock_some in H as (j & Hj & ->).
  rewrite length_drop in Hj.
  rewrite length_slice by lia. lia.
Qed.

Lemma marker_nonempty : marker ≠ [].
Proof. discriminate. Qed.

Lemma brace_nonempty : js "{" ≠ [].
Proof. discriminate. Qed.

(** What a turn that goes on has done. *)
Lemma scanTurn_continue (chunk : jsstring) (searchIndex searchIndex' : nat)
    (pushed : list Competition) :
  scanTurn chunk searchIndex = Continue searchIndex' pushed →
  ∃ markerIndex objectStart,
    indexOf chunk marker searchIndex = Some markerIndex ∧
    indexOf chunk (js "{") markerIndex = Some objectStart ∧
    searchIndex ≤ markerIndex ≤ objectStart ∧
    objectStart < length chunk ∧
    match extractJsonBlock chunk objectStart with
    | None => searchIndex' = objectStart + 1 ∧ pushed = []
    | Some raw =>
        0 < length raw ∧ searchIndex' = objectStart + length raw ∧
        searchIndex' ≤ length chunk
    end.
Proof.
  unfold scanTurn.
  destruct (indexOf chunk marker searchIndex) as [markerIndex|] eqn:Em; [|discriminate].
  destruct (indexOf chunk (js "{") markerIndex) as [objectStart|] eqn:Eo; [|discriminate].
  pose proof (indexOf_bounds _ _ _ _ marker_nonempty Em) as Hm.
  pose proof (indexOf_bounds _ _ _ _ brace_nonempty Eo) as Ho.
  change (length (js "{")) with 1 in Ho.
  intros H. exists markerIndex, objectStart.
  split; [done|]. split; [done|]. split; [lia|]. split; [lia|].
  destruct (extractJsonBlock chunk objectStart) as [raw|] eqn:Er.
  - pose proof (extractJsonBlock_some _ _ _ Er) as Hr.
    destruct raw as [|c raw]; [simpl in Hr; lia|].
    destruct (tryCandidate (c :: raw)); injection H as <- <-; cbn [length] in *; lia.
  - injection H as <- <-. done.
Qed.

Lemma scanTurn_advances (chunk : jsstring) (searchIndex searchIndex' : nat)
    (pushed : list Competition) :
  scanTurn chunk searchIndex = Continue searchIndex' pushed →
  searchIndex < searchIndex' ≤ length chunk.
Proof.
  intros H. apply scanTurn_continue in H as (m & o & _ & _ & Hle & Ho & H).
  destruct (extractJsonBlock chunk o); lia.
Qed.

Lemma scanLoop_total (fuel : nat) (chunk : jsstring) (searchIndex : nat)
    (competitions : list Competition) :
  0 < fuel →
  length chunk < fuel + searchIndex →
  is_Some (scanLoop fuel chunk searchIndex competitions).
Proof.
  revert searchIndex competitions.
  induction fuel as [|fuel IH]; intros s acc Hpos Hf; [lia|].
  simpl. destruct (scanTurn chunk s) as [|s' pushed] eqn:E; [done|].
  apply scanTurn_advances in E. apply IH; lia.
Qed.

Lemma chunkOpen_nonempty : chunkOpen ≠ [].
Proof. discriminate. Qed.

Lemma chunkClose_nonempty : chunkClose ≠ [].
Proof. discriminate. Qed.

(** The loop over the matches of [RSC_CHUNK_REGEX] ends: every match lies
    after the one before. *)
Lemma matchLoop_total (fuel : nat) (html : jsstring) (lastIndex : nat) :
  0 < fuel →
  length html < fuel + lastIndex →
  is_Some (matchLoop fuel html lastIndex).
Proof.
  revert lastIndex.
  induction fuel as [|fuel IH]; intros lastIndex Hpos Hf; [lia|].
  cbn [matchLoop].
  destruct (indexOf html chunkOpen lastIndex) as [p|] eqn:Ep; [|done].
  destruct (indexOf html chunkClose (p + length chunkOpen)) as [groupEnd|] eqn:Eg; [|done].
  apply indexOf_bounds in Ep; [|apply chunkOpen_nonempty].
  apply indexOf_bounds in Eg; [|apply chunkClose_nonempty].
  change (length chunkOpen) with 23 in *. change (length chunkClose) with 3 in *.
  assert (Hnext : is_Some (matchLoop fuel html (groupEnd + 3))) by (apply IH; lia).
  destruct (decodeEscapedString _) as [[|c decoded]|]; try done.
  by destruct (includes (c :: decoded) (js "card-view-")).
Qed.

(** [extractCompetitions] returns for every document. *)
Lemma extractCompetitions_total (html : jsstring) : is_Some (extractCompetitions html).
Proof.
  unfold extractCompetitions, decodeCompetitionChunk.
  destruct (matchLoop_total (S (length html)) html 0 ltac:(lia) ltac:(lia)) as [res E].
  rewrite E. destruct res as [chunk|]; [|done].
  apply scanLoop_total; lia.
Qed.

End ScanFacts.

(** ** The deduplication gate *)

Section DedupFacts.

Variable kv : gmap jsstring jsstring.

(** The indexed [forEach] pushes the unseen records of the part of the
    list it has not visited yet, in their order. *)
Lemma forEachExisting_filter (visited rest fresh : list Competition) :
  forEachExisting (map (fun comp => KV_get kv (seenKey comp)) rest)
                  (length visited) (visited ++ rest) fresh
  = fresh ++ filter (unseen kv) rest.
Proof.
  revert visited fresh.
  induction rest as [|comp rest IH]; intros visited fresh; simpl.
  - by rewrite app_nil_r.
  - replace (visited ++ comp :: rest) with ((visited ++ [comp]) ++ rest)
      by (by rewrite <- app_assoc).
    replace (S (length visited)) with (length (visited ++ [comp]))
      by (rewrite length_app; simpl; lia).
    rewrite IH.
    rewrite filter_cons.
    destruct (decide (unseen kv comp)) as [Hnew|Hseen]; unfold unseen in *.
    + rewrite Hnew.
      rewrite lookup_app_l by (rewrite length_app; simpl; lia).
      rewrite lookup_app_r by lia.
      replace (length visited - length visited) with 0 by lia.
      simpl. by rewrite <- app_assoc.
    + destruct (KV_get kv (seenKey comp)); [done | congruence].
Qed.

End DedupFacts.

Lemma filterNewCompetitions_available (env : Env) (kv : gmap jsstring jsstring)
    (competitions : list Competition) :
  COMPETITION_KV env = Some kv →
  filterNewCompetitions env competitions = filter (unseen kv) competitions.
Proof.
  intros E. unfold filterNewCompetitions. rewrite E.
  apply (forEachExisting_filter kv [] competitions []).
Qed.

Lemma filterNewCompetitions_unavailable (env : Env) (competitions : list Competition) :
  COMPETITION_KV env = None →
  filterNewCompetitions env competitions = competitions.
Proof. intros E. unfold filterNewCompetitions. by rewrite E. Qed.

(** ** The notification batcher *)

Section JoinFacts.

Lemma foldl_add_lengths (parts : list jsstring) (a : nat) :
  foldl (fun a b => a + b) a (map length parts) = a + sum_list_with length parts.
Proof.
  revert a; induction parts as [|p parts IH]; intros a; simpl; [lia|].
  rewrite IH. lia.
Qed.

Lemma length_join (sep : jsstring) (parts : list jsstring) :
  length (join sep parts)
  = sum_list_with length parts + length sep * (length parts - 1).
Proof.
  induction parts as [|p [|p' rest] IH]; simpl in *; [lia | lia |].
  rewrite !length_app, IH. simpl. lia.
Qed.

Lemma length_join_snoc (sep : jsstring) (parts : list jsstring) (p : jsstring) :
  length (join sep (parts ++ [p]))
  = sum_list_with length parts + length sep * length parts + length p.
Proof.
  rewrite length_join, sum_list_with_app, length_app. simpl.
  replace (length parts + 1 - 1) with (length parts) by lia. lia.
Qed.

Lemma buildHeader_whole_le (total s e : Z) :
  length (buildHeader total None None) ≤ length (buildHeader total (Some s) (Some e)).
Proof.
  unfold buildHeader. rewrite !length_app.
  change (length (js "发现 ")) with 3.
  change (length (js " 个新竞赛：")) with 6.
  change (length (js " 个新竞赛（")) with 6.
  lia.
Qed.

Lemma nonempty_of_length {A} (l : list A) : 0 < length l → l ≠ [].
Proof. destruct l; simpl; [lia | done]. Qed.

Lemma blocksOf_snoc (bs : list Batch) (b : Batch) :
  blocksOf (bs ++ [b]) = blocksOf bs ++ b_blocks b.
Proof. unfold blocksOf. rewrite map_app, concat_app. simpl. by rewrite app_nil_r. Qed.

End JoinFacts.

#[local] Arguments buildHeader : simpl never.
#[local] Arguments join : simpl never.
#[local] Arguments formatCompetition : simpl never.

Section BatchFacts.

Variable baseUrl : jsstring.
Variable totalCount : nat.

Lemma closedAt_snoc (bs : list Batch) (b' : Batch) (k : nat) (b : Batch) :
  bs !! k = Some b → closedAt totalCount bs k b → closedAt totalCount (bs ++ [b']) k b.
Proof.
  intros Hk (Hne & Hr & Hfit). apply lookup_lt_Some in Hk.
  unfold closedAt. rewrite !take_app_le by lia. done.
Qed.

Lemma batch_inv_init : batch_inv totalCount [] {| messages := []; currentBatch := []; currentLength := 0 |} [].
Proof.
  split; cbn [messages currentBatch length];
    [done | done | intros k b H; by rewrite lookup_nil in H | lia].
Qed.

Lemma batchStep_inv (blocks : list jsstring) (st : BatchState) (bs : list Batch)
    (comp : Competition) :
  length blocks < totalCount →
  batch_inv totalCount blocks st bs →
  ∃ bs', batch_inv totalCount (blocks ++ [formatCompetition comp baseUrl])
           (batchStep totalCount baseUrl (length blocks) comp st) bs'.
Proof.
  intros Hlt [Hm Hb Hc Hcur].
  assert (Hlen : length (blocksOf bs) + length (currentBatch st) = length blocks)
    by (rewrite <- Hb, length_app; lia).
  unfold batchStep.
  set (formatted := formatCompetition comp baseUrl).
  set (batchStart := (Z.of_nat (length blocks) - Z.of_nat (length (currentBatch st)) + 1)%Z).
  set (wouldBe := _ + _ + _ + length formatted).
  assert (Hwould : wouldBe =
            length (buildHeader (Z.of_nat totalCount) (Some batchStart)
                      (Some (Z.of_nat (length blocks) + 1)%Z))
            + length (join separator (currentBatch st ++ [formatted]))).
  { unfold wouldBe. rewrite foldl_add_lengths, length_join_snoc.
    destruct (0 <? length (currentBatch st)) eqn:E; [lia|].
    apply Nat.ltb_ge in E. lia. }
  clearbody wouldBe.
  destruct ((TELEGRAM_MAX_LENGTH <? wouldBe) && (0 <? length (currentBatch st))) eqn:Eclose.
  - (* the current batch is closed *)
    apply andb_prop in Eclose as [_ Hpos%Nat.ltb_lt].
    rewrite (proj2 (Nat.eqb_neq totalCount (length (currentBatch st)))) by lia.
    set (b := {| b_range := Some (batchStart, Z.of_nat (length blocks));
                 b_blocks := currentBatch st |}).
    exists (bs ++ [b]). split; cbn [messages currentBatch currentLength].
    + by rewrite Hm, map_app.
    + by rewrite blocksOf_snoc, <- Hb.
    + intros k b0 Hk.
      destruct (decide (k < length bs)) as [Hin|Hout].
      * rewrite lookup_app_l in Hk by done. apply closedAt_snoc; auto.
      * assert (k = length bs) as ->.
        { apply lookup_lt_Some in Hk. rewrite length_app in Hk. simpl in Hk. lia. }
        rewrite lookup_app_r, Nat.sub_diag in Hk by lia. injection Hk as <-.
        unfold closedAt.
        rewrite take_app_le, firstn_all by lia.
        rewrite take_ge by (rewrite length_app; simpl; lia).
        rewrite blocksOf_snoc, length_app. subst b. cbn [b_range b_blocks].
        split; [by apply nonempty_of_length|].
        split; [f_equal; f_equal; unfold batchStart; lia|].
        intros H2. unfold renderBatch. cbn. rewrite length_app.
        apply Hcur in H2. exact H2.
    + cbn [length]. lia.
  - (* the block joins the current batch *)
    exists bs. split; cbn [messages currentBatch currentLength].
    + done.
    + by rewrite app_assoc, Hb.
    + done.
    + rewrite (length_app (currentBatch st)), (length_app blocks). cbn [length]. intros H2.
      assert (Hpos : 0 < length (currentBatch st)) by lia.
      apply Nat.ltb_lt in Hpos. rewrite Hpos, andb_true_r in Eclose.
      apply Nat.ltb_ge in Eclose. rewrite Hwould in Eclose.
      replace (Z.of_nat (length blocks + 1) - Z.of_nat (length (currentBatch st) + 1) + 1)%Z
        with batchStart by (unfold batchStart; lia).
      replace (Z.of_nat (length blocks + 1)) with (Z.of_nat (length blocks) + 1)%Z by lia.
      exact Eclose.
Qed.

Lemma batchLoop_inv (rest : list Competition) (blocks : list jsstring)
    (st : BatchState) (bs : list Batch) :
  length blocks + length rest ≤ totalCount →
  batch_inv totalCount blocks st bs →
  ∃ bs', batch_inv totalCount (blocks ++ map (fun c => formatCompetition c baseUrl) rest)
           (batchLoop totalCount baseUrl (length blocks) rest st) bs'.
Proof.
  revert blocks st bs.
  induction rest as [|comp rest IH]; intros blocks st bs Hle Hinv; simpl.
  - exists bs. by rewrite app_nil_r.
  - simpl in Hle.
    destruct (batchStep_inv blocks st bs comp) as [bs1 H1]; [lia | done |].
    specialize (IH (blocks ++ [formatCompetition comp baseUrl])).
    rewrite length_app in IH. simpl in IH.
    replace (length blocks + 1) with (S (length blocks)) in IH by lia.
    destruct (IH _ bs1 ltac:(lia) H1) as [bs2 H2].
    exists bs2. by rewrite <- app_assoc in H2.
Qed.

End BatchFacts.


Lemma buildTelegramMessages_batches (competitions : list Competition) (baseUrl : jsstring) :
  ∃ bs : list Batch,
    buildTelegramMessages competitions baseUrl
      = map (renderBatch (length competitions)) bs ∧
    blocksOf bs = map (fun c => formatCompetition c baseUrl) competitions ∧
    ∀ k b, bs !! k = Some b → batchAt (length competitions) bs k b.
Proof.
  destruct (batchLoop_inv baseUrl (length competitions) competitions [] _ []
              ltac:(simpl; lia) (batch_inv_init _)) as [bs0 [Hm Hb Hc Hcur]].
  cbn [app length] in Hb, Hcur |- *. unfold buildTelegramMessages.
  set (st := batchLoop _ _ _ _ _) in *.
  set (total := length competitions) in *.
  assert (Hlen : length (blocksOf bs0) + length (currentBatch st) = total).
  { unfold total. rewrite <- (length_map (fun c => formatCompetition c baseUrl)), <- Hb, length_app.
    done. }
  rewrite length_map in Hcur. fold total in Hcur.
  assert (Hold : ∀ bs' k b, bs0 !! k = Some b → closedAt total bs0 k b →
                   batchAt total (bs0 ++ bs') k b).
  { intros bs' k b Hk (Hne & Hr & Hfit). apply lookup_lt_Some in Hk.
    unfold batchAt. rewrite Hr, !take_app_le by lia. done. }
  destruct (0 <? length (currentBatch st)) eqn:Epos.
  - apply Nat.ltb_lt in Epos.
    destruct (length (messages st) =? 0) eqn:Efirst.
    + (* the only message *)
      apply Nat.eqb_eq in Efirst. rewrite Hm, length_map in Efirst.
      destruct bs0 as [|? ?]; [|simpl in Efirst; lia].
      rewrite Hm. cbn [map app blocksOf concat] in Hb |- *.
      exists [{| b_range := None; b_blocks := currentBatch st |}].
      split; [done|]. split; [unfold blocksOf; simpl; by rewrite app_nil_r|].
      intros [|k] b Hk; [|by destruct k]. injection Hk as <-.
      unfold batchAt, renderBatch. cbn.
      split; [by apply nonempty_of_length|].
      split; [done|].
      intros H2. specialize (Hcur H2). rewrite length_app.
      pose proof (buildHeader_whole_le (Z.of_nat total)
                    (Z.of_nat total - Z.of_nat (length (currentBatch st)) + 1)%Z
                    (Z.of_nat total)).
      lia.
    + (* the last of several messages *)
      set (b := {| b_range := Some ((Z.of_nat total - Z.of_nat (length (currentBatch st)) + 1)%Z,
                                    Z.of_nat total);
                   b_blocks := currentBatch st |}).
      exists (bs0 ++ [b]).
      split; [by rewrite Hm, map_app|].
      split; [by rewrite blocksOf_snoc|].
      intros k b0 Hk.
      destruct (decide (k < length bs0)) as [Hin|Hout].
      * rewrite lookup_app_l in Hk by done. apply Hold; auto.
      * assert (k = length bs0) as ->.
        { apply lookup_lt_Some in Hk. rewrite length_app in Hk. simpl in Hk. lia. }
        rewrite lookup_app_r, Nat.sub_diag in Hk by lia. injection Hk as <-.
        unfold batchAt.
        rewrite take_app_le, firstn_all by lia.
        rewrite take_ge by (rewrite length_app; simpl; lia).
        rewrite blocksOf_snoc, length_app. subst b. cbn [b_range b_blocks].
        split; [by apply nonempty_of_length|].
        split; [lia|].
        intros H2. unfold renderBatch. cbn. rewrite length_app. auto.
  - apply Nat.ltb_ge in Epos.
    assert (currentBatch st = []) as Hnil by (apply nil_length_inv; lia).
    exists bs0. rewrite Hnil, app_nil_r in Hb.
    split; [done|]. split; [done|].
    intros k b Hk. rewrite <- (app_nil_r bs0). apply Hold; auto.
Qed.

Lemma blocksOf_app (bs1 bs2 : list Batch) :
  blocksOf (bs1 ++ bs2) = blocksOf bs1 ++ blocksOf bs2.
Proof. unfold blocksOf. by rewrite map_app, concat_app. Qed.

Lemma blocksOf_take_S (bs : list Batch) (k : nat) (b : Batch) :
  bs !! k = Some b → blocksOf (take (S k) bs) = blocksOf (take k bs) ++ b_blocks b.
Proof.
  intros Hk. rewrite (take_S_r _ _ _ Hk), blocksOf_app.
  unfold blocksOf at 2. simpl. by rewrite app_nil_r.
Qed.

Lemma blocksOf_middle (bs : list Batch) (k : nat) (b : Batch) :
  bs !! k = Some b →
  blocksOf bs = blocksOf (take k bs) ++ b_blocks b ++ blocksOf (drop (S k) bs).
Proof.
  intros Hk.
  assert (E : blocksOf bs = blocksOf (take k bs ++ [b] ++ drop (S k) bs))
    by (f_equal; symmetry; by apply take_drop_middle).
  rewrite E, !blocksOf_app. unfold blocksOf at 2. simpl. by rewrite app_nil_r.
Qed.

(** The blocks of the batch at [k] are those that follow the blocks of the
    batches before it. *)
Lemma blocksOf_lookup (bs : list Batch) (k : nat) (b : Batch) :
  bs !! k = Some b →
  b_blocks b = take (length (b_blocks b)) (drop (length (blocksOf (take k bs))) (blocksOf bs)).
Proof.
  intros Hk. rewrite (blocksOf_middle bs k b Hk) at 1.
  by rewrite drop_app_length, take_app_length.
Qed.

Lemma batchAt_range (competitions : list Competition) (baseUrl : jsstring)
    (bs : list Batch) (k : nat) (b : Batch) (s e : Z) :
  blocksOf bs = map (fun c => formatCompetition c baseUrl) competitions →
  bs !! k = Some b →
  b_blocks b ≠ [] →
  s = (Z.of_nat (length (blocksOf (take k bs))) + 1)%Z →
  e = Z.of_nat (length (blocksOf (take (S k) bs))) →
  (1 ≤ s ≤ e)%Z ∧ (e ≤ Z.of_nat (length competitions))%Z ∧
  e = (s + Z.of_nat (length (b_blocks b)) - 1)%Z ∧
  b_blocks b = formattedRange competitions baseUrl s e.
Proof.
  intros Hall Hk Hne -> ->.
  rewrite (blocksOf_take_S _ _ _ Hk), length_app.
  assert (0 < length (b_blocks b)) by (destruct (b_blocks b); simpl; [done | lia]).
  assert (length (blocksOf (take k bs)) + length (b_blocks b) ≤ length competitions).
  { rewrite <- (length_map (fun c => formatCompetition c baseUrl) competitions), <- Hall.
    rewrite (blocksOf_middle bs k b Hk), !length_app. lia. }
  split; [lia|]. split; [lia|]. split; [lia|].
  unfold formattedRange.
  replace (Z.to_nat _) with (length (b_blocks b)) by lia.
  replace (Z.to_nat _) with (length (blocksOf (take k bs))) by lia.
  rewrite <- firstn_map, <- skipn_map, <- Hall.
  by apply blocksOf_lookup.
Qed.


(** ** The numerals of the header *)

Section NumeralFacts.

Lemma spanDigits_units (d : Decimal.uint) :
  spanDigits (uint_units d) = (map (fun c => (c - 48)%N) (uint_units d), []).
Proof. induction d; cbn [uint_units spanDigits map]; [done|..]; by rewrite IHd. Qed.

Lemma digits_acc (d : Decimal.uint) (acc : positive) :
  foldl (fun a x => (10 * a + x)%N) (Npos acc) (map (fun c => (c - 48)%N) (uint_units d))
  = Npos (Pos.of_uint_acc d acc).
Proof.
  revert acc. induction d; intros acc; cbn [uint_units map foldl Pos.of_uint_acc];
    [done|..]; rewrite <- IHd; f_equal; lia.
Qed.

Lemma digits_of_uint (d : Decimal.uint) :
  digitsValue 10 (map (fun c => (c - 48)%N) (uint_units d)) = Pos.of_uint d.
Proof.
  unfold digitsValue.
  induction d; cbn [uint_units map foldl Pos.of_uint]; [done|exact IHd|..];
    rewrite <- digits_acc; f_equal.
Qed.

Lemma readNumeral_units (d : Decimal.uint) :
  d ≠ Decimal.Nil → readNumeral (uint_units d) = Some (Pos.of_uint d).
Proof.
  intros Hd. unfold readNumeral. rewrite spanDigits_units, <- digits_of_uint.
  destruct d; try done.
Qed.

(** The numeral of a number that is not negative denotes it. *)
Lemma readNumeral_intToString (z : Z) :
  (0 ≤ z)%Z → readNumeral (intToString z) = Some (Z.to_N z).
Proof.
  intros Hz. destruct z as [|p|p]; [done| |lia].
  cbn [intToString Z.to_N]. unfold digitsOfN. cbn [N.to_uint].
  rewrite readNumeral_units by apply Unsigned.to_uint_nonnil.
  by rewrite Unsigned.of_to.
Qed.

Lemma buildHeader_shows (total : nat) (range : option (Z * Z)) :
  match range with Some (s, e) => (0 ≤ s)%Z ∧ (0 ≤ e)%Z | None => True end →
  headerShows (buildHeader (Z.of_nat total) (fst <$> range) (snd <$> range)) total range.
Proof.
  assert (Ht : readNumeral (intToString (Z.of_nat total)) = Some (N.of_nat total)).
  { rewrite readNumeral_intToString by lia. f_equal. lia. }
  destruct range as [[s e]|]; cbn [fmap option_fmap option_map fst snd headerShows buildHeader].
  - intros [Hs He].
    exists (intToString (Z.of_nat total)), (intToString s), (intToString e).
    split; [done|]. split; [done|].
    split; [done|]. split; [by apply readNumeral_intToString|].
    split; [done|]. by apply readNumeral_intToString.
  - intros _. exists (intToString (Z.of_nat total)). by split.
Qed.

End NumeralFacts.

(** ** Claims about the batcher *)

(** C1. For a non-empty list of new records the messages are the rendered
    batches of a list [bs]: the blocks of all batches, in order, are the
    formatted blocks of the records in order; every message is a header
    followed by its blocks joined by blank lines, and the text of that
    header is the fixed words around decimal numerals that denote the
    number of records and, for a range header, the 1-based positions of
    the first and the last record of its batch; only a message that is
    alone has the header without a range. *)
Theorem messages_cover_records (competitions : list Competition) (baseUrl : jsstring) :
  competitions ≠ [] → coversRecords competitions baseUrl.
Proof.
  intros Hne.
  destruct (buildTelegramMessages_batches competitions baseUrl) as (bs & Hm & Hb & Hat).
  exists bs. split.
  { intros ->. destruct competitions; [done | discriminate]. }
  split; [done|]. split; [done|].
  intros k b Hk. destruct (Hat k b Hk) as (Hblocks & Hrange & _).
  split; [done|].
  assert (Hpos : match b_range b with
                 | Some (s, e) =>
                     s = (Z.of_nat (length (blocksOf (take k bs))) + 1)%Z ∧
                     e = (s + Z.of_nat (length (b_blocks b)) - 1)%Z ∧
                     (1 ≤ s ≤ e)%Z ∧ (e ≤ Z.of_nat (length competitions))%Z ∧
                     b_blocks b = formattedRange competitions baseUrl s e
                 | None => bs = [b]
                 end).
  { destruct (b_range b) as [[s e]|]; [|done].
    destruct Hrange as [Hs He].
    destruct (batchAt_range competitions baseUrl bs k b s e Hb Hk Hblocks Hs He)
      as (? & ? & ? & ?).
    done. }
  split; [|done].
  exists (buildHeader (Z.of_nat (length competitions)) (fst <$> b_range b) (snd <$> b_range b)).
  split.
  - rewrite Hm, list_lookup_fmap, Hk. done.
  - apply buildHeader_shows. destruct (b_range b) as [[s e]|]; [|done]. lia.
Qed.

Lemma messages_cover_records_witness :
  [wideA; wideB] ≠ [] ∧ coversRecords [wideA; wideB] sampleBase ∧
  buildTelegramMessages [wideA; wideB] sampleBase
  = [ js "发现 2 个新竞赛（1\-1/2）：" ++ [10%N; 10%N] ++ formatCompetition wideA sampleBase;
      js "发现 2 个新竞赛（2\-2/2）：" ++ [10%N; 10%N] ++ formatCompetition wideB sampleBase ].
Proof.
  split; [discriminate|]. split; [apply messages_cover_records; discriminate|].
  vm_compute. reflexivity.
Defined.

(** C2 as the specification states it fails: one record with a title of
    4096 characters gives a message longer than the limit. *)
Lemma message_limit_counterexample :
  ¬ Forall (fun m => length m ≤ TELEGRAM_MAX_LENGTH)
      (buildTelegramMessages [oversized] sampleBase).
Proof.
  intros H.
  assert (Hb : forallb (fun m => length m <=? TELEGRAM_MAX_LENGTH)
                 (buildTelegramMessages [oversized] sampleBase) = true).
  { apply forallb_forall. intros m Hin. apply Nat.leb_le.
    rewrite Forall_forall in H. apply H. by apply list_elem_of_In. }
  vm_compute in Hb. discriminate.
Qed.

(** C2, amended. A message that holds two or more records is within the
    limit; a message that holds one record is its header and that record's
    block, whatever its length, so all messages are within the limit as
    soon as every record's block fits next to the range header of its own
    position. *)
Theorem messages_within_limit (competitions : list Competition) (baseUrl : jsstring) :
  ∃ bs : list Batch,
    buildTelegramMessages competitions baseUrl
      = map (renderBatch (length competitions)) bs ∧
    blocksOf bs = map (fun c => formatCompetition c baseUrl) competitions ∧
    (∀ b, b ∈ bs → b_blocks b ≠ [] ∧
                   (2 ≤ length (b_blocks b) →
                    length (renderBatch (length competitions) b) ≤ TELEGRAM_MAX_LENGTH)) ∧
    ((∀ i c, competitions !! i = Some c →
        length (buildHeader (Z.of_nat (length competitions))
                  (Some (Z.of_nat i + 1)%Z) (Some (Z.of_nat i + 1)%Z))
        + length (formatCompetition c baseUrl) ≤ TELEGRAM_MAX_LENGTH) →
     Forall (fun m => length m ≤ TELEGRAM_MAX_LENGTH)
       (buildTelegramMessages competitions baseUrl)).
Proof.
  destruct (buildTelegramMessages_batches competitions baseUrl) as (bs & Hm & Hb & Hat).
  exists bs. split; [done|]. split; [done|]. split.
  { intros b [k Hk]%list_elem_of_lookup. destruct (Hat k b Hk) as (? & _ & ?). done. }
  intros Hfits. rewrite Hm. apply Forall_forall. intros m Hin.
  apply list_elem_of_fmap in Hin as (b & -> & [k Hk]%list_elem_of_lookup).
  destruct (Hat k b Hk) as (Hblocks & Hrange & Hfit).
  destruct (decide (2 ≤ length (b_blocks b))) as [H2|H1]; [auto|].
  destruct (b_blocks b) as [|x [|y rest]] eqn:Eb; [done | | simpl in H1; lia].
  unfold renderBatch. rewrite Eb, length_app. cbn [join].
  destruct (b_range b) as [[s e]|] eqn:Er.
  - destruct Hrange as [Hs He].
    assert (Hb' : b_blocks b ≠ []) by (rewrite Eb; done).
    destruct (batchAt_range competitions baseUrl bs k b s e Hb Hk Hb' Hs He)
      as (Hse & Hen & Hlen & Hfmt).
    rewrite Eb in Hlen, Hfmt. simpl in Hlen. unfold formattedRange in Hfmt.
    replace (Z.to_nat (e - s + 1)) with 1 in Hfmt by lia.
    destruct (drop (Z.to_nat (s - 1)) competitions) as [|c rest'] eqn:Ed; [discriminate|].
    injection Hfmt as ->.
    assert (Hc : competitions !! Z.to_nat (s - 1) = Some c).
    { rewrite <- (Nat.add_0_r (Z.to_nat (s - 1))), <- lookup_drop, Ed. done. }
    specialize (Hfits _ _ Hc). cbn.
    replace (Z.of_nat (Z.to_nat (s - 1)) + 1)%Z with s in Hfits by lia.
    replace e with s by lia. exact Hfits.
  - subst bs. unfold blocksOf in Hb. simpl in Hb. rewrite Eb in Hb.
    destruct competitions as [|c [|c' rest']]; try discriminate.
    injection Hb as ->.
    specialize (Hfits 0 c eq_refl). cbn.
    pose proof (buildHeader_whole_le (Z.of_nat (length [c])) (Z.of_nat 0 + 1) (Z.of_nat 0 + 1)).
    unfold join. change (length [c]) with 1 in *. lia.
Qed.

(** ** The UTF-8 decoder and the un-escaping of quotes *)

Section BitFacts.

Lemma lor_ge_l (a x : N) : (a ≤ N.lor a x)%N.
Proof.
  apply N.ldiff_le, N.bits_inj. intros i.
  rewrite N.ldiff_spec, N.lor_spec, N.bits_0.
  by destruct (N.testbit a i).
Qed.

Lemma lor_shift_ge (cp x : N) : (cp * 64 ≤ N.lor (N.shiftl cp 6) x)%N.
Proof.
  etransitivity; [|apply lor_ge_l].
  rewrite N.shiftl_mul_pow2. change (2 ^ 6)%N with 64%N. lia.
Qed.

Lemma land_31 (b : N) : N.land b 31 = (b mod 32)%N.
Proof. apply (N.land_ones b 5). Qed.

Lemma land_15 (b : N) : N.land b 15 = (b mod 16)%N.
Proof. apply (N.land_ones b 4). Qed.

Lemma land_7 (b : N) : N.land b 7 = (b mod 8)%N.
Proof. apply (N.land_ones b 3). Qed.

Lemma land_63 (b : N) : N.land b 63 = (b mod 64)%N.
Proof. apply (N.land_ones b 6). Qed.

Lemma land_255 (b : N) : N.land b 255 = (b mod 256)%N.
Proof. apply (N.land_ones b 8). Qed.

End BitFacts.

(** Linear arithmetic with the remainder of [b] by [k] unfolded. *)
Ltac mod_lia b k :=
  let Hd := fresh in
  let Hm := fresh in
  pose proof (N.div_mod b k ltac:(lia)) as Hd;
  pose proof (N.mod_lt b k ltac:(lia)) as Hm;
  revert Hd Hm;
  repeat match goal with H : context [N.modulo b k] |- _ => revert H end;
  generalize (b / k)%N (b mod k)%N; intros; lia.

Section DecoderFacts.

Lemma utf16_units_high (cp : N) : (128 ≤ cp)%N → allHigh (utf16_units cp).
Proof.
  intros H. unfold utf16_units, allHigh.
  destruct (cp <? 65536)%N; repeat constructor; lia.
Qed.

Lemma utf16_encode_app (a b : list N) :
  utf16_encode (a ++ b) = utf16_encode a ++ utf16_encode b.
Proof. unfold utf16_encode. by rewrite map_app, concat_app. Qed.

Lemma utf16_encode_high (cps : list N) : allHigh cps → allHigh (utf16_encode cps).
Proof.
  unfold allHigh. induction 1 as [|cp cps H _ IH]; [constructor|].
  change (utf16_encode (cp :: cps)) with (utf16_units cp ++ utf16_encode cps).
  apply Forall_app. split; [by apply utf16_units_high | done].
Qed.

(** A lead byte: an ASCII byte is emitted as it is; any other byte emits
    nothing below U+0080 and leaves an acceptable state. *)
Lemma utf8_lead_spec (b : N) :
  ((b < 128)%N ∧ utf8_lead b = ([b], None)) ∨
  ((128 ≤ b)%N ∧ allHigh (fst (utf8_lead b)) ∧ stateOK (snd (utf8_lead b)) ∧
   (fst (utf8_lead b) = [] → is_Some (snd (utf8_lead b)))).
Proof.
  unfold utf8_lead, in_range.
  destruct (N.ltb_spec b 128) as [Hlt|Hge].
  - left. split; [done|].
    replace (0 <=? b)%N with true by (symmetry; apply N.leb_le; lia).
    replace (b <=? 127)%N with true by (symmetry; apply N.leb_le; lia). done.
  - right. split; [done|].
    replace (b <=? 127)%N with false by (symmetry; apply N.leb_gt; lia).
    rewrite andb_false_r.
    destruct (N.leb_spec 194 b), (N.leb_spec b 223); simpl.
    { split; [constructor|]. split; [|eauto].
      unfold pendingOK; simpl. rewrite land_31. mod_lia b 32%N. }
    all: destruct (N.leb_spec 224 b), (N.leb_spec b 239); simpl.
    all: try (split; [constructor|]; split; [|eauto];
              unfold pendingOK; simpl; rewrite land_15;
              destruct (N.eqb_spec b 224), (N.eqb_spec b 237); mod_lia b 16%N).
    all: destruct (N.leb_spec 240 b), (N.leb_spec b 244); simpl.
    all: try (split; [constructor|]; split; [|eauto];
              unfold pendingOK; simpl; rewrite land_7;
              destruct (N.eqb_spec b 240), (N.eqb_spec b 244); mod_lia b 8%N).
    all: split; [repeat constructor; unfold replacement; lia|]; split; [done|]; discriminate.
Qed.


Lemma lor_ge_r (a x : N) : (x ≤ N.lor a x)%N.
Proof. rewrite N.lor_comm. apply lor_ge_l. Qed.

(** A byte inside a sequence: an ASCII byte ends the sequence with U+FFFD
    and is emitted; any other byte emits nothing below U+0080. *)
Lemma utf8_continue_spec (s : utf8_state) (b : N) :
  pendingOK s →
  ((b < 128)%N ∧ utf8_continue s b = ([replacement; b], None)) ∨
  ((128 ≤ b)%N ∧ allHigh (fst (utf8_continue s b)) ∧ stateOK (snd (utf8_continue s b)) ∧
   (fst (utf8_continue s b) = [] → is_Some (snd (utf8_continue s b)))).
Proof.
  intros (Hlo & Hhi & Hcp). unfold utf8_continue, in_range.
  destruct (N.leb_spec (lower_boundary s) b) as [Hl|Hl],
           (N.leb_spec b (upper_boundary s)) as [Hu|Hu]; cbn [andb].
  - (* the byte continues the sequence *)
    right. split; [lia|].
    pose proof (lor_shift_ge (code_point s) (N.land b 63)) as Hshift.
    pose proof (lor_ge_r (N.shiftl (code_point s) 6) (N.land b 63)) as Hlow.
    rewrite land_63 in Hshift, Hlow |- *.
    destruct (bytes_needed s) as [|[|[|[|n]]]]; try done; cbn [fst snd].
    + split; [repeat constructor; lia|]. split; [done | discriminate].
    + split; [constructor|]. split; [|eauto].
      unfold stateOK, pendingOK;
        cbn [code_point bytes_needed lower_boundary upper_boundary].
      split; [lia|]. split; [lia|].
      destruct Hcp as [Hcp|Hcp]; [lia|]. mod_lia b 64%N.
    + split; [constructor|]. split; [|eauto].
      unfold stateOK, pendingOK;
        cbn [code_point bytes_needed lower_boundary upper_boundary].
      split; [lia|]. split; [lia|]. left.
      destruct Hcp as [Hcp|Hcp]; [lia|]. mod_lia b 64%N.
  - destruct (utf8_lead_spec b) as [[Hb E]|(Hb & Hout & Hst & _)]; [lia|].
    right. destruct (utf8_lead b) as [out st']. cbn [fst snd] in *.
    split; [done|]. split; [constructor; [unfold replacement; lia | done]|].
    split; [done | discriminate].
  - destruct (utf8_lead_spec b) as [[Hb E]|(Hb & Hout & Hst & _)].
    + left. rewrite E. done.
    + right. destruct (utf8_lead b) as [out st']. cbn [fst snd] in *.
      split; [done|]. split; [constructor; [unfold replacement; lia | done]|].
      split; [done | discriminate].
  - destruct (utf8_lead_spec b) as [[Hb E]|(Hb & Hout & Hst & _)].
    + left. rewrite E. done.
    + right. destruct (utf8_lead b) as [out st']. cbn [fst snd] in *.
      split; [done|]. split; [constructor; [unfold replacement; lia | done]|].
      split; [done | discriminate].
Qed.

Lemma utf8_step_spec (st : option utf8_state) (b : N) :
  stateOK st →
  ((b < 128)%N ∧ utf16_encode (fst (utf8_step st b)) = flushed st ++ [b] ∧
   snd (utf8_step st b) = None) ∨
  ((128 ≤ b)%N ∧ allHigh (utf16_encode (fst (utf8_step st b))) ∧
   stateOK (snd (utf8_step st b)) ∧
   (utf16_encode (fst (utf8_step st b)) = [] → is_Some (snd (utf8_step st b)))).
Proof.
  intros Hst.
  assert (Hunit : (b < 128)%N → utf16_units b = [b]).
  { intros Hb. unfold utf16_units.
    by replace (b <? 65536)%N with true by (symmetry; apply N.ltb_lt; lia). }
  assert (Hempty : ∀ out, allHigh out → utf16_encode out = [] → out = []).
  { intros [|cp out] Hall; [done|]. unfold utf16_encode. simpl.
    unfold utf16_units. destruct (cp <? 65536)%N; discriminate. }
  destruct st as [s|]; cbn [utf8_step flushed].
  - destruct (utf8_continue_spec s b Hst) as [[Hb E]|(Hb & Hout & Hst' & Hsome)].
    + left. rewrite E. cbn [fst snd]. split; [done|]. split; [|done].
      unfold utf16_encode. simpl. by rewrite Hunit.
    + right. split; [done|]. split; [by apply utf16_encode_high|].
      split; [done|]. intros E. apply Hsome. by apply Hempty.
  - destruct (utf8_lead_spec b) as [[Hb E]|(Hb & Hout & Hst' & Hsome)].
    + left. rewrite E. cbn [fst snd]. split; [done|]. split; [|done].
      unfold utf16_encode. simpl. by rewrite Hunit.
    + right. split; [done|]. split; [by apply utf16_encode_high|].
      split; [done|]. intros E. apply Hsome. by apply Hempty.
Qed.

Lemma runUnits_cons (st : option utf8_state) (b : N) (r : list N) :
  runUnits st (b :: r)
  = utf16_encode (fst (utf8_step st b)) ++ runUnits (snd (utf8_step st b)) r.
Proof. unfold runUnits. cbn [utf8_run]. apply utf16_encode_app. Qed.

Lemma runUnits_nil (st : option utf8_state) : runUnits st [] = flushed st.
Proof. by destruct st. Qed.

Lemma flushed_high (st : option utf8_state) : allHigh (flushed st).
Proof. destruct st; repeat constructor. unfold replacement. lia. Qed.

Lemma allHigh_head (out rest : jsstring) : allHigh out → out ≠ [] → headHigh (out ++ rest).
Proof.
  intros Hall Hne x r E. destruct out as [|y out]; [done|].
  injection E as -> _. by inversion Hall.
Qed.

(** While a sequence is pending the next code unit cannot be ASCII. *)
Lemma pending_head (r : list N) (s : utf8_state) :
  pendingOK s → headHigh (runUnits (Some s) r).
Proof.
  revert s. induction r as [|b r IH]; intros s Hs.
  - rewrite runUnits_nil. intros x r E. injection E as <- _. unfold replacement. lia.
  - rewrite runUnits_cons.
    destruct (utf8_step_spec (Some s) b Hs) as [(Hb & E & _)|(Hb & Hout & Hst & Hsome)].
    + rewrite E, <- app_assoc. apply allHigh_head; [apply flushed_high | discriminate].
    + destruct (utf16_encode (fst (utf8_step (Some s) b))) as [|u out] eqn:Eout.
      * destruct (Hsome eq_refl) as [s' Es']. rewrite Es' in Hst |- *. by apply IH.
      * by apply allHigh_head.
Qed.

(** From the initial state the output starts with a quote only when the
    input does. *)
Lemma initial_head (r : list N) : notHead 34%N r → notHead 34%N (runUnits None r).
Proof.
  intros Hr. destruct r as [|b r]; [intros t; rewrite runUnits_nil; discriminate|].
  rewrite runUnits_cons.
  destruct (utf8_step_spec None b I) as [(Hb & E & _)|(Hb & Hout & Hst & Hsome)].
  - rewrite E. intros t [= -> _]. by apply (Hr r).
  - assert (H : headHigh (utf16_encode (fst (utf8_step None b))
                          ++ runUnits (snd (utf8_step None b)) r)).
    { destruct (utf16_encode (fst (utf8_step None b))) as [|u out] eqn:Eout.
      - destruct (Hsome eq_refl) as [s' Es']. rewrite Es' in Hst |- *.
        by apply pending_head.
      - by apply allHigh_head. }
    intros t E. specialize (H _ _ E). lia.
Qed.

End DecoderFacts.

Section UnescapeFacts.

Lemma unescape_other (c : N) (y : jsstring) :
  c ≠ 92%N → unescapeQuotes (c :: y) = c :: unescapeQuotes y.
Proof.
  intros Hc. destruct y as [|d y]; [done|]. cbn [unescapeQuotes].
  by replace (c =? 92)%N with false by (symmetry; by apply N.eqb_neq).
Qed.

Lemma unescape_pair (y : jsstring) :
  unescapeQuotes (92%N :: 34%N :: y) = 34%N :: unescapeQuotes y.
Proof. done. Qed.

Lemma unescape_backslash (y : jsstring) :
  notHead 34%N y → unescapeQuotes (92%N :: y) = 92%N :: unescapeQuotes y.
Proof.
  intros Hy. destruct y as [|d y]; [done|]. cbn [unescapeQuotes].
  replace (d =? 34)%N with false; [done|].
  symmetry. apply N.eqb_neq. intros ->. by apply (Hy y).
Qed.

Lemma unescape_high (x y : jsstring) :
  allHigh x → unescapeQuotes (x ++ y) = x ++ unescapeQuotes y.
Proof.
  induction 1 as [|c x Hc _ IH]; [done|].
  rewrite <- app_comm_cons, unescape_other by lia. by rewrite IH.
Qed.

(** The head of the un-escaped text is the head of the text, or a quote. *)
Lemma unescape_head (c : N) (r : jsstring) :
  ∃ h t, unescapeQuotes (c :: r) = h :: t ∧ (h = c ∨ h = 34%N).
Proof.
  destruct r as [|d r]; [by eauto|]. cbn [unescapeQuotes].
  destruct ((c =? 92)%N && (d =? 34)%N); eauto.
Qed.

End UnescapeFacts.
(** ** Decoding and un-escaping commute *)

Section FallbackFacts.

Lemma runUnits_ascii (st : option utf8_state) (b : N) (r : list N) :
  stateOK st → (b < 128)%N →
  runUnits st (b :: r) = flushed st ++ b :: runUnits None r.
Proof.
  intros Hst Hb. rewrite runUnits_cons.
  destruct (utf8_step_spec st b Hst) as [(_ & E & E')|(Hb' & _)]; [|lia].
  by rewrite E, E', <- app_assoc.
Qed.

(** Un-escaping the bytes before they are decoded gives the same text as
    un-escaping the decoded text, from any state of the decoder. *)
Lemma runUnits_unescape (n : nat) (bs : list N) (st : option utf8_state) :
  length bs ≤ n → stateOK st →
  runUnits st (unescapeQuotes bs) = unescapeQuotes (runUnits st bs).
Proof.
  revert bs st. induction n as [|n IH]; intros bs st Hn Hst.
  { destruct bs; [|simpl in Hn; lia]. cbn [unescapeQuotes]. rewrite runUnits_nil.
    by destruct st. }
  destruct bs as [|c r].
  { cbn [unescapeQuotes]. rewrite runUnits_nil. by destruct st. }
  cbn [length] in Hn.
  destruct (N.eq_dec c 92%N) as [->|Hc].
  - (* a backslash *)
    destruct r as [|d r'].
    + cbn [unescapeQuotes]. rewrite runUnits_ascii, runUnits_nil by (done || lia).
      by rewrite unescape_high by apply flushed_high.
    + destruct (N.eq_dec d 34%N) as [->|Hd].
      * rewrite unescape_pair.
        rewrite !runUnits_ascii by (done || lia). cbn [flushed app].
        rewrite IH by (cbn [length] in Hn; done || lia).
        by rewrite unescape_high by apply flushed_high.
      * assert (Hr : notHead 34%N (d :: r')) by (intros t [= -> _]; done).
        rewrite unescape_backslash by done.
        rewrite !(runUnits_ascii st 92%N) by (done || lia).
        rewrite IH by (done || lia).
        rewrite unescape_high by apply flushed_high.
        by rewrite unescape_backslash by (by apply initial_head).
  - rewrite unescape_other by done.
    rewrite !runUnits_cons.
    destruct (utf8_step_spec st c Hst) as [(Hb & E & E')|(Hb & Hout & Hst' & _)].
    + rewrite E, E', <- !app_assoc. cbn [app].
      rewrite IH by (done || lia).
      rewrite unescape_high by apply flushed_high.
      by rewrite unescape_other.
    + rewrite IH by (done || lia). by rewrite unescape_high.
Qed.

Lemma isPrefix_cons_ne (k c : N) (p r : jsstring) :
  c ≠ k → isPrefix (k :: p) (c :: r) = false.
Proof. intros H. cbn [isPrefix]. by replace (k =? c)%N with false by (symmetry; apply N.eqb_neq; done). Qed.

Lemma isPrefix_cons_eq (k : N) (p r : jsstring) :
  isPrefix (k :: p) (k :: r) = isPrefix p r.
Proof. cbn [isPrefix]. by rewrite N.eqb_refl. Qed.

Lemma isPrefix_unescape_ne (k c : N) (p r : jsstring) :
  k ≠ 34%N → c ≠ k → isPrefix (k :: p) (unescapeQuotes (c :: r)) = false.
Proof.
  intros Hk Hc. destruct (unescape_head c r) as (h & t & -> & [->| ->]);
    by apply isPrefix_cons_ne.
Qed.

(** The byte order mark is found after the un-escaping exactly when it is
    found before it. *)
Lemma stripMark_unescape (bs : list N) :
  stripMark (unescapeQuotes bs) = unescapeQuotes (stripMark bs).
Proof.
  unfold stripMark, byteOrderMark.
  destruct bs as [|c1 r1]; [done|].
  destruct (N.eq_dec c1 239%N) as [->|H1];
    [|by rewrite isPrefix_unescape_ne, isPrefix_cons_ne].
  rewrite unescape_other by done.
  destruct r1 as [|c2 r2]; [done|].
  destruct (N.eq_dec c2 187%N) as [->|H2].
  2: { rewrite !isPrefix_cons_eq.
       by rewrite isPrefix_unescape_ne, isPrefix_cons_ne. }
  rewrite unescape_other by done.
  destruct r2 as [|c3 r3]; [done|].
  destruct (N.eq_dec c3 191%N) as [->|H3].
  2: { rewrite !isPrefix_cons_eq.
       by rewrite isPrefix_unescape_ne, isPrefix_cons_ne. }
  rewrite unescape_other by done. done.
Qed.

(** [TextDecoder_decode] commutes with the un-escaping of quotes. *)
Lemma decode_unescape (buf : list N) :
  TextDecoder_decode (unescapeQuotes buf) = unescapeQuotes (TextDecoder_decode buf).
Proof.
  change (runUnits None (stripMark (unescapeQuotes buf))
          = unescapeQuotes (runUnits None (stripMark buf))).
  rewrite stripMark_unescape. by apply (runUnits_unescape (length (stripMark buf))).
Qed.

(** Taking the low bytes commutes with the un-escaping when no wide code
    unit turns into a backslash or a quote. *)
Lemma toUint8Array_unescape (s : jsstring) :
  noAlias s → toUint8Array (unescapeQuotes s) = unescapeQuotes (toUint8Array s).
Proof.
  assert (Hgen : ∀ n s, length s ≤ n → noAlias s →
                   toUint8Array (unescapeQuotes s) = unescapeQuotes (toUint8Array s)).
  { clear s. induction n as [|n IH]; intros [|c [|d r]] Hn Hs; try done;
      cbn [length] in Hn; try lia.
    apply Forall_cons in Hs as [[Hc1 Hc2] Hs].
    pose proof Hs as Hs'. apply Forall_cons in Hs' as [[Hd1 Hd2] Hr].
    cbn [unescapeQuotes toUint8Array map].
    destruct (N.eqb_spec c 92%N) as [->|Hc]; destruct (N.eqb_spec d 34%N) as [->|Hd]; cbn [andb].
    - cbn [map]. f_equal. apply IH; [lia | done].
    - replace (N.land d 255 =? 34)%N with false by (symmetry; apply N.eqb_neq; tauto).
      rewrite andb_false_r. cbn [map]. f_equal. apply (IH (d :: r)); [simpl; lia | done].
    - replace (N.land c 255 =? 92)%N with false by (symmetry; apply N.eqb_neq; tauto).
      cbn [andb map]. f_equal. apply (IH (34%N :: r)); [simpl; lia | done].
    - replace (N.land c 255 =? 92)%N with false by (symmetry; apply N.eqb_neq; tauto).
      cbn [andb map]. f_equal. apply (IH (d :: r)); [simpl; lia | done]. }
  intros Hs. by apply (Hgen (length s)).
Qed.

Lemma sanitize_noAlias (raw : jsstring) : noAlias raw → noAlias (sanitizeJsonString raw).
Proof.
  unfold noAlias, sanitizeJsonString. induction 1 as [|c raw Hc _ IH]; [constructor|].
  cbn [flat_map]. apply Forall_app. split; [|done].
  destruct (c <? 32)%N; [|by apply Forall_cons].
  repeat match goal with |- context [if ?t then _ else _] => destruct t end;
    repeat (apply Forall_cons_2; [split; intros H; vm_compute in H; congruence|]);
    apply Forall_nil_2.
Qed.

Lemma allBytes_noAlias (s : jsstring) : allBytes s → noAlias s.
Proof.
  unfold allBytes, noAlias. intros H. eapply Forall_impl; [exact H|].
  intros u Hu. cbn beta. rewrite land_255, N.mod_small by done. done.
Qed.

(** On a text without such code units the fallback of the source reads
    the same text as the fallback the specification describes. *)
Lemma fallback_text_agrees (s : jsstring) :
  noAlias s →
  TextDecoder_decode (toUint8Array (unescapeQuotes s))
  = unescapeQuotes (TextDecoder_decode (toUint8Array s)).
Proof. intros Hs. by rewrite toUint8Array_unescape, decode_unescape. Qed.

End FallbackFacts.
(** ** The fuel of the JSON parser *)

Section ParserFacts.

Lemma skipSpace_length (s : jsstring) : length (skipSpace s) ≤ length s.
Proof.
  induction s as [|c s IH]; [done|]. cbn [skipSpace].
  destruct (isJsonSpace c); cbn [length]; lia.
Qed.

Lemma headIs_length (k : N) (t : jsstring) :
  headIs k t = true → length t = S (length (drop 1 t)).
Proof. destruct t; [discriminate | done]. Qed.

Lemma spanDigits_length (s : jsstring) :
  length (snd (spanDigits s)) + length (fst (spanDigits s)) = length s.
Proof.
  induction s as [|c s IH]; [done|]. cbn [spanDigits].
  destruct (isDigit c); [|done].
  destruct (spanDigits s) as [ds rest]. cbn [fst snd length] in *. lia.
Qed.

Lemma exponentPart_length (r : jsstring) (ex : Z) (rest : jsstring) :
  exponentPart r = Some (ex, rest) → length rest ≤ length r.
Proof.
  unfold exponentPart.
  set (r1 := if headIs 45 r || headIs 43 r then drop 1 r else r).
  assert (length r1 ≤ length r).
  { unfold r1. destruct (_ || _); [rewrite length_drop|]; lia. }
  pose proof (spanDigits_length r1) as Hs.
  destruct (spanDigits r1) as [[|d ds] rest']; [discriminate|].
  intros [= _ <-]. cbn [fst snd length] in Hs. lia.
Qed.

Lemma parseNumber_length (s : jsstring) (n : number) (rest : jsstring) :
  parseNumber s = Some (n, rest) → length rest < length s.
Proof.
  unfold parseNumber.
  set (s0 := if headIs 45 s then drop 1 s else s).
  assert (H0 : length s0 ≤ length s).
  { unfold s0. destruct (headIs 45 s); [rewrite length_drop|]; lia. }
  set (intPart := if headIs 48 s0 then Some ([0%N], drop 1 s0)
                  else match spanDigits s0 with
                       | ([], _) => None
                       | p => Some p
                       end).
  assert (Hint : ∀ ip s1, intPart = Some (ip, s1) → length s1 < length s0).
  { intros ip s1. unfold intPart.
    destruct (headIs 48 s0) eqn:E.
    - intros [= _ <-]. apply headIs_length in E. lia.
    - pose proof (spanDigits_length s0) as Hs.
      destruct (spanDigits s0) as [[|d ds] r]; [discriminate|].
      intros [= _ <-]. cbn [fst snd length] in Hs. lia. }
  destruct intPart as [[ip s1]|]; [|discriminate].
  specialize (Hint ip s1 eq_refl).
  set (fracPart := if headIs 46 s1
                   then match spanDigits (drop 1 s1) with
                        | ([], _) => None
                        | p => Some p
                        end
                   else Some ([], s1)).
  assert (Hfrac : ∀ fp s2, fracPart = Some (fp, s2) → length s2 ≤ length s1).
  { intros fp s2. unfold fracPart.
    destruct (headIs 46 s1) eqn:E.
    - apply headIs_length in E.
      pose proof (spanDigits_length (drop 1 s1)) as Hs.
      destruct (spanDigits (drop 1 s1)) as [[|d ds] r]; [discriminate|].
      intros [= _ <-]. cbn [fst snd length] in Hs. lia.
    - intros [= _ <-]. lia. }
  destruct fracPart as [[fp s2]|]; [|discriminate].
  specialize (Hfrac fp s2 eq_refl).
  destruct (headIs 101 s2 || headIs 69 s2) eqn:E.
  - destruct (exponentPart (drop 1 s2)) as [[ex r]|] eqn:Ex; [|discriminate].
    apply exponentPart_length in Ex. rewrite length_drop in Ex.
    intros [= _ <-]. lia.
  - intros [= _ <-]. lia.
Qed.

Lemma isPrefix_drop (p t : jsstring) :
  isPrefix p t = true → length (drop (length p) t) + length p = length t.
Proof.
  revert t. induction p as [|x p IH]; intros t; cbn [isPrefix].
  - intros _. cbn [length]. rewrite drop_0. lia.
  - destruct t as [|y t]; [discriminate|].
    intros [_ H]%andb_prop. apply IH in H. simpl. lia.
Qed.

Lemma parseLiteral_length (t : jsstring) (v : value) (rest : jsstring) :
  parseLiteral t = Some (v, rest) → length rest < length t.
Proof.
  unfold parseLiteral.
  destruct (isPrefix (js "null") t) eqn:E1.
  { intros [= _ <-]. apply isPrefix_drop in E1.
    change (length (js "null")) with 4 in E1. lia. }
  destruct (isPrefix (js "true") t) eqn:E2.
  { intros [= _ <-]. apply isPrefix_drop in E2.
    change (length (js "true")) with 4 in E2. lia. }
  destruct (isPrefix (js "false") t) eqn:E3.
  { intros [= _ <-]. apply isPrefix_drop in E3.
    change (length (js "false")) with 5 in E3. lia. }
  destruct (parseNumber t) as [[n r]|] eqn:En; [|discriminate].
  intros [= _ <-]. by apply parseNumber_length in En.
Qed.

Lemma parseChars_length (n : nat) (s str rest : jsstring) :
  length s ≤ n → parseChars s = Some (str, rest) → length rest < length s.
Proof.
  revert s str rest. induction n as [|n IH]; intros [|c r] str rest Hn;
    cbn [length] in Hn; try lia; try discriminate.
  cbn [parseChars].
  destruct (c =? 34)%N; [intros [= _ <-]; cbn [length]; lia|].
  destruct (c =? 92)%N.
  - destruct r as [|e r']; [discriminate|].
    destruct (e =? 117)%N.
    + destruct r' as [|h1 [|h2 [|h3 [|h4 r'']]]]; try discriminate.
      destruct (hex4 h1 h2 h3 h4); [|discriminate].
      destruct (parseChars r'') as [[str' rest']|] eqn:E; [|discriminate].
      intros [= _ <-]. apply IH in E; cbn [length] in *; lia.
    + destruct (simpleEscape e); [|discriminate].
      destruct (parseChars r') as [[str' rest']|] eqn:E; [|discriminate].
      intros [= _ <-]. apply IH in E; cbn [length] in *; lia.
  - destruct (c <? 32)%N; [discriminate|].
    destruct (parseChars r) as [[str' rest']|] eqn:E; [|discriminate].
    intros [= _ <-]. apply IH in E; cbn [length] in *; lia.
Qed.

Lemma valueFuel_step (f : nat) :
  elementsFuel f → membersFuel f → valueFuel (S f).
Proof.
  intros He Hm s v rest. cbn [parseValue].
  pose proof (skipSpace_length s) as Hs.
  set (t := skipSpace s) in *.
  destruct (headIs 34 t) eqn:E34.
  { pose proof (headIs_length _ _ E34) as Ht.
    destruct (parseChars (drop 1 t)) as [[str r]|] eqn:Ep; [|discriminate].
    intros [= <- <-]. apply (parseChars_length _ _ _ _ (le_n _)) in Ep as Hr.
    split; [lia|]. intros [|f'] Hf'; [lia|].
    cbn [parseValue]. fold t. by rewrite E34, Ep. }
  destruct (headIs 91 t) eqn:E91.
  { pose proof (headIs_length _ _ E91) as Ht.
    pose proof (skipSpace_length (drop 1 t)) as Hr.
    set (r := skipSpace (drop 1 t)) in *.
    destruct (headIs 93 r) eqn:E93.
    - pose proof (headIs_length _ _ E93). intros [= <- <-].
      split; [lia|]. intros [|f'] Hf'; [lia|].
      cbn [parseValue]. fold t. rewrite E34, E91. fold r. by rewrite E93.
    - destruct (parseElements f r) as [[vs r']|] eqn:Ee; [|discriminate].
      intros [= <- <-]. destruct (He _ _ _ Ee) as [Hlen Hfuel].
      split; [lia|]. intros [|f'] Hf'; [lia|].
      cbn [parseValue]. fold t. rewrite E34, E91. fold r. rewrite E93.
      by rewrite Hfuel by lia. }
  destruct (headIs 123 t) eqn:E123.
  { pose proof (headIs_length _ _ E123) as Ht.
    pose proof (skipSpace_length (drop 1 t)) as Hr.
    set (r := skipSpace (drop 1 t)) in *.
    destruct (headIs 125 r) eqn:E125.
    - pose proof (headIs_length _ _ E125). intros [= <- <-].
      split; [lia|]. intros [|f'] Hf'; [lia|].
      cbn [parseValue]. fold t. rewrite E34, E91, E123. fold r. by rewrite E125.
    - destruct (parseMembers f r) as [[ms r']|] eqn:Ee; [|discriminate].
      intros [= <- <-]. destruct (Hm _ _ _ Ee) as [Hlen Hfuel].
      split; [lia|]. intros [|f'] Hf'; [lia|].
      cbn [parseValue]. fold t. rewrite E34, E91, E123. fold r. rewrite E125.
      by rewrite Hfuel by lia. }
  intros Hl. apply parseLiteral_length in Hl as Hlen.
  split; [lia|]. intros [|f'] Hf'; [lia|].
  cbn [parseValue]. fold t. by rewrite E34, E91, E123.
Qed.

Lemma elementsFuel_step (f : nat) :
  valueFuel f → elementsFuel f → elementsFuel (S f).
Proof.
  intros Hv He s vs rest. cbn [parseElements].
  destruct (parseValue f s) as [[v r]|] eqn:Ev; [|discriminate].
  destruct (Hv _ _ _ Ev) as [Hr Hvf].
  pose proof (skipSpace_length r) as Ht.
  set (t := skipSpace r) in *.
  destruct (headIs 44 t) eqn:E44.
  { pose proof (headIs_length _ _ E44).
    destruct (parseElements f (drop 1 t)) as [[vs' r']|] eqn:Ee; [|discriminate].
    intros [= <- <-]. destruct (He _ _ _ Ee) as [Hlen Hef].
    split; [lia|]. intros [|f'] Hf'; [lia|].
    cbn [parseElements]. rewrite Hvf by lia. fold t. rewrite E44.
    by rewrite Hef by lia. }
  destruct (headIs 93 t) eqn:E93; [|discriminate].
  pose proof (headIs_length _ _ E93). intros [= <- <-].
  split; [lia|]. intros [|f'] Hf'; [lia|].
  cbn [parseElements]. rewrite Hvf by lia. fold t. by rewrite E44, E93.
Qed.

Lemma membersFuel_step (f : nat) :
  valueFuel f → membersFuel f → membersFuel (S f).
Proof.
  intros Hv Hm s ms rest. cbn [parseMembers].
  pose proof (skipSpace_length s) as Hs.
  set (t := skipSpace s) in *.
  destruct (headIs 34 t) eqn:E34; [|discriminate].
  pose proof (headIs_length _ _ E34) as Ht.
  destruct (parseChars (drop 1 t)) as [[key r1]|] eqn:Ep; [|discriminate].
  apply (parseChars_length _ _ _ _ (le_n _)) in Ep as Hr1.
  pose proof (skipSpace_length r1) as Ht1.
  set (t1 := skipSpace r1) in *.
  destruct (headIs 58 t1) eqn:E58; [|discriminate].
  pose proof (headIs_length _ _ E58) as Ht1'.
  destruct (parseValue f (drop 1 t1)) as [[v r3]|] eqn:Ev; [|discriminate].
  destruct (Hv _ _ _ Ev) as [Hr3 Hvf].
  pose proof (skipSpace_length r3) as Ht3.
  set (t3 := skipSpace r3) in *.
  destruct (headIs 44 t3) eqn:E44.
  { pose proof (headIs_length _ _ E44).
    destruct (parseMembers f (drop 1 t3)) as [[ms' r']|] eqn:Em; [|discriminate].
    intros [= <- <-]. destruct (Hm _ _ _ Em) as [Hlen Hmf].
    split; [lia|]. intros [|f'] Hf'; [lia|].
    cbn [parseMembers]. fold t. rewrite E34, Ep. fold t1. rewrite E58.
    rewrite Hvf by lia. fold t3. rewrite E44. by rewrite Hmf by lia. }
  destruct (headIs 125 t3) eqn:E125; [|discriminate].
  pose proof (headIs_length _ _ E125). intros [= <- <-].
  split; [lia|]. intros [|f'] Hf'; [lia|].
  cbn [parseMembers]. fold t. rewrite E34, Ep. fold t1. rewrite E58.
  rewrite Hvf by lia. fold t3. by rewrite E44, E125.
Qed.

Lemma parser_fuel (f : nat) : valueFuel f ∧ elementsFuel f ∧ membersFuel f.
Proof.
  induction f as [|f (Hv & He & Hm)].
  - unfold valueFuel, elementsFuel, membersFuel.
    split; [|split]; intros ? ? ? H; discriminate H.
  - split; [by apply valueFuel_step|].
    split; [by apply elementsFuel_step | by apply membersFuel_step].
Qed.

(** No parse is lost to the fuel [JSON_parse] gives: a value that some
    fuel reads is read with that fuel. *)
Lemma parseValue_fuel (f : nat) (s : jsstring) (v : value) (rest : jsstring) :
  parseValue f s = Some (v, rest) →
  parseValue (2 * length s + 2) s = Some (v, rest).
Proof.
  intros H. destruct (parser_fuel f) as [Hv _].
  destruct (Hv _ _ _ H) as [_ Hf]. apply Hf. lia.
Qed.

Lemma JSON_parse_fuel (f : nat) (text : jsstring) (v : value) (rest : jsstring) :
  parseValue f text = Some (v, rest) → skipSpace rest = [] →
  JSON_parse text = Some v.
Proof.
  intros H Hrest. unfold JSON_parse.
  by rewrite (parseValue_fuel _ _ _ _ H), Hrest.
Qed.

End ParserFacts.
(** ** Claims about the extraction *)

Lemma buildRecord_participants (comp : value) (c : Competition) :
  buildRecord comp = Some c →
  toNumber (nullish (getProp comp (js "participants")) (Num zero)) = Some (participants c).
Proof.
  unfold buildRecord. intros H.
  repeat (apply bind_Some in H as (? & ? & H)).
  injection H as <-. done.
Qed.

(** C3 as the specification states it fails: a participants field that is
    not a numeric string does not normalize to [0]. *)
Lemma participants_nonnumeric_counterexample :
  ¬ (participants <$> buildRecord (candidateWith [(js "participants", Str (js "abc"))])
     = Some zero).
Proof. vm_compute. discriminate. Qed.

(** C3, amended. In a record built from a candidate the participants
    field is [Number] of the value, with [0] for an absent (or null) one:
    absent gives [0], the string "42" gives [42], and a string is read as
    a number literal, so that "abc", which is none, gives [NaN]. *)
Theorem participants_coercion (comp : value) (c : Competition) :
  buildRecord comp = Some c →
  (getProp comp (js "participants") = Undefined ∨ getProp comp (js "participants") = Null →
   participants c = zero) ∧
  (getProp comp (js "participants") = Str (js "42") → participants c = numberOfNat 42) ∧
  (getProp comp (js "participants") = Str (js "abc") → participants c = NaN) ∧
  (∀ s, getProp comp (js "participants") = Str s → participants c = stringToNumber s).
Proof.
  intros H%buildRecord_participants.
  split; [|split; [|split]].
  - intros [E|E]; rewrite E in H; cbn [nullish toNumber] in H; congruence.
  - intros E. rewrite E in H. cbn [nullish toNumber] in H. injection H as <-.
    vm_compute. reflexivity.
  - intros E. rewrite E in H. cbn [nullish toNumber] in H. injection H as <-.
    vm_compute. reflexivity.
  - intros s E. rewrite E in H. cbn [nullish toNumber] in H. congruence.
Qed.

Lemma participants_coercion_witness :
  buildRecord (candidateWith [(js "participants", Str (js "42"))])
    = Some {| id := js "a"; title := js "A"; description := []; prize := [];
              timeLeft := []; source := []; participants := numberOfNat 42; tags := [] |}
  ∧ participants {| id := js "a"; title := js "A"; description := []; prize := [];
                    timeLeft := []; source := []; participants := numberOfNat 42;
                    tags := [] |} = numberOfNat 42.
Proof.
  assert (H : buildRecord (candidateWith [(js "participants", Str (js "42"))])
    = Some {| id := js "a"; title := js "A"; description := []; prize := [];
              timeLeft := []; source := []; participants := numberOfNat 42; tags := [] |})
    by (vm_compute; reflexivity).
  split; [exact H|].
  apply (participants_coercion _ _ H). vm_compute. reflexivity.
Defined.

(** C4. When no block is found at the object start that follows a marker,
    the turn pushes nothing and moves the cursor just past that start; the
    loop goes on from there, and a marker that occurs after that start is
    the next one found or comes after it. *)
Theorem unbalanced_block_is_skipped (chunk : jsstring)
    (searchIndex markerIndex objectStart fuel : nat) (competitions : list Competition) :
  indexOf chunk marker searchIndex = Some markerIndex →
  indexOf chunk (js "{") markerIndex = Some objectStart →
  extractJsonBlock chunk objectStart = None →
  scanTurn chunk searchIndex = Continue (objectStart + 1) [] ∧
  markerIndex < objectStart + 1 ∧
  scanLoop (S fuel) chunk searchIndex competitions
    = scanLoop fuel chunk (objectStart + 1) competitions ∧
  (∀ later, objectStart < later → isPrefix marker (drop later chunk) = true →
     ∃ next, indexOf chunk marker (objectStart + 1) = Some next ∧ next ≤ later).
Proof.
  intros Hm Ho Hr.
  assert (Ht : scanTurn chunk searchIndex = Continue (objectStart + 1) [])
    by (unfold scanTurn; rewrite Hm, Ho, Hr; done).
  split; [done|]. split; [|split].
  - apply indexOf_bounds in Ho; [lia | apply brace_nonempty].
  - simpl. rewrite Ht. by rewrite app_nil_r.
  - intros later Hlater Hocc. apply indexOf_complete; [lia | done].
Qed.

Lemma unbalanced_block_is_skipped_witness :
  extractJsonBlock chunkUnbalanced 16 = None ∧
  scanLoop (S (length chunkUnbalanced)) chunkUnbalanced 0 []
    = scanLoop (length chunkUnbalanced) chunkUnbalanced 17 [] ∧
  scanChunk chunkUnbalanced = Some [plainRecord "b" "B"].
Proof.
  assert (Hr : extractJsonBlock chunkUnbalanced 16 = None) by (vm_compute; reflexivity).
  split; [exact Hr|]. split.
  - apply (unbalanced_block_is_skipped chunkUnbalanced 0 0 16 (length chunkUnbalanced) []);
      [vm_compute; reflexivity | vm_compute; reflexivity | exact Hr].
  - vm_compute. reflexivity.
Defined.

Lemma truthy_present (v : value) : truthy v = true → ¬ absentOrEmpty v.
Proof. intros H [->|[->| ->]]; discriminate. Qed.

Section CandidateFacts.

Lemma tryCandidate_pushed_iff (raw : jsstring) (c : Competition) :
  tryCandidate raw = Pushed c ↔
  ∃ json, parseCompetitionJson raw = Some json ∧
    truthy (getProp json (js "competition")) = true ∧
    truthy (getProp (getProp json (js "competition")) (js "id")) = true ∧
    truthy (getProp (getProp json (js "competition")) (js "title")) = true ∧
    buildRecord (getProp json (js "competition")) = Some c.
Proof.
  unfold tryCandidate. split.
  - destruct (parseCompetitionJson raw) as [json|]; [|discriminate].
    destruct (truthy (getProp json (js "competition"))) eqn:Ec; [|discriminate].
    destruct (truthy (getProp (getProp json (js "competition")) (js "id"))) eqn:Ei;
      [|discriminate].
    destruct (truthy (getProp (getProp json (js "competition")) (js "title"))) eqn:Et;
      [|discriminate].
    cbn [negb orb].
    destruct (buildRecord (getProp json (js "competition"))) as [c'|] eqn:Eb; [|discriminate].
    intros [= <-]. exists json. done.
  - intros (json & -> & -> & -> & -> & ->). done.
Qed.

Lemma buildRecord_id_title (comp : value) (c : Competition) :
  buildRecord comp = Some c →
  toString (getProp comp (js "id")) = Some (id c) ∧
  toString (getProp comp (js "title")) = Some (title c).
Proof.
  unfold buildRecord. intros H.
  apply bind_Some in H as (d & Hd & H).
  apply bind_Some in H as (i & Hi & H).
  apply bind_Some in H as (t & Ht & H).
  repeat (apply bind_Some in H as (? & ? & H)).
  injection H as <-. done.
Qed.

(** A turn that finds a block goes on after it, with the record of the
    block when its candidate is valid and with nothing otherwise. *)
Lemma scanTurn_finds (chunk : jsstring) (searchIndex objectStart : nat) (raw : jsstring) :
  turnFinds chunk searchIndex objectStart raw →
  scanTurn chunk searchIndex
  = Continue (objectStart + length raw)
      match tryCandidate raw with Pushed c => [c] | _ => [] end.
Proof.
  intros (m & Hm & Ho & Hr). unfold scanTurn. rewrite Hm, Ho, Hr.
  pose proof (extractJsonBlock_some _ _ _ Hr) as [Hpos _].
  destruct raw as [|x raw]; [cbn in Hpos; lia|].
  by destruct (tryCandidate (x :: raw)).
Qed.

(** A chunk in which the scan finds two blocks and then no marker. *)
Lemma scanChunk_two (chunk : jsstring) (o1 o2 : nat) (raw1 raw2 : jsstring) :
  turnFinds chunk 0 o1 raw1 →
  turnFinds chunk (o1 + length raw1) o2 raw2 →
  indexOf chunk marker (o2 + length raw2) = None →
  scanChunk chunk
  = Some (match tryCandidate raw1 with Pushed c => [c] | _ => [] end
          ++ match tryCandidate raw2 with Pushed c => [c] | _ => [] end).
Proof.
  intros H1 H2 Hend. unfold scanChunk.
  assert (Hlen : 2 ≤ length chunk).
  { destruct H2 as (m & Hm & Ho & Hr).
    apply extractJsonBlock_some in Hr as [Hpos Hr].
    destruct H1 as (m1 & Hm1 & Ho1 & Hr1).
    apply extractJsonBlock_some in Hr1 as [Hpos1 Hr1].
    apply indexOf_bounds in Ho; [|apply brace_nonempty].
    apply indexOf_bounds in Hm; [|apply marker_nonempty]. lia. }
  destruct (length chunk) as [|[|n]]; [lia | lia |].
  cbn [scanLoop]. rewrite (scanTurn_finds _ _ _ _ H1). cbn [app].
  rewrite (scanTurn_finds _ _ _ _ H2).
  unfold scanTurn at 1. by rewrite Hend.
Qed.

End CandidateFacts.

(** C6 as the specification states it fails: a candidate whose id and
    title are empty arrays is not dropped; its record has an empty id and
    an empty title. *)
Lemma empty_id_counterexample :
  tryCandidate rawEmptyId = Pushed recordEmptyId ∧
  scanChunk chunkEmptyId = Some [recordEmptyId] ∧
  id recordEmptyId = [] ∧ title recordEmptyId = [].
Proof. repeat split; vm_compute; reflexivity. Qed.

(** C6, amended. A record is pushed exactly for a candidate that parses,
    whose competition, id and title pass the test of the source (each is
    truthy) and whose conversions do not throw; the id and the title of
    the record are the strings of the values, so they are the values
    themselves, and not empty, when these are strings. A candidate of
    which one fails the test, in particular one whose id or title is
    absent, null or the empty string, is invalid and pushes nothing. A turn
    pushes at most one record, and a chunk in which the scan finds one
    valid and one invalid candidate, in either order, gives exactly the
    record of the valid one. *)
Theorem record_needs_id_and_title :
  (∀ raw c, tryCandidate raw = Pushed c ↔
     ∃ json, parseCompetitionJson raw = Some json ∧
       truthy (getProp json (js "competition")) = true ∧
       truthy (getProp (getProp json (js "competition")) (js "id")) = true ∧
       truthy (getProp (getProp json (js "competition")) (js "title")) = true ∧
       buildRecord (getProp json (js "competition")) = Some c) ∧
  (∀ raw json c, parseCompetitionJson raw = Some json → tryCandidate raw = Pushed c →
     toString (getProp (getProp json (js "competition")) (js "id")) = Some (id c) ∧
     toString (getProp (getProp json (js "competition")) (js "title")) = Some (title c) ∧
     (∀ s, getProp (getProp json (js "competition")) (js "id") = Str s →
           id c = s ∧ s ≠ []) ∧
     (∀ s, getProp (getProp json (js "competition")) (js "title") = Str s →
           title c = s ∧ s ≠ [])) ∧
  (∀ raw json, parseCompetitionJson raw = Some json →
     truthy (getProp json (js "competition")) = false ∨
     truthy (getProp (getProp json (js "competition")) (js "id")) = false ∨
     truthy (getProp (getProp json (js "competition")) (js "title")) = false →
     tryCandidate raw = Invalid) ∧
  (∀ raw json, parseCompetitionJson raw = Some json →
     absentOrEmpty (getProp (getProp json (js "competition")) (js "id")) ∨
     absentOrEmpty (getProp (getProp json (js "competition")) (js "title")) →
     tryCandidate raw = Invalid) ∧
  (∀ chunk searchIndex searchIndex' c rest,
     scanTurn chunk searchIndex = Continue searchIndex' (c :: rest) →
     rest = [] ∧ ∃ objectStart raw,
       extractJsonBlock chunk objectStart = Some raw ∧ tryCandidate raw = Pushed c) ∧
  (∀ chunk o1 o2 raw1 raw2 c,
     turnFinds chunk 0 o1 raw1 →
     turnFinds chunk (o1 + length raw1) o2 raw2 →
     indexOf chunk marker (o2 + length raw2) = None →
     (tryCandidate raw1 = Pushed c ∧ tryCandidate raw2 = Invalid) ∨
     (tryCandidate raw1 = Invalid ∧ tryCandidate raw2 = Pushed c) →
     scanChunk chunk = Some [c]) ∧
  scanChunk chunkOneInvalid = Some [plainRecord "a" "A"] ∧
  scanChunk chunkInvalidFirst = Some [plainRecord "a" "A"].
Proof.
  split; [apply tryCandidate_pushed_iff|].
  split.
  { intros raw json c Hp Ht.
    apply tryCandidate_pushed_iff in Ht as (json' & Hp' & _ & Hi & Htl & Hb).
    rewrite Hp in Hp'. injection Hp' as <-.
    destruct (buildRecord_id_title _ _ Hb) as [Eid Etitle].
    split; [done|]. split; [done|]. split.
    - intros s E. rewrite E in Eid, Hi. cbn in Eid. injection Eid as <-.
      split; [done|]. by intros ->.
    - intros s E. rewrite E in Etitle, Htl. cbn in Etitle. injection Etitle as <-.
      split; [done|]. by intros ->. }
  assert (Hdrop : ∀ raw json, parseCompetitionJson raw = Some json →
     truthy (getProp json (js "competition")) = false ∨
     truthy (getProp (getProp json (js "competition")) (js "id")) = false ∨
     truthy (getProp (getProp json (js "competition")) (js "title")) = false →
     tryCandidate raw = Invalid).
  { intros raw json Hp Hfail. unfold tryCandidate. rewrite Hp.
    destruct Hfail as [->|[->| ->]]; [done | by rewrite orb_true_r | by rewrite orb_true_r]. }
  split; [exact Hdrop|].
  split.
  { intros raw json Hp Hmissing. apply (Hdrop raw json Hp). right.
    destruct Hmissing as [[E|[E|E]]|[E|[E|E]]]; rewrite E; auto. }
  split.
  { intros chunk s s' c rest. unfold scanTurn.
    destruct (indexOf chunk marker s) as [m|]; [|discriminate].
    destruct (indexOf chunk (js "{") m) as [o|]; [|discriminate].
    destruct (extractJsonBlock chunk o) as [[|x raw]|] eqn:Er; try discriminate.
    destruct (tryCandidate (x :: raw)) as [|c'|] eqn:Et; try discriminate.
    intros [= _ -> ->]. eauto. }
  split.
  { intros chunk o1 o2 raw1 raw2 c H1 H2 Hend Hcase.
    rewrite (scanChunk_two chunk o1 o2 raw1 raw2 H1 H2 Hend).
    by destruct Hcase as [[-> ->]|[-> ->]]. }
  split; vm_compute; reflexivity.
Qed.

(** C9. A turn of the marker scan that does not leave the loop moves the
    cursor strictly forward, to [objectStart + 1] when no block is found
    and to [objectStart + raw.length] with [raw] non-empty otherwise, and
    never beyond the end of the chunk; so the loop ends, whatever the
    chunk and wherever it starts. *)
Theorem marker_scan_terminates (chunk : jsstring) :
  (∀ searchIndex searchIndex' pushed,
     scanTurn chunk searchIndex = Continue searchIndex' pushed →
     searchIndex < searchIndex' ≤ length chunk ∧
     ∃ markerIndex objectStart,
       indexOf chunk marker searchIndex = Some markerIndex ∧
       indexOf chunk (js "{") markerIndex = Some objectStart ∧
       searchIndex ≤ markerIndex ≤ objectStart ∧
       match extractJsonBlock chunk objectStart with
       | None => searchIndex' = objectStart + 1
       | Some raw => raw ≠ [] ∧ searchIndex' = objectStart + length raw
       end) ∧
  (∀ searchIndex competitions,
     is_Some (scanLoop (S (length chunk)) chunk searchIndex competitions)) ∧
  is_Some (scanChunk chunk).
Proof.
  split; [|split].
  - intros s s' pushed H. split; [by eapply scanTurn_advances|].
    apply scanTurn_continue in H as (m & o & Hm & Ho & Hle & _ & H).
    exists m, o. do 3 (split; [done|]).
    destruct (extractJsonBlock chunk o) as [raw|]; [|tauto].
    destruct H as (Hpos & -> & _). split; [|done].
    intros ->. simpl in Hpos. lia.
  - intros s acc. simpl.
    destruct (scanTurn chunk s) as [|s' pushed] eqn:E; [done|].
    apply scanTurn_advances in E. apply scanLoop_total; lia.
  - apply scanLoop_total; lia.
Qed.

(** ** Claims about the deduplication gate *)

(** C7. With a store, the gate returns exactly the records whose key has
    no entry, in their order; of two records of which only the first has
    an entry, it returns the second alone. *)
Theorem gate_returns_unseen (env : Env) (kv : gmap jsstring jsstring)
    (competitions : list Competition) :
  COMPETITION_KV env = Some kv →
  filterNewCompetitions env competitions = filter (unseen kv) competitions ∧
  (∀ c, c ∈ filterNewCompetitions env competitions ↔
        c ∈ competitions ∧ KV_get kv (js "seen:" ++ id c) = None) ∧
  (∀ a b, is_Some (KV_get kv (js "seen:" ++ id a)) →
          KV_get kv (js "seen:" ++ id b) = None →
          filterNewCompetitions env [a; b] = [b]).
Proof.
  intros E. split; [by apply filterNewCompetitions_available|]. split.
  - intros c. rewrite (filterNewCompetitions_available env kv) by done.
    rewrite list_elem_of_filter. unfold unseen, seenKey. tauto.
  - intros a b [text Ha] Hb.
    rewrite (filterNewCompetitions_available env kv) by done.
    rewrite !filter_cons, filter_nil.
    rewrite decide_False by (unfold unseen, seenKey; congruence).
    rewrite decide_True by done. done.
Qed.

Lemma gate_returns_unseen_witness :
  COMPETITION_KV (envWith (Some storeWithA)) = Some storeWithA ∧
  filterNewCompetitions (envWith (Some storeWithA)) [plainRecord "A" "first"; plainRecord "B" "second"]
    = [plainRecord "B" "second"].
Proof.
  split; [reflexivity|].
  apply (gate_returns_unseen (envWith (Some storeWithA)) storeWithA [] eq_refl).
  - exists (js "{}"). vm_compute. reflexivity.
  - vm_compute. reflexivity.
Defined.

(** C8. Without a store the gate returns its input unchanged. *)
Theorem gate_fails_open (env : Env) (competitions : list Competition) :
  COMPETITION_KV env = None →
  filterNewCompetitions env competitions = competitions.
Proof. apply filterNewCompetitions_unavailable. Qed.

Lemma gate_fails_open_witness :
  COMPETITION_KV (envWith None) = None ∧
  filterNewCompetitions (envWith None) [plainRecord "A" "first"; plainRecord "B" "second"]
    = [plainRecord "A" "first"; plainRecord "B" "second"].
Proof. split; [reflexivity | by apply gate_fails_open]. Defined.

(** C10. The gate's output is a sublist of its input: the records it
    returns keep their relative order and none is returned twice. *)
Theorem gate_output_is_sublist (env : Env) (competitions : list Competition) :
  filterNewCompetitions env competitions `sublist_of` competitions ∧
  (NoDup competitions → NoDup (filterNewCompetitions env competitions)).
Proof.
  assert (H : filterNewCompetitions env competitions `sublist_of` competitions).
  { destruct (COMPETITION_KV env) as [kv|] eqn:E.
    - rewrite (filterNewCompetitions_available env kv) by done. apply sublist_filter.
    - by rewrite filterNewCompetitions_unavailable. }
  split; [done|]. intros Hnd. by eapply sublist_NoDup.
Qed.

(** ** Claims about the tolerant decoder *)

(** [rawWide] is a block that the balanced-brace scan returns. *)
Example rawWide_is_block : extractJsonBlock rawWide 0 = Some rawWide.
Proof. vm_compute. reflexivity. Qed.

(** C5 as the specification states it fails: on [rawWide] the fallback of
    the source throws, while un-escaping after the decoding, as the
    specification has it, would parse the object. *)
Lemma fallback_order_counterexample :
  parseCompetitionJson rawWide = None ∧
  parseCompetitionJson_spec rawWide = Some (Obj [(js "a", Num (numberOfNat 1))]).
Proof. split; vm_compute; reflexivity. Qed.

(** C5, amended. When the first parse of the sanitized and un-escaped text
    fails, the fallback takes that same un-escaped text as bytes (the low
    eight bits of each code unit), decodes them as UTF-8 and parses the
    result as it is, with no second un-escaping. This is the order the
    specification gives whenever no code unit above 255 has the low byte
    of a backslash or of a quote. *)
Theorem fallback_decodes_unescaped_text (raw : jsstring) :
  parseCompetitionJson raw
  = match JSON_parse (unescapeQuotes (sanitizeJsonString raw)) with
    | Some v => Some v
    | None =>
        JSON_parse
          (TextDecoder_decode (toUint8Array (unescapeQuotes (sanitizeJsonString raw))))
    end ∧
  (noAlias raw → parseCompetitionJson raw = parseCompetitionJson_spec raw).
Proof.
  split; [reflexivity|].
  intros Hraw. unfold parseCompetitionJson, parseCompetitionJson_spec.
  destruct (JSON_parse (unescapeQuotes (sanitizeJsonString raw))); [done|].
  by rewrite fallback_text_agrees by (by apply sanitize_noAlias).
Qed.

(** ** The texts the extraction reads and writes *)

Section EscapeFacts.

Lemma escapeLiteral_cons (c : N) (r : jsstring) :
  escapeLiteral (c :: r)
  = (if (c =? 92)%N then [92%N; 92%N] else if (c =? 34)%N then [92%N; 34%N] else [c])
    ++ escapeLiteral r.
Proof.
  unfold escapeLiteral. cbn [flat_map]. rewrite flat_map_app.
  f_equal. destruct (c =? 92)%N eqn:E; [reflexivity|].
  cbn [flat_map]. rewrite app_nil_r. reflexivity.
Qed.

Lemma parseChars_escapeLiteral (input rest : jsstring) :
  noControl input = true →
  parseChars (escapeLiteral input ++ 34%N :: rest) = Some (input, rest).
Proof.
  induction input as [|c r IH]; intros H.
  - reflexivity.
  - cbn [noControl forallb] in H. apply andb_prop in H as [Hc Hr].
    specialize (IH Hr). rewrite escapeLiteral_cons.
    destruct (c =? 92)%N eqn:E92.
    + apply N.eqb_eq in E92 as ->. cbn -[escapeLiteral]. rewrite IH. reflexivity.
    + destruct (c =? 34)%N eqn:E34.
      * apply N.eqb_eq in E34 as ->. cbn -[escapeLiteral]. rewrite IH. reflexivity.
      * cbn [app parseChars]. rewrite E34, E92.
        replace (c <? 32)%N with false by (symmetry; apply N.ltb_ge; by apply N.leb_le).
        by rewrite IH.
Qed.

Lemma parseChars_escapeLiteral_control (input rest : jsstring) :
  noControl input = false →
  parseChars (escapeLiteral input ++ rest) = None.
Proof.
  induction input as [|c r IH]; intros H.
  - discriminate.
  - cbn [noControl forallb] in H. rewrite escapeLiteral_cons.
    destruct (c =? 92)%N eqn:E92.
    + apply N.eqb_eq in E92 as ->. cbn -[escapeLiteral]. rewrite IH; [reflexivity | exact H].
    + destruct (c =? 34)%N eqn:E34.
      * apply N.eqb_eq in E34 as ->. cbn -[escapeLiteral]. rewrite IH; [reflexivity | exact H].
      * cbn [app parseChars]. rewrite E34, E92.
        destruct (32 <=? c)%N eqn:Ec.
        -- replace (c <? 32)%N with false by (symmetry; apply N.ltb_ge; by apply N.leb_le).
           rewrite IH; [reflexivity | exact H].
        -- replace (c <? 32)%N with true by (symmetry; apply N.ltb_lt; by apply N.leb_gt).
           reflexivity.
Qed.

End EscapeFacts.

Lemma decodeEscapedString_eq (input : jsstring) :
  decodeEscapedString input
  = if noControl input then Some (unescapeUnicode input) else None.
Proof.
  unfold decodeEscapedString.
  destruct (noControl input) eqn:E.
  - rewrite (JSON_parse_fuel 1 _ (Str input) []); [reflexivity| |reflexivity].
    cbn [parseValue app skipSpace headIs].
    change (isJsonSpace 34) with false. cbn [headIs]. change (34 =? 34)%N with true. cbv iota.
    cbn [drop]. rewrite drop_0.
    by rewrite parseChars_escapeLiteral.
  - unfold JSON_parse.
    replace (2 * length ([34%N] ++ escapeLiteral input ++ [34%N]) + 2)
      with (S (2 * length ([34%N] ++ escapeLiteral input ++ [34%N]) + 1)) by lia.
    cbn [parseValue app skipSpace headIs].
    change (isJsonSpace 34) with false. cbn [headIs]. change (34 =? 34)%N with true. cbv iota.
    cbn [drop]. rewrite drop_0.
    by rewrite parseChars_escapeLiteral_control.
Qed.

(** X1. The escaping and parsing of [decodeEscapedString] give the text
    back: a text without control characters is returned with its unicode
    escapes replaced and nothing else changed, and a text with a control
    character gives [null]. *)
Theorem decodeEscapedString_keeps_text (input : jsstring) :
  decodeEscapedString input
  = if noControl input then Some (unescapeUnicode input) else None.
Proof. apply decodeEscapedString_eq. Qed.


Section SpaceFacts.

Lemma spaced_collapse (b : bool) (s : jsstring) : spaced b (collapseSpaces b s) = true.
Proof.
  revert b. induction s as [|c r IH]; intros b; [done|].
  cbn [collapseSpaces]. destruct (isWhiteSpace c) eqn:E.
  - destruct b; cbn [app]; [apply IH|].
    cbn [spaced]. change (isWhiteSpace 32) with true. cbn. apply IH.
  - cbn [spaced]. rewrite E. apply IH.
Qed.

Lemma spaced_weaken (p : bool) (t : jsstring) : spaced p t = true → spaced false t = true.
Proof.
  destruct t as [|c r]; [done|]. cbn [spaced].
  destruct (isWhiteSpace c); [|done].
  destruct p; [|done]. rewrite andb_false_r. discriminate.
Qed.

Lemma collapse_fixed (b : bool) (t : jsstring) :
  spaced b t = true → collapseSpaces b t = t.
Proof.
  revert b. induction t as [|c r IH]; intros b; [done|].
  cbn [spaced collapseSpaces]. destruct (isWhiteSpace c).
  - intros H. apply andb_prop in H as [H Hr]. apply andb_prop in H as [Hc Hb].
    apply N.eqb_eq in Hc as ->. destruct b; [discriminate|].
    cbn [app]. by rewrite IH.
  - intros H. by rewrite IH.
Qed.

Lemma inkOf_collapse (b : bool) (s : jsstring) : inkOf (collapseSpaces b s) = inkOf s.
Proof.
  revert b. induction s as [|c r IH]; intros b; [done|].
  cbn [collapseSpaces]. unfold inkOf in *. rewrite filter_cons.
  destruct (isWhiteSpace c) eqn:E.
  - rewrite decide_False by congruence.
    rewrite filter_app, IH.
    destruct b; [done|]. rewrite filter_cons, decide_False by (by vm_compute). done.
  - rewrite decide_True by congruence. rewrite filter_cons, decide_True by congruence.
    by rewrite IH.
Qed.

(** What [trimStart] removes is white space, and what it leaves does not
    start with any. *)
Lemma trimStart_split (t : jsstring) :
  ∃ pre, t = pre ++ trimStart t ∧ Forall (fun c => isWhiteSpace c = true) pre ∧
         ∀ c r, trimStart t = c :: r → isWhiteSpace c = false.
Proof.
  induction t as [|c r (pre & E & Hpre & Hhead)].
  - exists []. split; [done|]. split; [constructor | discriminate].
  - cbn [trimStart]. destruct (isWhiteSpace c) eqn:Ec.
    + exists (c :: pre). split; [cbn; by rewrite <- E|].
      split; [by constructor | done].
    + exists []. split; [done|]. split; [constructor|].
      intros ? ? [= <- <-]. done.
Qed.

Lemma trimStart_fixed (t : jsstring) :
  (∀ c r, t = c :: r → isWhiteSpace c = false) → trimStart t = t.
Proof.
  destruct t as [|c r]; [done|]. intros H. cbn [trimStart].
  by rewrite (H c r eq_refl).
Qed.

Lemma inkOf_app (a b : jsstring) : inkOf (a ++ b) = inkOf a ++ inkOf b.
Proof. apply filter_app. Qed.

Lemma inkOf_white (pre : jsstring) :
  Forall (fun c => isWhiteSpace c = true) pre → inkOf pre = [].
Proof.
  induction 1 as [|c pre Hc _ IH]; [done|].
  unfold inkOf in *. rewrite filter_cons, decide_False by congruence. done.
Qed.

Lemma inkOf_trimStart (t : jsstring) : inkOf (trimStart t) = inkOf t.
Proof.
  destruct (trimStart_split t) as (pre & E & Hpre & _).
  transitivity (inkOf (pre ++ trimStart t)); [|by rewrite <- E].
  by rewrite inkOf_app, (inkOf_white pre Hpre).
Qed.

Lemma inkOf_reverse (t : jsstring) : inkOf (reverse t) = reverse (inkOf t).
Proof. apply filter_reverse. Qed.

Lemma inkOf_trim (t : jsstring) : inkOf (trim t) = inkOf t.
Proof.
  unfold trim.
  by rewrite inkOf_reverse, inkOf_trimStart, inkOf_reverse, reverse_involutive,
    inkOf_trimStart.
Qed.

Lemma spaced_sparse (p : bool) (t : jsstring) :
  spaced p t = true →
  sparse t ∧ (p = true → ∀ c r, t = c :: r → isWhiteSpace c = false).
Proof.
  revert p. induction t as [|c r IH]; intros p H.
  - split; [split|].
    + intros c Hc. by apply elem_of_nil in Hc.
    + intros [|? ?] ? ? ? ?; discriminate.
    + discriminate.
  - cbn [spaced] in H. destruct (isWhiteSpace c) eqn:Ec.
    + apply andb_prop in H as [H Hr]. apply andb_prop in H as [Hc Hp].
      apply N.eqb_eq in Hc. destruct p; [discriminate|].
      destruct (IH true Hr) as [[Hall Hadj] Hhead]. split; [split|discriminate].
      * intros x [->|Hx]%elem_of_cons; [done | by apply Hall].
      * intros [|y l1] a b l2 E Ha.
        -- injection E as -> E. eapply Hhead; done.
        -- injection E as -> E. by eapply Hadj.
    + destruct (IH false H) as [[Hall Hadj] _]. split; [split|].
      * intros x [->|Hx]%elem_of_cons; [congruence | by apply Hall].
      * intros [|y l1] a b l2 E Ha.
        -- injection E as -> E. congruence.
        -- injection E as -> E. by eapply Hadj.
      * intros _ ? ? [= <- <-]. done.
Qed.

Lemma sparse_spaced (t : jsstring) :
  sparse t → spaced false t = true ∧
  ((∀ c r, t = c :: r → isWhiteSpace c = false) → spaced true t = true).
Proof.
  induction t as [|c r IH]; intros [Hall Hadj]; [done|].
  assert (Hr : sparse r).
  { split.
    - intros x Hx. apply Hall. by right.
    - intros l1 a b l2 E. apply (Hadj (c :: l1) a b l2). by rewrite E. }
  destruct (IH Hr) as [Hf Ht]. cbn [spaced].
  destruct (isWhiteSpace c) eqn:Ec.
  - split.
    + rewrite (Hall c) by (done || by left). cbn.
      apply Ht. intros x q ->. by apply (Hadj [] c x q).
    + intros H. rewrite (H c r eq_refl) in Ec. discriminate.
  - done.
Qed.

Lemma sparse_suffix (pre t : jsstring) : sparse (pre ++ t) → sparse t.
Proof.
  intros [Hall Hadj]. split.
  - intros c Hc. apply Hall. apply elem_of_app. by right.
  - intros l1 a b l2 E. apply (Hadj (pre ++ l1) a b l2). by rewrite E, <- app_assoc.
Qed.

Lemma sparse_reverse (t : jsstring) : sparse t → sparse (reverse t).
Proof.
  intros [Hall Hadj]. split.
  - intros c Hc. apply Hall. by apply elem_of_reverse.
  - intros l1 a b l2 E Ha.
    destruct (isWhiteSpace b) eqn:Eb; [|done].
    assert (E' : t = reverse l2 ++ b :: a :: reverse l1).
    { rewrite <- (reverse_involutive t), E, reverse_app, !reverse_cons, <- !app_assoc. done. }
    rewrite (Hadj _ _ _ _ E' Eb) in Ha. discriminate.
Qed.

Lemma trim_normal (u : jsstring) : sparse u → normalText (trim u).
Proof.
  intros Hu. unfold trim.
  destruct (trimStart_split u) as (pre1 & E1 & _ & Hh1).
  set (v := trimStart u) in *.
  assert (Hv : sparse v) by (apply (sparse_suffix pre1); by rewrite <- E1).
  destruct (trimStart_split (reverse v)) as (pre2 & E2 & _ & Hh2).
  set (x := trimStart (reverse v)) in *.
  assert (Hx : sparse x).
  { apply (sparse_suffix pre2). rewrite <- E2. by apply sparse_reverse. }
  destruct (sparse_reverse x Hx) as [Hall Hadj].
  split; [done|]. split; [done|]. split.
  - (* the first character is the last of [x], which is the first of [v] *)
    intros c r E.
    assert (Ex : x = reverse r ++ [c]).
    { rewrite <- (reverse_involutive x), E, reverse_cons. done. }
    assert (Ev : v = c :: reverse (pre2 ++ reverse r)).
    { rewrite <- (reverse_involutive v), E2, Ex, app_assoc, reverse_app. done. }
    by eapply Hh1.
  - intros l c E.
    assert (Ex : x = c :: reverse l).
    { rewrite <- (reverse_involutive x), E, reverse_app. done. }
    by eapply Hh2.
Qed.

Lemma trim_fixed (t : jsstring) : normalText t → trim t = t.
Proof.
  intros (_ & _ & Hhead & Hlast). unfold trim.
  rewrite (trimStart_fixed t Hhead).
  rewrite trimStart_fixed, reverse_involutive; [done|].
  intros c r E. apply (Hlast (reverse r) c).
  by rewrite <- (reverse_involutive t), E, reverse_cons.
Qed.

End SpaceFacts.

(** X3. On a string [normalizeSpaces] returns a text whose white space
    is single spaces between other characters, with the characters that
    are not white space kept in their order; normalizing that text again
    changes nothing. *)
Theorem normalizeSpaces_normal (s : jsstring) :
  ∃ t, normalizeSpaces (Str s) = Some t ∧ normalText t ∧ inkOf t = inkOf s ∧
       normalizeSpaces (Str t) = Some t.
Proof.
  exists (trim (collapseSpaces false s)). split; [done|].
  pose proof (spaced_collapse false s) as Hs.
  apply spaced_sparse in Hs as [Hs _].
  pose proof (trim_normal _ Hs) as Hn.
  split; [done|]. split; [by rewrite inkOf_trim, inkOf_collapse|].
  cbn [normalizeSpaces]. f_equal.
  destruct Hn as (Ha & Hb & Hc & Hd).
  destruct (sparse_spaced (trim (collapseSpaces false s)) (conj Ha Hb)) as [Hf _].
  rewrite (collapse_fixed false _ Hf).
  by apply trim_fixed.
Qed.

Section SanitizeFacts.

Lemma sanitize_cons (c : N) (r : jsstring) :
  sanitizeJsonString (c :: r) = sanitizeJsonString [c] ++ sanitizeJsonString r.
Proof. unfold sanitizeJsonString. cbn [flat_map]. by rewrite app_nil_r. Qed.

Lemma sanitize_app (a b : jsstring) :
  sanitizeJsonString (a ++ b) = sanitizeJsonString a ++ sanitizeJsonString b.
Proof. apply flat_map_app. Qed.

Lemma noControl_app (a b : jsstring) : noControl (a ++ b) = noControl a && noControl b.
Proof. apply forallb_app. Qed.

Lemma sanitize_unit (c : N) :
  noControl (sanitizeJsonString [c]) = true ∧
  ((32 <=? c)%N = true → sanitizeJsonString [c] = [c]).
Proof.
  unfold sanitizeJsonString. cbn [flat_map]. rewrite app_nil_r.
  destruct (c <? 32)%N eqn:E.
  - split.
    + by repeat match goal with |- context [if ?t then _ else _] => destruct t end.
    + intros H. apply N.ltb_lt in E. apply N.leb_le in H. lia.
  - split; [|done]. cbn. rewrite andb_true_r. apply N.leb_le. by apply N.ltb_ge in E.
Qed.

Lemma sanitize_noControl (input : jsstring) : noControl (sanitizeJsonString input) = true.
Proof.
  induction input as [|c r IH]; [done|].
  rewrite sanitize_cons, noControl_app, IH. by destruct (sanitize_unit c) as [-> _].
Qed.

Lemma sanitize_fixed (input : jsstring) :
  noControl input = true → sanitizeJsonString input = input.
Proof.
  induction input as [|c r IH]; [done|]. cbn [noControl forallb].
  intros [Hc Hr]%andb_prop. rewrite sanitize_cons, (IH Hr).
  destruct (sanitize_unit c) as [_ E]. by rewrite (E Hc).
Qed.

End SanitizeFacts.

(** X5. [sanitizeJsonString] leaves no control character in the text, is
    the identity on a text that has none, changes nothing when it is
    applied again, and at most doubles the length. *)
Theorem sanitizeJsonString_leaves_no_control (input : jsstring) :
  noControl (sanitizeJsonString input) = true ∧
  (noControl input = true → sanitizeJsonString input = input) ∧
  sanitizeJsonString (sanitizeJsonString input) = sanitizeJsonString input ∧
  length (sanitizeJsonString input) ≤ 2 * length input.
Proof.
  split; [apply sanitize_noControl|]. split; [apply sanitize_fixed|].
  split; [apply sanitize_fixed, sanitize_noControl|].
  induction input as [|c r IH]; [done|].
  rewrite sanitize_cons, length_app. cbn [length].
  assert (length (sanitizeJsonString [c]) ≤ 2); [|lia].
  unfold sanitizeJsonString. cbn [flat_map]. rewrite app_nil_r.
  by repeat match goal with |- context [if ?t then _ else _] => destruct t end; cbn; lia.
Qed.

Section BraceFacts.

(** No value starts with a brace followed by a backslash. *)
Lemma JSON_parse_brace_backslash (t : jsstring) : JSON_parse (123%N :: 92%N :: t) = None.
Proof.
  unfold JSON_parse.
  generalize (2 * length (123%N :: 92%N :: t) + 2). intros [|[|f]]; [done|done|].
  cbn [parseValue parseMembers skipSpace headIs drop].
  change (isJsonSpace 123) with false. change (isJsonSpace 92) with false.
  cbn [headIs]. change (123 =? 34)%N with false. change (123 =? 91)%N with false.
  change (123 =? 123)%N with true. cbv iota.
  change (drop 1 (123%N :: 92%N :: t)) with (92%N :: t).
  cbn [skipSpace]. change (isJsonSpace 92) with false. cbv iota.
  cbn [headIs]. change (92 =? 125)%N with false. change (92 =? 34)%N with false.
  done.
Qed.

End BraceFacts.

(** X6. The sanitizing also rewrites a control character that stands
    between two tokens: a block whose opening brace is followed by a
    backspace, tab, line feed, form feed or carriage return parses in
    neither attempt, whatever follows, and its candidate is thrown away. *)
Theorem break_after_brace_never_parses (c : N) (rest : jsstring) :
  c ∈ [8; 9; 10; 12; 13]%N →
  parseCompetitionJson (123%N :: c :: rest) = None ∧
  tryCandidate (123%N :: c :: rest) = Thrown.
Proof.
  intros Hc.
  assert (E : ∃ x, x ≠ 34%N ∧ (x < 128)%N ∧
            sanitizeJsonString (123%N :: c :: rest) = 123%N :: 92%N :: x :: sanitizeJsonString rest).
  { rewrite (sanitize_cons 123), (sanitize_cons c).
    repeat (apply elem_of_cons in Hc as [->|Hc]);
      [exists 98%N | exists 116%N | exists 110%N | exists 102%N | exists 114%N
      | by apply elem_of_nil in Hc];
      (split; [discriminate | split; reflexivity]). }
  destruct E as (x & Hx & Hx' & E).
  assert (Hp : parseCompetitionJson (123%N :: c :: rest) = None).
  { unfold parseCompetitionJson. rewrite E.
    rewrite (unescape_other 123) by discriminate.
    rewrite unescape_backslash by (intros r [= ->]; done).
    rewrite JSON_parse_brace_backslash.
    cbn [toUint8Array map]. change (N.land 123 255) with 123%N. change (N.land 92 255) with 92%N.
    change (TextDecoder_decode ?b) with (runUnits None (stripMark b)).
    unfold stripMark. cbn [isPrefix byteOrderMark]. change (239 =? 123)%N with false. cbv iota.
    cbn [andb]. cbv iota.
    rewrite !runUnits_ascii by (done || reflexivity). cbn [flushed app].
    apply JSON_parse_brace_backslash. }
  split; [exact Hp|]. unfold tryCandidate. by rewrite Hp.
Qed.

Lemma break_after_brace_never_parses_witness :
  10%N ∈ [8; 9; 10; 12; 13]%N ∧
  parseCompetitionJson ([123; 10]%N ++ chunkOf "'competition':{'id':'a','title':'A'}}") = None.
Proof.
  assert (H : 10%N ∈ [8; 9; 10; 12; 13]%N) by (repeat constructor).
  split; [exact H|].
  exact (proj1 (break_after_brace_never_parses 10 _ H)).
Defined.

Section AsciiFacts.

Lemma runUnits_allAscii (s : jsstring) : allAscii s → runUnits None s = s.
Proof.
  induction 1 as [|c s Hc _ IH]; [done|].
  rewrite runUnits_ascii by done. cbn [flushed app]. by rewrite IH.
Qed.

Lemma stripMark_allAscii (s : jsstring) : allAscii s → stripMark s = s.
Proof.
  intros H. unfold stripMark, byteOrderMark.
  destruct s as [|c s]; [done|]. apply Forall_cons in H as [Hc _].
  cbn [isPrefix]. replace (239 =? c)%N with false; [done|].
  symmetry. apply N.eqb_neq. lia.
Qed.

Lemma toUint8Array_allAscii (s : jsstring) : allAscii s → toUint8Array s = s.
Proof.
  induction 1 as [|c s Hc _ IH]; [done|].
  cbn [toUint8Array map]. fold (toUint8Array s). rewrite IH. f_equal.
  rewrite land_255. apply N.mod_small. lia.
Qed.

Lemma decode_allAscii (s : jsstring) : allAscii s → TextDecoder_decode s = s.
Proof.
  intros H. change (runUnits None (stripMark s) = s).
  rewrite stripMark_allAscii by done. by apply runUnits_allAscii.
Qed.

Lemma sanitize_allAscii (raw : jsstring) : allAscii raw → allAscii (sanitizeJsonString raw).
Proof.
  unfold allAscii, sanitizeJsonString. induction 1 as [|c raw Hc _ IH]; [constructor|].
  cbn [flat_map]. apply Forall_app. split; [|done].
  destruct (c <? 32)%N; [|by apply Forall_cons_2].
  repeat match goal with |- context [if ?t then _ else _] => destruct t end;
    repeat (apply Forall_cons_2; [lia|]); apply Forall_nil_2.
Qed.

Lemma unescape_allAscii (s : jsstring) : allAscii s → allAscii (unescapeQuotes s).
Proof.
  assert (Hgen : ∀ n s, length s ≤ n → allAscii s → allAscii (unescapeQuotes s)).
  { clear s. induction n as [|n IH]; intros [|c [|d r]] Hn Hs; try done;
      cbn [length] in Hn; try lia.
    pose proof Hs as Hs0.
    apply Forall_cons in Hs as [Hc Hs]. pose proof Hs as Hs'.
    apply Forall_cons in Hs' as [Hd Hr].
    cbn [unescapeQuotes]. destruct ((c =? 92)%N && (d =? 34)%N).
    - apply Forall_cons_2; [lia|]. apply IH; [lia | done].
    - apply Forall_cons_2; [done|]. apply (IH (d :: r)); [simpl; lia | done]. }
  intros Hs. by apply (Hgen (length s)).
Qed.

End AsciiFacts.

(** X7. On a block of ASCII characters the fallback reads the very text
    the first attempt read, so the result is that of the first attempt. *)
Theorem ascii_fallback_is_idle (raw : jsstring) :
  allAscii raw →
  parseCompetitionJson raw = JSON_parse (unescapeQuotes (sanitizeJsonString raw)).
Proof.
  intros H. unfold parseCompetitionJson.
  assert (Ha : allAscii (unescapeQuotes (sanitizeJsonString raw)))
    by (by apply unescape_allAscii, sanitize_allAscii).
  rewrite (toUint8Array_allAscii _ Ha), (decode_allAscii _ Ha).
  by destruct (JSON_parse (unescapeQuotes (sanitizeJsonString raw))).
Qed.

Lemma ascii_fallback_is_idle_witness :
  allAscii (js "{}") ∧ parseCompetitionJson (js "{}") = JSON_parse (js "{}").
Proof.
  assert (H : allAscii (js "{}")) by (repeat constructor).
  split; [exact H|]. exact (ascii_fallback_is_idle (js "{}") H).
Defined.

(** ** Blocks, chunks and records *)

Section BlockFacts.

(** The scan that finds a block ends on a closing brace, and it only
    reads the text up to that brace. *)
Lemma scanBlock_prefix (source : jsstring) (startIndex : nat) (rest : jsstring) (i : nat)
    (prev : option N) (depth : Z) (inString : bool) (raw : jsstring) :
  scanBlock source startIndex rest i prev depth inString = Some raw →
  ∃ j, i ≤ j < i + length rest ∧ raw = slice source startIndex (j + 1) ∧
       rest !! (j - i) = Some 125%N ∧
       ∀ source' rest', take (j + 1 - i) rest' = take (j + 1 - i) rest →
         scanBlock source' startIndex rest' i prev depth inString
         = Some (slice source' startIndex (j + 1)).
Proof.
  revert i prev depth inString.
  induction rest as [|char rest IH]; intros i prev depth inString; [discriminate|].
  assert (Hrec : ∀ d b,
    scanBlock source startIndex rest (S i) (Some char) d b = Some raw →
    ∃ j, i ≤ j < i + S (length rest) ∧ raw = slice source startIndex (j + 1) ∧
         (char :: rest) !! (j - i) = Some 125%N ∧
         ∀ source' rest', take (j + 1 - i) rest' = take (j + 1 - i) (char :: rest) →
           ∃ rest0, rest' = char :: rest0 ∧
             scanBlock source' startIndex rest0 (S i) (Some char) d b
             = Some (slice source' startIndex (j + 1))).
  { intros d b H. apply IH in H as (j & Hj & -> & H125 & Hstable).
    exists j. split; [lia|]. split; [done|]. split.
    - replace (j - i) with (S (j - S i)) by lia. done.
    - intros source' rest' E.
      replace (j + 1 - i) with (S (j + 1 - S i)) in E by lia.
      destruct rest' as [|c' rest0]; [discriminate|].
      cbn [take] in E. injection E as -> E.
      exists rest0. split; [done|]. by apply Hstable. }
  remember (if (char =? 34)%N && negb (bool_decide (prev = Some 92%N))
            then negb inString else inString) as inS eqn:EinS.
  assert (Hgo : ∀ d b,
    scanBlock source startIndex rest (S i) (Some char) d b = Some raw →
    (∀ rest0 source',
       scanBlock source' startIndex (char :: rest0) i prev depth inString
       = scanBlock source' startIndex rest0 (S i) (Some char) d b) →
    ∃ j, i ≤ j < i + length (char :: rest) ∧ raw = slice source startIndex (j + 1) ∧
         (char :: rest) !! (j - i) = Some 125%N ∧
         ∀ source' rest', take (j + 1 - i) rest' = take (j + 1 - i) (char :: rest) →
           scanBlock source' startIndex rest' i prev depth inString
           = Some (slice source' startIndex (j + 1))).
  { intros d b H Hstep. apply Hrec in H as (j & Hj & Hraw & H125 & Hstable).
    exists j. do 3 (split; [done|]).
    intros source' rest' E. destruct (Hstable source' rest' E) as (rest0 & -> & Hs).
    by rewrite Hstep. }
  cbn [scanBlock]. rewrite <- EinS.
  destruct inS.
  { intros H. apply (Hgo _ _ H). intros. cbn [scanBlock]. by rewrite <- EinS. }
  destruct (char =? 123)%N eqn:E123.
  { intros H. apply (Hgo _ _ H). intros. cbn [scanBlock]. by rewrite <- EinS, E123. }
  destruct (char =? 125)%N eqn:E125.
  2: { intros H. apply (Hgo _ _ H). intros. cbn [scanBlock]. by rewrite <- EinS, E123, E125. }
  destruct (depth - 1 =? 0)%Z eqn:Ed.
  2: { intros H. apply (Hgo _ _ H). intros. cbn [scanBlock]. by rewrite <- EinS, E123, E125, Ed. }
  intros [= <-]. exists i. cbn [length]. split; [lia|]. split; [done|].
  rewrite Nat.sub_diag. apply N.eqb_eq in E125 as ->. split; [done|].
  intros source' rest' E. replace (i + 1 - i) with 1 in E by lia.
  destruct rest' as [|c' rest0]; [discriminate|]. cbn [take] in E. injection E as ->.
  cbn [scanBlock]. rewrite <- EinS. cbn. by rewrite Ed.
Qed.

Lemma take_take_le {A} (l : list A) (n m : nat) : n ≤ m → take n (take m l) = take n l.
Proof. intros H. rewrite take_take. f_equal. lia. Qed.

Lemma extractJsonBlock_prefix (source : jsstring) (startIndex : nat) (raw : jsstring) :
  extractJsonBlock source startIndex = Some raw →
  0 < length raw ∧ startIndex + length raw ≤ length source ∧
  raw = slice source startIndex (startIndex + length raw) ∧
  last raw = Some 125%N ∧
  ∀ source', take (startIndex + length raw) source' = take (startIndex + length raw) source →
    extractJsonBlock source' startIndex = Some raw.
Proof.
  unfold extractJsonBlock. intros H.
  apply scanBlock_prefix in H as (j & Hj & -> & H125 & Hstable).
  rewrite length_drop in Hj. rewrite length_slice by lia.
  replace (startIndex + (j + 1 - startIndex)) with (j + 1) by lia.
  split; [lia|]. split; [lia|]. split; [done|]. split.
  - unfold slice. rewrite lookup_drop in H125.
    replace (startIndex + (j - startIndex)) with j in H125 by lia.
    rewrite last_lookup, length_take, length_drop.
    replace (Init.Nat.pred (Nat.min (j + 1 - startIndex) (length source - startIndex)))
      with (j - startIndex) by lia.
    rewrite lookup_take_lt by lia. rewrite lookup_drop.
    by replace (startIndex + (j - startIndex)) with j by lia.
  - intros source' E.
    assert (Hprev : match startIndex with 0 => None | S k => source' !! k end
                    = match startIndex with 0 => None | S k => source !! k end).
    { destruct startIndex as [|k]; [done|].
      rewrite <- (lookup_take_lt source' (j + 1) k), <- (lookup_take_lt source (j + 1) k) by lia.
      by rewrite E. }
    rewrite Hprev.
    rewrite (Hstable source' (drop startIndex source')).
    + f_equal. unfold slice. rewrite !take_drop_commute.
      replace (startIndex + (j + 1 - startIndex)) with (j + 1) by lia. by rewrite E.
    + rewrite !take_drop_commute.
      replace (startIndex + (j + 1 - startIndex)) with (j + 1) by lia. by rewrite E.
Qed.

End BlockFacts.

(** X8. A block that [extractJsonBlock] returns is the part of the source
    from the start index on, it ends with a closing brace, it is returned
    for every source that agrees with this one up to the end of the block,
    and no shorter prefix of the source gives a block. *)
Theorem block_depends_on_its_text (source : jsstring) (startIndex : nat) (raw : jsstring) :
  extractJsonBlock source startIndex = Some raw →
  raw = slice source startIndex (startIndex + length raw) ∧
  last raw = Some 125%N ∧
  (∀ source',
     take (startIndex + length raw) source' = take (startIndex + length raw) source →
     extractJsonBlock source' startIndex = Some raw) ∧
  (∀ n, n < startIndex + length raw → extractJsonBlock (take n source) startIndex = None).
Proof.
  intros H. destruct (extractJsonBlock_prefix _ _ _ H) as (Hpos & Hlen & Hraw & Hlast & Hstable).
  do 3 (split; [done|]).
  intros n Hn.
  destruct (extractJsonBlock (take n source) startIndex) as [raw'|] eqn:E; [|done].
  destruct (extractJsonBlock_prefix _ _ _ E) as (Hpos' & Hlen' & _ & _ & Hstable').
  rewrite length_take in Hlen'.
  assert (E' : extractJsonBlock source startIndex = Some raw').
  { apply Hstable'. rewrite take_take_le by lia. done. }
  rewrite H in E'. injection E' as <-. lia.
Qed.

Lemma block_depends_on_its_text_witness :
  extractJsonBlock (js "x{a{b}c}d}") 1 = Some (js "{a{b}c}") ∧
  extractJsonBlock (js "x{a{b}c}") 1 = Some (js "{a{b}c}") ∧
  extractJsonBlock (js "x{a{b}c") 1 = None.
Proof.
  assert (H : extractJsonBlock (js "x{a{b}c}d}") 1 = Some (js "{a{b}c}"))
    by (vm_compute; reflexivity).
  split; [exact H|].
  destruct (block_depends_on_its_text _ _ _ H) as (_ & _ & Hs & Hn).
  split.
  - apply Hs. vm_compute. reflexivity.
  - apply (Hn 7). vm_compute. lia.
Defined.

Section ChunkFacts.

Lemma indexOf_from_sound (needle s : jsstring) (k j : nat) :
  indexOf_from needle s k = Some j → isPrefix needle (drop (j - k) s) = true.
Proof.
  revert k. induction s as [|c s IH]; intros k; cbn [indexOf_from].
  - destruct (isPrefix needle []) eqn:E; [|discriminate]. intros [= <-].
    by rewrite Nat.sub_diag.
  - destruct (isPrefix needle (c :: s)) eqn:E.
    + intros [= <-]. by rewrite Nat.sub_diag.
    + intros H. pose proof (indexOf_from_bounds _ _ _ _ H) as [Hk _].
      apply IH in H. replace (j - k) with (S (j - S k)) by lia. done.
Qed.

(** What [indexOf] finds is an occurrence. *)
Lemma indexOf_sound (hay needle : jsstring) (from j : nat) :
  needle ≠ [] → indexOf hay needle from = Some j → isPrefix needle (drop j hay) = true.
Proof.
  intros Hne H. pose proof (indexOf_bounds _ _ _ _ Hne H) as [Hfrom Hlen].
  unfold indexOf in H.
  assert (0 < length needle) by (destruct needle; simpl; [congruence | lia]).
  apply indexOf_from_sound in H. rewrite drop_drop in H.
  by replace (from + (j - Nat.min from (length hay))) with j in H by lia.
Qed.

(** The chunk [matchLoop] returns is the decoded group of a match. *)
Lemma matchLoop_group (fuel : nat) (html : jsstring) (lastIndex : nat) (chunk : jsstring) :
  matchLoop fuel html lastIndex = Some (Some chunk) →
  ∃ p groupEnd,
    lastIndex ≤ p ∧
    isPrefix chunkOpen (drop p html) = true ∧
    indexOf html chunkClose (p + length chunkOpen) = Some groupEnd ∧
    decodeEscapedString (slice html (p + length chunkOpen) groupEnd) = Some chunk ∧
    chunk ≠ [] ∧ includes chunk (js "card-view-") = true.
Proof.
  revert lastIndex. induction fuel as [|f IH]; intros lastIndex; [discriminate|].
  cbn [matchLoop].
  destruct (indexOf html chunkOpen lastIndex) as [p|] eqn:Ep; [|discriminate].
  destruct (indexOf html chunkClose (p + length chunkOpen)) as [groupEnd|] eqn:Ee;
    [|discriminate].
  pose proof (indexOf_bounds _ _ _ _ chunkOpen_nonempty Ep) as [Hp _].
  pose proof (indexOf_bounds _ _ _ _ chunkClose_nonempty Ee) as [He _].
  assert (Hnext : matchLoop f html (groupEnd + length chunkClose) = Some (Some chunk) →
    ∃ p groupEnd,
      lastIndex ≤ p ∧ isPrefix chunkOpen (drop p html) = true ∧
      indexOf html chunkClose (p + length chunkOpen) = Some groupEnd ∧
      decodeEscapedString (slice html (p + length chunkOpen) groupEnd) = Some chunk ∧
      chunk ≠ [] ∧ includes chunk (js "card-view-") = true).
  { intros H. apply IH in H as (p' & e' & Hle & H).
    exists p', e'. split; [lia | done]. }
  destruct (decodeEscapedString (slice html (p + length chunkOpen) groupEnd))
    as [[|c decoded]|] eqn:Ed; try done.
  destruct (includes (c :: decoded) (js "card-view-")) eqn:Ei; [|done].
  intros [= <-]. exists p, groupEnd.
  split; [done|]. split; [by eapply indexOf_sound; [apply chunkOpen_nonempty|]|].
  done.
Qed.

End ChunkFacts.

(** X2. [decodeCompetitionChunk] returns for every document; without an
    opening of a push call it returns [null], and a chunk it returns is
    the text between such an opening and the next closing, free of
    control characters, with its unicode escapes replaced, and it
    contains the word card-view-. *)
Theorem chunk_is_marked_group (html : jsstring) :
  ∃ result, decodeCompetitionChunk html = Some result ∧
    (indexOf html chunkOpen 0 = None → result = None) ∧
    ∀ chunk, result = Some chunk →
      ∃ p groupEnd,
        isPrefix chunkOpen (drop p html) = true ∧
        indexOf html chunkClose (p + length chunkOpen) = Some groupEnd ∧
        noControl (slice html (p + length chunkOpen) groupEnd) = true ∧
        chunk = unescapeUnicode (slice html (p + length chunkOpen) groupEnd) ∧
        includes chunk (js "card-view-") = true.
Proof.
  destruct (matchLoop_total (S (length html)) html 0 ltac:(lia) ltac:(lia)) as [result E].
  exists result. split; [exact E|]. split.
  - intros Hnone. unfold decodeCompetitionChunk in E. cbn [matchLoop] in E.
    rewrite Hnone in E. by injection E as <-.
  - intros chunk ->. apply matchLoop_group in E as (p & e & _ & Hp & He & Hd & _ & Hi).
    exists p, e. do 2 (split; [done|]).
    rewrite decodeEscapedString_eq in Hd.
    destruct (noControl (slice html (p + length chunkOpen) e)); [|discriminate].
    injection Hd as <-. done.
Qed.


Section RecordFacts.

Lemma normalText_normalize (v : value) (t : jsstring) :
  normalizeSpaces v = Some t → normalText t.
Proof.
  destruct v; try discriminate. intros [= <-].
  pose proof (spaced_collapse false s) as Hs.
  apply spaced_sparse in Hs as [Hs _]. by apply trim_normal.
Qed.

Lemma buildRecord_description (comp : value) (c : Competition) :
  buildRecord comp = Some c → normalText (description c).
Proof.
  unfold buildRecord. intros H.
  apply bind_Some in H as (d & Hd & H).
  repeat (apply bind_Some in H as (? & ? & H)).
  injection H as <-. cbn [description]. by eapply normalText_normalize.
Qed.

Lemma tryCandidate_pushed (raw : jsstring) (c : Competition) :
  tryCandidate raw = Pushed c →
  ∃ json, parseCompetitionJson raw = Some json ∧
          buildRecord (getProp json (js "competition")) = Some c.
Proof.
  unfold tryCandidate.
  destruct (parseCompetitionJson raw) as [json|]; [|discriminate].
  destruct (_ || _); [discriminate|].
  destruct (buildRecord (getProp json (js "competition"))) as [c'|] eqn:E; [|discriminate].
  intros [= <-]. eauto.
Qed.

Lemma scanTurn_pushed (P : Competition → Prop) (chunk : jsstring) (searchIndex searchIndex' : nat)
    (pushed : list Competition) :
  (∀ raw c, tryCandidate raw = Pushed c → P c) →
  scanTurn chunk searchIndex = Continue searchIndex' pushed → Forall P pushed.
Proof.
  intros HP. unfold scanTurn.
  destruct (indexOf chunk marker searchIndex) as [m|]; [|discriminate].
  destruct (indexOf chunk (js "{") m) as [o|]; [|discriminate].
  destruct (extractJsonBlock chunk o) as [[|x raw]|]; try (intros [= _ <-]; constructor).
  destruct (tryCandidate (x :: raw)) as [|c|] eqn:Et; intros [= _ <-]; try constructor.
  - by eapply HP.
  - constructor.
Qed.

(** What holds of every record a candidate gives holds of every record
    the loop returns. *)
Lemma scanLoop_Forall (P : Competition → Prop) (fuel : nat) (chunk : jsstring)
    (searchIndex : nat) (competitions result : list Competition) :
  (∀ raw c, tryCandidate raw = Pushed c → P c) →
  Forall P competitions →
  scanLoop fuel chunk searchIndex competitions = Some result → Forall P result.
Proof.
  intros HP. revert searchIndex competitions.
  induction fuel as [|f IH]; intros searchIndex competitions Hacc; [discriminate|].
  cbn [scanLoop]. destruct (scanTurn chunk searchIndex) as [|s' pushed] eqn:Et.
  - by intros [= <-].
  - apply IH. apply Forall_app. split; [done|]. by eapply scanTurn_pushed.
Qed.

Lemma extractCompetitions_Forall (P : Competition → Prop) (html : jsstring) :
  (∀ raw c, tryCandidate raw = Pushed c → P c) →
  ∃ records, extractCompetitions html = Some records ∧ Forall P records.
Proof.
  intros HP. destruct (extractCompetitions_total html) as [records E].
  exists records. split; [done|].
  unfold extractCompetitions in E.
  destruct (decodeCompetitionChunk html) as [[chunk|]|]; [|by injection E as <-|done].
  by eapply scanLoop_Forall.
Qed.

End RecordFacts.

(** X4. [extractCompetitions] returns for every document, and the
    description of every record it returns is normalized: its white space
    is single spaces between other characters. *)
Theorem extracted_descriptions_are_normal (html : jsstring) :
  ∃ records, extractCompetitions html = Some records ∧
             Forall (fun c => normalText (description c)) records.
Proof.
  apply extractCompetitions_Forall. intros raw c H.
  apply tryCandidate_pushed in H as (json & _ & H). by eapply buildRecord_description.
Qed.

(** ** The texts of the notification *)

Section MarkdownFacts.

Lemma escapeMarkdown_cons (c : N) (r : jsstring) :
  escapeMarkdown (c :: r)
  = (if isReserved c then [92%N; c] else [c]) ++ escapeMarkdown r.
Proof. done. Qed.

Lemma escapeMarkdown_app (a b : jsstring) :
  escapeMarkdown (a ++ b) = escapeMarkdown a ++ escapeMarkdown b.
Proof. apply flat_map_app. Qed.

Lemma isReserved_backslash : isReserved 92 = true.
Proof. vm_compute. reflexivity. Qed.

Lemma length_escapeMarkdown (s : jsstring) :
  length s ≤ length (escapeMarkdown s) ≤ 2 * length s.
Proof.
  induction s as [|c r IH]; [cbn; lia|].
  rewrite escapeMarkdown_cons, length_app. cbn [length].
  destruct (isReserved c); cbn [length]; lia.
Qed.



End MarkdownFacts.

(** X9. In the text [escapeMarkdown] returns every reserved character
    other than the backslash stands right after a backslash. *)
Theorem escapeMarkdown_guards_reserved (input : jsstring) (i : nat) (c : N) :
  escapeMarkdown input !! i = Some c → isReserved c = true → c ≠ 92%N →
  ∃ j, i = S j ∧ escapeMarkdown input !! j = Some 92%N.
Proof.
  revert i. induction input as [|x r IH]; intros i; [done|].
  rewrite escapeMarkdown_cons. destruct (isReserved x) eqn:Ex; cbn [app].
  - destruct i as [|[|i]]; cbn [lookup list_lookup].
    + intros [= <-] _ H. done.
    + intros [= <-] _ _. by exists 0.
    + intros H Hc Hn. destruct (IH i H Hc Hn) as (j & -> & Hj).
      by exists (S (S j)).
  - destruct i as [|i]; cbn [lookup list_lookup].
    + intros [= <-] Hc. congruence.
    + intros H Hc Hn. destruct (IH i H Hc Hn) as (j & -> & Hj).
      by exists (S j).
Qed.

Lemma escapeMarkdown_guards_reserved_witness :
  escapeMarkdown (js "a.b") !! 2 = Some 46%N ∧ escapeMarkdown (js "a.b") !! 1 = Some 92%N.
Proof.
  assert (H : escapeMarkdown (js "a.b") !! 2 = Some 46%N) by (vm_compute; reflexivity).
  split; [exact H|].
  destruct (escapeMarkdown_guards_reserved (js "a.b") 2 46 H) as (j & E & Hj);
    [vm_compute; reflexivity | discriminate |].
  injection E as <-. exact Hj.
Defined.

(** X10. [escapeMarkdown] loses nothing: two texts with the same escaped
    text are the same text. *)
Theorem escapeMarkdown_is_injective (a b : jsstring) :
  escapeMarkdown a = escapeMarkdown b → a = b.
Proof.
  revert b. induction a as [|c r IH]; intros [|d q].
  - done.
  - rewrite escapeMarkdown_cons. destruct (isReserved d); discriminate.
  - rewrite escapeMarkdown_cons. destruct (isReserved c); discriminate.
  - rewrite !escapeMarkdown_cons.
    destruct (isReserved c) eqn:Ec, (isReserved d) eqn:Ed; cbn [app].
    + intros [= -> H]. f_equal. by apply IH.
    + intros [= <- _]. rewrite isReserved_backslash in Ed. discriminate.
    + intros [= -> _]. rewrite isReserved_backslash in Ec. discriminate.
    + intros [= -> H]. f_equal. by apply IH.
Qed.

Lemma escapeMarkdown_is_injective_witness :
  escapeMarkdown (js "1+1") = [49; 92; 43; 49]%N ∧ js "1+1" = [49; 43; 49]%N.
Proof.
  assert (H : escapeMarkdown (js "1+1") = escapeMarkdown [49; 43; 49]%N)
    by (vm_compute; reflexivity).
  split; [vm_compute; reflexivity|].
  exact (escapeMarkdown_is_injective _ _ H).
Defined.

(** X11. [trimDescription] returns at most 160 characters, the first 157
    of them those of the description; a longer description is cut to its
    first 157 characters and three dots, and trimming again changes
    nothing. *)
Theorem trimDescription_bound (description : jsstring) :
  length (trimDescription description) ≤ 160 ∧
  take 157 (trimDescription description) = take 157 description ∧
  (160 < length description →
   trimDescription description = take 157 description ++ js "...") ∧
  trimDescription (trimDescription description) = trimDescription description.
Proof.
  unfold trimDescription, slice. rewrite drop_0.
  destruct (length description <=? 160) eqn:E.
  - apply Nat.leb_le in E. split; [done|]. split; [done|]. split; [lia|].
    by rewrite (proj2 (Nat.leb_le _ _) E).
  - apply Nat.leb_gt in E.
    assert (Hlen : length (take (157 - 0) description ++ js "...") = 160).
    { rewrite length_app, length_take. change (length (js "...")) with 3. lia. }
    split; [lia|]. split.
    { rewrite take_app_le by (rewrite length_take; lia).
      change (157 - 0) with 157. rewrite take_take. f_equal. }
    split; [done|].
    rewrite Hlen. done.
Qed.

Section BlockLength.

Lemma length_orElse_escaped (a : jsstring) :
  length (escapeMarkdown (orElse a (js "未知"))) ≤ 2 * Nat.max 1 (length a).
Proof.
  destruct a as [|c a]; [by vm_compute|]. cbn [orElse].
  pose proof (length_escapeMarkdown (c :: a)). lia.
Qed.

Lemma length_tags (tags : list jsstring) :
  length (join (js " ") (map (fun tag => js "`" ++ escapeMarkdown tag ++ js "`") tags))
  ≤ sum_list_with (fun tag => 3 + 2 * length tag) tags.
Proof.
  rewrite length_join. change (length (js " ")) with 1. rewrite length_map.
  induction tags as [|t tags IH]; [done|].
  cbn [map sum_list_with length]. rewrite !length_app.
  change (length (js "`")) with 1.
  pose proof (length_escapeMarkdown t). lia.
Qed.

Lemma length_shown_description (d : jsstring) :
  length (match d with
          | [] => js "\-"
          | n :: l => escapeMarkdown (trimDescription (n :: l))
          end)
  ≤ Nat.max 2 (2 * Nat.min (length d) 160).
Proof.
  destruct d as [|c d]; [by vm_compute|].
  pose proof (length_escapeMarkdown (trimDescription (c :: d))) as [_ H].
  assert (length (trimDescription (c :: d)) ≤ Nat.min (length (c :: d)) 160); [|lia].
  unfold trimDescription, slice. rewrite drop_0.
  destruct (length (c :: d) <=? 160) eqn:E.
  - apply Nat.leb_le in E. lia.
  - apply Nat.leb_gt in E. rewrite length_app, length_take.
    change (length (js "...")) with 3. lia.
Qed.

End BlockLength.

(** X12. The length of a block is at least 41 and is bounded by the
    lengths of the fields: every field can at most double by the
    escaping, an empty field is shown with two characters, a tag takes
    three more, and the description counts for at most 160 characters. *)
Theorem formatCompetition_length (comp : Competition) (baseUrl : jsstring) :
  41 ≤ length (formatCompetition comp baseUrl) ∧
  length (formatCompetition comp baseUrl)
  ≤ 41 + 2 * (length baseUrl + length (id comp)) + 2 * length (title comp)
    + 2 * Nat.max 1 (length (source comp)) + 2 * Nat.max 1 (length (prize comp))
    + 2 * Nat.max 1 (length (timeLeft comp))
    + Nat.max 2 (sum_list_with (fun tag => 3 + 2 * length tag) (tags comp))
    + Nat.max 2 (2 * Nat.min (length (description comp)) 160).
Proof.
  unfold formatCompetition. rewrite length_join.
  cbn [sum_list_with length]. rewrite !length_app.
  change (length (js "• [")) with 3. change (length (js "](")) with 2.
  change (length (js ")")) with 1. change (length (js "  来源: ")) with 6.
  change (length (js "  奖金: ")) with 6. change (length (js "  截止: ")) with 6.
  change (length (js "  标签: ")) with 6. change (length (js "  简介: ")) with 6.
  change (length [10%N]) with 1.
  pose proof (length_escapeMarkdown (title comp)) as [_ Ht].
  pose proof (length_escapeMarkdown (baseUrl ++ id comp)) as [_ Hl].
  rewrite length_app in Hl.
  pose proof (length_orElse_escaped (source comp)) as Hs.
  pose proof (length_orElse_escaped (prize comp)) as Hp.
  pose proof (length_orElse_escaped (timeLeft comp)) as Hd.
  pose proof (length_shown_description (description comp)) as Hdesc.
  assert (Htags :
    length (if 0 <? length (tags comp)
            then join (js " ")
                   (map (fun tag => js "`" ++ escapeMarkdown tag ++ js "`") (tags comp))
            else js "\-")
    ≤ Nat.max 2 (sum_list_with (fun tag => 3 + 2 * length tag) (tags comp))).
  { destruct (0 <? length (tags comp)).
    - pose proof (length_tags (tags comp)). lia.
    - change (length (js "\-")) with 2. lia. }
  split; lia.
Qed.

Section CountFacts.

Lemma blocksOf_length (bs : list Batch) :
  (∀ b, b ∈ bs → b_blocks b ≠ []) → length bs ≤ length (blocksOf bs).
Proof.
  induction bs as [|b bs IH]; intros H; [done|].
  unfold blocksOf in *. cbn [map concat length]. rewrite length_app.
  assert (0 < length (b_blocks b)).
  { destruct (b_blocks b) eqn:E; [|simpl; lia]. exfalso. apply (H b); [by left | done]. }
  assert (length bs ≤ length (concat (map b_blocks bs))); [|lia].
  apply IH. intros b' Hb'. apply H. by right.
Qed.

Lemma buildHeader_prefix (total : Z) (start end_ : option Z) (r : jsstring) :
  isPrefix (js "发现 ") (buildHeader total start end_ ++ r) = true.
Proof.
  unfold buildHeader. by destruct start, end_; rewrite <- !app_assoc.
Qed.

End CountFacts.

(** X13. There are at most as many messages as records and at least one
    when there is a record; every message starts with the opening words
    of the header; and one record gives one message, the header without
    a range followed by its block. *)
Theorem message_count (competitions : list Competition) (baseUrl : jsstring) :
  length (buildTelegramMessages competitions baseUrl) ≤ length competitions ∧
  (competitions ≠ [] → buildTelegramMessages competitions baseUrl ≠ []) ∧
  Forall (fun m => isPrefix (js "发现 ") m = true)
    (buildTelegramMessages competitions baseUrl) ∧
  (∀ comp, buildTelegramMessages [comp] baseUrl
           = [buildHeader 1 None None ++ formatCompetition comp baseUrl]).
Proof.
  destruct (buildTelegramMessages_batches competitions baseUrl) as (bs & Hm & Hb & Hat).
  assert (Hne : ∀ b, b ∈ bs → b_blocks b ≠ []).
  { intros b [k Hk]%list_elem_of_lookup. by destruct (Hat k b Hk). }
  split; [|split; [|split]].
  - rewrite Hm, length_map.
    rewrite <- (length_map (fun c => formatCompetition c baseUrl) competitions), <- Hb.
    by apply blocksOf_length.
  - intros Hc E. rewrite Hm in E. apply fmap_nil_inv in E. subst bs.
    destruct competitions; [done | discriminate].
  - rewrite Hm. apply Forall_forall. intros m Hin.
    apply list_elem_of_fmap in Hin as (b & -> & _). apply buildHeader_prefix.
  - intros comp. unfold buildTelegramMessages. cbn [batchLoop length].
    unfold batchStep. cbn [currentBatch length messages map foldl].
    rewrite andb_false_r. cbn [currentBatch length messages app]. done.
Qed.

(** ** The workflow *)

Section WorldFacts.

Lemma contents_lookup (w : World) (key : jsstring) :
  contents w !! key
  = match store w !! key with
    | Some e => if live (seconds w) e then Some (entry_text e) else None
    | None => None
    end.
Proof.
  unfold contents. rewrite lookup_fmap, map_lookup_filter.
  destruct (store w !! key) as [e|]; [|done]. cbn.
  destruct (live (seconds w) e) eqn:E.
  - by rewrite option_guard_True.
  - rewrite option_guard_False; [done|]. cbn. congruence.
Qed.

Lemma seenKey_inj (a b : Competition) : seenKey a = seenKey b → id a = id b.
Proof. unfold seenKey. apply app_inv_head. Qed.

Lemma putSeen_frame (w : World) (comp : Competition) :
  network (putSeen w comp) = network w ∧ clock (putSeen w comp) = clock w ∧
  seconds (putSeen w comp) = seconds w ∧ readings (putSeen w comp) = S (readings w) ∧
  store (putSeen w comp)
  = <[seenKey comp := {| entry_text := storedValue comp (clock w (readings w));
                         entry_expiration := (seconds w + ninetyDays)%Z |}]> (store w) ∧
  trace (putSeen w comp)
  = trace w ++ [Put (seenKey comp) (storedValue comp (clock w (readings w))) ninetyDays].
Proof. done. Qed.

(** What a run of puts leaves in the world. *)
Lemma foldl_putSeen (competitions : list Competition) (w : World) :
  let w' := foldl putSeen w competitions in
  network w' = network w ∧ clock w' = clock w ∧ seconds w' = seconds w ∧
  readings w' = readings w + length competitions ∧
  (∃ puts, trace w' = trace w ++ puts ∧ putsOf puts = map seenKey competitions ∧
           callsOf puts = []) ∧
  (∀ key, key ∉ map seenKey competitions → store w' !! key = store w !! key) ∧
  (∀ key, key ∈ map seenKey competitions →
     ∃ comp n, comp ∈ competitions ∧ seenKey comp = key ∧
       store w' !! key
       = Some {| entry_text := storedValue comp (clock w n);
                 entry_expiration := (seconds w + ninetyDays)%Z |}).
Proof.
  revert w. induction competitions as [|comp rest IH]; intros w; cbn zeta.
  - cbn [foldl length map]. rewrite Nat.add_0_r.
    do 4 (split; [done|]). split; [exists []; by rewrite app_nil_r|].
    split; [done|]. intros key Hk. by apply elem_of_nil in Hk.
  - cbn [foldl]. specialize (IH (putSeen w comp)). cbn zeta in IH.
    destruct IH as (Hn & Hc & Hs & Hr & (puts & Ht & Hp & Hcalls) & Hout & Hin).
    destruct (putSeen_frame w comp) as (Pn & Pc & Ps & Pr & Pst & Pt).
    rewrite Hn, Hc, Hs, Hr, Ht, Pn, Pc, Ps, Pr, Pt. cbn [length map].
    split; [done|]. split; [done|]. split; [done|]. split; [lia|].
    split.
    { eexists (_ :: puts). rewrite <- app_assoc. split; [reflexivity|].
      unfold putsOf, callsOf in *. cbn. by rewrite Hp, Hcalls. }
    split.
    + intros key Hk. apply not_elem_of_cons in Hk as [Hne Hk].
      rewrite (Hout key Hk), Pst. by rewrite lookup_insert_ne.
    + intros key Hk.
      destruct (decide (key ∈ map seenKey rest)) as [Hrest|Hrest].
      * destruct (Hin key Hrest) as (c & n & Hc' & Hkey & E).
        exists c, n. split; [by right|]. split; [done|].
        by rewrite E, Pc, Ps.
      * apply elem_of_cons in Hk as [->|Hk]; [|done].
        exists comp, (readings w). split; [by left|]. split; [done|].
        rewrite (Hout _ Hrest), Pst. by rewrite lookup_insert_eq.
Qed.

Lemma contents_later_same (w w' : World) (d : Z) :
  store w' = store w → seconds w' = seconds w →
  contents (later d w') = contents (later d w).
Proof. intros Hs Ht. unfold contents, later. cbn. by rewrite Hs, Ht. Qed.

Lemma later_0 (w : World) : later 0 w = w.
Proof. destruct w. unfold later. cbn. f_equal. lia. Qed.

Lemma map_seenKey_id (key : Competition) (competitions : list Competition) :
  seenKey key ∈ map seenKey competitions ↔ id key ∈ map id competitions.
Proof.
  rewrite !list_elem_of_fmap. split; intros (c & E & Hc); exists c; split; try done.
  - by apply seenKey_inj.
  - unfold seenKey. by rewrite E.
Qed.

(** The gate after some records were stored, [d] seconds later. *)
Lemma unseen_after_puts (stored : list Competition) (w w' : World) (d : Z) (c : Competition) :
  store w' = store (foldl putSeen w stored) → seconds w' = seconds w →
  unseen (contents (later d w')) c ↔
  if bool_decide (id c ∈ map id stored) then (ninetyDays ≤ d)%Z
  else unseen (contents (later d w)) c.
Proof.
  intros Hst Hsec. unfold unseen, KV_get. rewrite !contents_lookup.
  cbn [later store seconds]. rewrite Hst, Hsec.
  destruct (foldl_putSeen stored w) as (_ & _ & _ & _ & _ & Hout & Hin).
  destruct (bool_decide (id c ∈ map id stored)) eqn:E.
  - apply bool_decide_eq_true in E. apply map_seenKey_id in E.
    destruct (Hin _ E) as (c' & n & _ & _ & ->). unfold live. cbn.
    destruct (seconds w + d <? seconds w + ninetyDays)%Z eqn:El.
    + apply Z.ltb_lt in El. split; [discriminate | lia].
    + apply Z.ltb_ge in El. split; [lia | done].
  - apply bool_decide_eq_false in E. rewrite <- map_seenKey_id in E.
    by rewrite (Hout _ E).
Qed.

End WorldFacts.

(** X14. After [storeSeen] the gate, [d] seconds later, lets a record
    through exactly when it is in the list it is given and, if its id was
    stored, the ninety days have passed, and otherwise the store had
    nothing live under its key anyway. *)
Theorem stored_records_are_seen (env : Env) (stored other : list Competition)
    (w : World) (d : Z) (c : Competition) :
  is_Some (COMPETITION_KV env) →
  c ∈ filterNewCompetitions (envAt env (later d (storeSeen env stored w))) other ↔
  c ∈ other ∧
  if bool_decide (id c ∈ map id stored) then (ninetyDays ≤ d)%Z
  else unseen (contents (later d w)) c.
Proof.
  intros [kv Hkv].
  rewrite (filterNewCompetitions_available _ (contents (later d (storeSeen env stored w))))
    by (cbn; by rewrite Hkv).
  rewrite list_elem_of_filter. unfold storeSeen. rewrite Hkv.
  rewrite (unseen_after_puts stored w (foldl putSeen w stored) d c); [tauto | done |].
  by destruct (foldl_putSeen stored w) as (_ & _ & -> & _).
Qed.

Lemma stored_records_are_seen_witness :
  is_Some (COMPETITION_KV sampleEnv) ∧
  plainRecord "a" "A"
    ∉ filterNewCompetitions
        (envAt sampleEnv (later 100 (storeSeen sampleEnv [plainRecord "a" "A"] (sampleWorld 200))))
        [plainRecord "a" "A"; plainRecord "b" "B"].
Proof.
  assert (H : is_Some (COMPETITION_KV sampleEnv)) by (exists ∅; reflexivity).
  split; [exact H|].
  intros Hin.
  apply (stored_records_are_seen sampleEnv [plainRecord "a" "A"] _ (sampleWorld 200) 100 _ H)
    in Hin as [_ Hin].
  vm_compute in Hin. by apply Hin.
Defined.

Section QuoteFacts.

Lemma hexValue_hexDigit (d : N) : (d < 16)%N → hexValue (hexDigit d) = Some d.
Proof.
  intros H. unfold hexDigit, hexValue, in_range.
  destruct (d <? 10)%N eqn:E.
  - apply N.ltb_lt in E.
    replace (48 <=? 48 + d)%N with true by (symmetry; apply N.leb_le; lia).
    replace (48 + d <=? 57)%N with true by (symmetry; apply N.leb_le; lia).
    cbn [andb]. f_equal. lia.
  - apply N.ltb_ge in E.
    replace (87 + d <=? 57)%N with false by (symmetry; apply N.leb_gt; lia).
    rewrite andb_false_r.
    replace (97 <=? 87 + d)%N with true by (symmetry; apply N.leb_le; lia).
    replace (87 + d <=? 102)%N with true by (symmetry; apply N.leb_le; lia).
    cbn [andb]. f_equal. lia.
Qed.

Lemma hex4_unicodeEscape (c : N) :
  (c < 65536)%N →
  hex4 (hexDigit ((c / 4096) mod 16)) (hexDigit ((c / 256) mod 16))
       (hexDigit ((c / 16) mod 16)) (hexDigit (c mod 16)) = Some c.
Proof.
  intros H. unfold hex4.
  rewrite !hexValue_hexDigit by (apply N.mod_lt; discriminate).
  f_equal. unfold digitsValue. cbn [foldl].
  change 4096%N with (16 * (16 * 16))%N. change 256%N with (16 * 16)%N.
  rewrite <- !N.Div0.div_div.
  set (x1 := (c / 16)%N). set (x2 := (x1 / 16)%N). set (x3 := (x2 / 16)%N).
  pose proof (N.div_mod c 16 ltac:(discriminate)) as E0. fold x1 in E0.
  pose proof (N.div_mod x1 16 ltac:(discriminate)) as E1. fold x2 in E1.
  pose proof (N.div_mod x2 16 ltac:(discriminate)) as E2. fold x3 in E2.
  pose proof (N.mod_lt c 16 ltac:(discriminate)).
  pose proof (N.mod_lt x1 16 ltac:(discriminate)).
  pose proof (N.mod_lt x2 16 ltac:(discriminate)).
  assert (Hx3 : (x3 < 16)%N).
  { revert E0 E1 E2 H0 H1 H2.
    generalize (c mod 16)%N (x1 mod 16)%N (x2 mod 16)%N. intros. lia. }
  rewrite (N.mod_small x3) by done.
  revert E0 E1 E2 H0 H1 H2.
  generalize (c mod 16)%N (x1 mod 16)%N (x2 mod 16)%N. intros. lia.
Qed.

Lemma parseChars_unicodeEscape (c : N) (t : jsstring) :
  (c < 65536)%N →
  parseChars (unicodeEscape c ++ t)
  = match parseChars t with
    | Some (str, rest) => Some (c :: str, rest)
    | None => None
    end.
Proof.
  intros H. unfold unicodeEscape. cbn [app parseChars].
  change (92 =? 34)%N with false. change (92 =? 92)%N with true.
  change (117 =? 117)%N with true. cbv iota.
  by rewrite hex4_unicodeEscape.
Qed.

Lemma parseChars_plain (c : N) (t : jsstring) :
  c ≠ 34%N → c ≠ 92%N → (32 ≤ c)%N →
  parseChars (c :: t)
  = match parseChars t with
    | Some (str, rest) => Some (c :: str, rest)
    | None => None
    end.
Proof.
  intros H34 H92 H32. cbn [parseChars].
  replace (c =? 34)%N with false by (symmetry; by apply N.eqb_neq).
  replace (c =? 92)%N with false by (symmetry; by apply N.eqb_neq).
  by replace (c <? 32)%N with false by (symmetry; by apply N.ltb_ge).
Qed.

(** The characters between the quotes read back as the string. *)
Lemma parseChars_quoteUnits (s rest : jsstring) :
  wellFormed s → parseChars (quoteUnits s ++ 34%N :: rest) = Some (s, rest).
Proof.
  assert (Hgen : ∀ n s, length s ≤ n → wellFormed s →
            parseChars (quoteUnits s ++ 34%N :: rest) = Some (s, rest)).
  { clear s. induction n as [|n IH]; intros [|c r] Hn Hs; try done;
      cbn [length] in Hn; try lia.
    apply Forall_cons in Hs as [Hc Hr].
    assert (IHr : parseChars (quoteUnits r ++ 34%N :: rest) = Some (r, rest))
      by (apply IH; [lia | done]).
    cbn [quoteUnits].
    destruct (N.eqb_spec c 8) as [->|H8]; [cbn -[quoteUnits]; by rewrite IHr|].
    destruct (N.eqb_spec c 9) as [->|H9]; [cbn -[quoteUnits]; by rewrite IHr|].
    destruct (N.eqb_spec c 10) as [->|H10]; [cbn -[quoteUnits]; by rewrite IHr|].
    destruct (N.eqb_spec c 12) as [->|H12]; [cbn -[quoteUnits]; by rewrite IHr|].
    destruct (N.eqb_spec c 13) as [->|H13]; [cbn -[quoteUnits]; by rewrite IHr|].
    destruct (N.eqb_spec c 34) as [->|H34]; [cbn -[quoteUnits]; by rewrite IHr|].
    destruct (N.eqb_spec c 92) as [->|H92]; [cbn -[quoteUnits]; by rewrite IHr|].
    destruct (N.ltb_spec c 32) as [H32|H32].
    { rewrite <- app_assoc, parseChars_unicodeEscape by done. by rewrite IHr. }
    destruct (isLeadSurrogate c) eqn:El.
    { destruct r as [|d r'].
      - rewrite parseChars_unicodeEscape by done. done.
      - destruct (isTrailSurrogate d) eqn:Et.
        + apply Forall_cons in Hr as [Hd Hr'].
          unfold isTrailSurrogate, in_range in Et.
          apply andb_prop in Et as [Et1 Et2]. apply N.leb_le in Et1.
          cbn [app]. rewrite parseChars_plain by done.
          rewrite parseChars_plain by lia.
          rewrite IH; [done | cbn [length] in Hn; lia | done].
        + rewrite <- app_assoc, parseChars_unicodeEscape by done. by rewrite IHr. }
    destruct (isTrailSurrogate c).
    { rewrite <- app_assoc, parseChars_unicodeEscape by done. by rewrite IHr. }
    cbn [app]. rewrite parseChars_plain by done. by rewrite IHr. }
  intros Hs. by apply (Hgen (length s)).
Qed.

Lemma skipSpace_quote (t : jsstring) : skipSpace (34%N :: t) = 34%N :: t.
Proof. done. Qed.

(** The text of a string reads back as the string. *)
Lemma parseValue_quoteJSON (f : nat) (s rest : jsstring) :
  wellFormed s → parseValue (S f) (quoteJSON s ++ rest) = Some (Str s, rest).
Proof.
  intros Hs. unfold quoteJSON. cbn [parseValue app]. rewrite skipSpace_quote.
  cbn [headIs]. change (34 =? 34)%N with true. cbv iota. cbn [drop]. rewrite drop_0.
  rewrite <- app_assoc. change ([34%N] ++ rest) with (34%N :: rest).
  by rewrite parseChars_quoteUnits.
Qed.

Lemma drop_1_cons {A} (c : A) (t : list A) : drop 1 (c :: t) = t.
Proof. cbn. apply drop_0. Qed.

(** A member whose value is a string, and what follows it. *)
Lemma parseMembers_string (f : nat) (key v t : jsstring) :
  wellFormed key → wellFormed v →
  parseMembers (S (S f)) (quoteJSON key ++ 58%N :: quoteJSON v ++ t)
  = if headIs 44 (skipSpace t) then
      match parseMembers (S f) (drop 1 (skipSpace t)) with
      | Some (ms, rest) => Some ((key, Str v) :: ms, rest)
      | None => None
      end
    else if headIs 125 (skipSpace t) then Some ([(key, Str v)], drop 1 (skipSpace t))
    else None.
Proof.
  intros Hk Hv.
  assert (E : quoteJSON key ++ 58%N :: quoteJSON v ++ t
              = 34%N :: quoteUnits key ++ 34%N :: 58%N :: quoteJSON v ++ t).
  { unfold quoteJSON at 1. cbn [app]. by rewrite <- app_assoc. }
  rewrite E. cbn [parseMembers]. rewrite skipSpace_quote.
  cbn [headIs]. change (34 =? 34)%N with true. cbv iota. rewrite drop_1_cons.
  rewrite parseChars_quoteUnits by done.
  cbn [skipSpace]. change (isJsonSpace 58) with false. cbv iota.
  cbn [headIs]. change (58 =? 58)%N with true. cbv iota. rewrite drop_1_cons.
  by rewrite parseValue_quoteJSON.
Qed.

(** An object whose first member name follows the brace directly. *)
Lemma parseValue_object (f : nat) (members rest : jsstring)
    (ms : list (jsstring * value)) :
  headIs 34 members = true →
  parseMembers f members = Some (ms, rest) →
  parseValue (S f) (123%N :: members) = Some (Obj ms, rest).
Proof.
  intros Hh Hm. destruct members as [|c t]; [discriminate|].
  cbn [headIs] in Hh. apply N.eqb_eq in Hh as ->.
  cbn [parseValue skipSpace].
  change (isJsonSpace 123) with false. cbv iota. cbn [headIs].
  change (123 =? 34)%N with false. change (123 =? 91)%N with false.
  change (123 =? 123)%N with true. cbv iota. rewrite drop_1_cons.
  rewrite skipSpace_quote. cbn [headIs]. change (34 =? 125)%N with false. cbv iota.
  by rewrite Hm.
Qed.

Lemma storedValue_text (comp : Competition) (storedAt : jsstring) :
  storedValue comp storedAt
  = 123%N :: quoteJSON (js "id") ++ 58%N :: quoteJSON (id comp)
      ++ 44%N :: quoteJSON (js "storedAt") ++ 58%N :: quoteJSON storedAt ++ [125%N].
Proof.
  unfold storedValue, serializeObject. cbn [map fst snd app].
  change (join ?s [?a; ?b]) with (a ++ s ++ b).
  rewrite <- ?app_assoc. cbn [app]. rewrite <- ?app_assoc. done.
Qed.

Lemma storedValue_parse (comp : Competition) (storedAt : jsstring) :
  wellFormed (id comp) → wellFormed storedAt →
  JSON_parse (storedValue comp storedAt)
  = Some (Obj [(js "id", Str (id comp)); (js "storedAt", Str storedAt)]).
Proof.
  intros Hid Hat.
  assert (Hnames : wellFormed (js "id") ∧ wellFormed (js "storedAt")).
  { split; apply Forall_forall; intros u Hu; apply list_elem_of_In in Hu;
      vm_compute in Hu; intuition (subst; reflexivity). }
  destruct Hnames as [Hn1 Hn2].
  apply (JSON_parse_fuel 4 _ _ []); [|done].
  rewrite storedValue_text.
  apply parseValue_object; [done|].
  rewrite parseMembers_string by done.
  cbn [skipSpace]. change (isJsonSpace 44) with false. cbv iota.
  cbn [headIs]. change (44 =? 44)%N with true. cbv iota. rewrite drop_1_cons.
  rewrite parseMembers_string by done.
  cbn [skipSpace app]. change (isJsonSpace 125) with false. cbv iota.
  cbn [headIs]. change (125 =? 44)%N with false. change (125 =? 125)%N with true.
  cbv iota. by rewrite drop_1_cons.
Qed.

End QuoteFacts.

(** X15. After [storeSeen] the entry of every stored record expires
    ninety days later and its text parses back to an object with the id
    of the record and the date it was stored at. *)
Theorem stored_entry_reads_back (env : Env) (competitions : list Competition) (w : World)
    (comp : Competition) :
  is_Some (COMPETITION_KV env) →
  Forall (fun c => wellFormed (id c)) competitions →
  (∀ n, wellFormed (clock w n)) →
  comp ∈ competitions →
  ∃ entry storedAt,
    store (storeSeen env competitions w) !! (js "seen:" ++ id comp) = Some entry ∧
    entry_expiration entry = (seconds w + 60 * 60 * 24 * 90)%Z ∧
    JSON_parse (entry_text entry)
    = Some (Obj [(js "id", Str (id comp)); (js "storedAt", Str storedAt)]).
Proof.
  intros [kv Hkv] Hids Hclock Hin. unfold storeSeen. rewrite Hkv.
  destruct (foldl_putSeen competitions w) as (_ & _ & _ & _ & _ & _ & Hput).
  destruct (Hput (seenKey comp)) as (c & n & Hc & Hkey & E).
  { apply list_elem_of_fmap. by exists comp. }
  exists {| entry_text := storedValue c (clock w n);
            entry_expiration := (seconds w + ninetyDays)%Z |}, (clock w n).
  split; [exact E|]. split; [done|]. cbn [entry_text].
  rewrite storedValue_parse; [|by eapply (proj1 (Forall_forall _ _) Hids) | done].
  by rewrite (seenKey_inj _ _ Hkey).
Qed.

Lemma wellFormed_check (s : jsstring) :
  forallb (fun u => (u <? 65536)%N) s = true → wellFormed s.
Proof.
  intros H. apply Forall_forall. intros u Hu.
  rewrite forallb_forall in H. apply N.ltb_lt, H. by apply list_elem_of_In.
Qed.

Lemma stored_entry_reads_back_witness :
  ∃ entry storedAt,
    store (storeSeen sampleEnv [plainRecord "a" "A"] (sampleWorld 200)) !! js "seen:a"
    = Some entry ∧
    JSON_parse (entry_text entry)
    = Some (Obj [(js "id", Str (js "a")); (js "storedAt", Str storedAt)]).
Proof.
  destruct (stored_entry_reads_back sampleEnv [plainRecord "a" "A"] (sampleWorld 200)
              (plainRecord "a" "A")) as (entry & storedAt & E & _ & Hp).
  - exists ∅. reflexivity.
  - apply Forall_cons_2; [|apply Forall_nil_2].
    apply wellFormed_check. vm_compute. reflexivity.
  - intros n. apply wellFormed_check. vm_compute. reflexivity.
  - left.
  - exists entry, storedAt. split; [exact E | exact Hp].
Defined.


Section SendFacts.

Lemma sendEvents_cons (call : Call) (rest : list Call) :
  rest ≠ [] → sendEvents (call :: rest) = Fetch call :: Sleep 100 :: sendEvents rest.
Proof. by destruct rest. Qed.

Lemma take_nonempty {A} (k : nat) (l : list A) : 1 ≤ k → l ≠ [] → take k l ≠ [].
Proof. destruct k, l; simpl; (lia || done). Qed.

Variables token chatId : jsstring.

(** The loop sends the messages in order, sleeps between two of them and
    stops at the first one that is refused; it touches nothing but the
    trace. *)
Lemma sendLoop_trace (messages : list jsstring) (i : nat) (rest : list jsstring)
    (w : World) :
  length messages = i + length rest →
  ∃ k, k ≤ length rest ∧ (rest ≠ [] → 1 ≤ k) ∧
    let r := sendLoop token chatId messages i rest w in
    network (snd r) = network w ∧ clock (snd r) = clock w ∧
    readings (snd r) = readings w ∧ seconds (snd r) = seconds w ∧
    store (snd r) = store w ∧
    trace (snd r) = trace w ++ sendEvents (map (telegramCall token chatId) (take k rest)) ∧
    (fst r = Some tt → k = length rest) ∧
    (accepting w → fst r = Some tt).
Proof.
  revert i w. induction rest as [|message rest IH]; intros i w Hlen.
  - exists 0. cbn. rewrite app_nil_r. split; [lia|]. split; [done|]. by repeat split.
  - cbn [sendLoop]. unfold sendTelegramMessage, globalFetch.
    set (call := telegramCall token chatId message).
    destruct (network w (trace w) call) as [response|] eqn:En.
    2: { exists 1. cbn [length]. split; [lia|]. split; [done|]. cbn zeta.
         cbn [fst snd record network clock readings seconds store trace take map sendEvents].
         rewrite take_0. cbn [map sendEvents].
         do 6 (split; [done|]). split; [discriminate|].
         intros Hacc. destruct (Hacc (trace w) call) as (resp & E & _). congruence. }
    destruct (ok response) eqn:Eok; cbn [negb].
    2: { exists 1. cbn [length]. split; [lia|]. split; [done|]. cbn zeta.
         cbn [fst snd record network clock readings seconds store trace take map sendEvents].
         rewrite take_0. cbn [map sendEvents].
         do 6 (split; [done|]). split; [discriminate|].
         intros Hacc. destruct (Hacc (trace w) call) as (resp & E & Hok). congruence. }
    cbn [length] in Hlen.
    set (w1 := if i <? length messages - 1 then sleep 100 (record (Fetch call) w)
               else record (Fetch call) w).
    destruct (IH (S i) w1 ltac:(lia)) as (k & Hk & Hpos & IHr). cbn zeta in IHr.
    destruct IHr as (Hn & Hc & Hr & Hs & Hst & Ht & Hall & Hacc).
    exists (S k). cbn [length take map]. split; [lia|]. split; [lia|]. cbn zeta.
    rewrite Hn, Hc, Hr, Hs, Hst, Ht.
    assert (Hw1 : network w1 = network w ∧ clock w1 = clock w ∧ readings w1 = readings w ∧
                  seconds w1 = seconds w ∧ store w1 = store w).
    { unfold w1. by destruct (i <? length messages - 1). }
    destruct Hw1 as (-> & -> & -> & -> & ->).
    do 5 (split; [done|]). split; [|split].
    + destruct rest as [|m' rest'].
      * assert (k = 0) as -> by (cbn in Hk; lia). cbn [take map sendEvents].
        rewrite app_nil_r. unfold w1.
        replace (i <? length messages - 1) with false
          by (symmetry; apply Nat.ltb_ge; cbn in Hlen; lia).
        done.
      * rewrite sendEvents_cons.
        2: { intros E. apply fmap_nil_inv in E. revert E. apply take_nonempty; [|done].
             by apply Hpos. }
        unfold w1.
        replace (i <? length messages - 1) with true
          by (symmetry; apply Nat.ltb_lt; cbn in Hlen; lia).
        cbn [sleep record trace]. by rewrite <- !app_assoc.
    + intros H. specialize (Hall H). lia.
    + intros Ha. apply Hacc. intros history c.
      assert (network w1 = network w) as -> by (unfold w1; by destruct (i <? length messages - 1)).
      apply Ha.
Qed.

End SendFacts.

Section WorkflowFacts.

Lemma contents_same (w w' : World) :
  store w' = store w → seconds w' = seconds w → contents w' = contents w.
Proof. intros Hs Ht. unfold contents. by rewrite Hs, Ht. Qed.

Lemma envAt_same (env : Env) (w w' : World) :
  store w' = store w → seconds w' = seconds w → envAt env w' = envAt env w.
Proof. intros Hs Ht. unfold envAt. by rewrite (contents_same w w'). Qed.

Lemma fetchHtml_eq (env : Env) (w : World) :
  fetchHtml env w
  = (match network w (trace w) (pageOf env) with
     | Some response => if ok response then Some (body response) else None
     | None => None
     end, record (Fetch (pageOf env)) w).
Proof.
  unfold fetchHtml, globalFetch, pageOf.
  destruct (network w (trace w) _) as [response|]; [|done].
  by destruct (ok response).
Qed.

Lemma length_gate (env : Env) (competitions : list Competition) :
  length (filterNewCompetitions env competitions) ≤ length competitions.
Proof.
  destruct (COMPETITION_KV env) as [kv|] eqn:E.
  - rewrite (filterNewCompetitions_available env kv) by done. apply length_filter.
  - by rewrite filterNewCompetitions_unavailable.
Qed.

(** What [storeSeen] leaves in the world. *)
Lemma storeSeen_frame (env : Env) (competitions : list Competition) (w : World) :
  let w' := storeSeen env competitions w in
  network w' = network w ∧ clock w' = clock w ∧ seconds w' = seconds w ∧
  ∃ puts, trace w' = trace w ++ puts ∧ callsOf puts = [] ∧
          putsOf puts = match COMPETITION_KV env with
                        | Some _ => map seenKey competitions
                        | None => []
                        end.
Proof.
  unfold storeSeen. destruct (COMPETITION_KV env).
  - destruct (foldl_putSeen competitions w) as (Hn & Hc & Hs & _ & (puts & Ht & Hp & Hcalls) & _).
    cbn zeta. do 3 (split; [done|]). by exists puts.
  - cbn zeta. do 3 (split; [done|]). exists []. by rewrite app_nil_r.
Qed.

(** What [notifyTelegram] leaves in the world. *)
Lemma notifyTelegram_trace (env : Env) (competitions : list Competition) (w : World) :
  let r := notifyTelegram env competitions w in
  network (snd r) = network w ∧ clock (snd r) = clock w ∧
  readings (snd r) = readings w ∧ seconds (snd r) = seconds w ∧
  store (snd r) = store w ∧
  if missing (TELEGRAM_BOT_TOKEN env) || missing (TELEGRAM_CHAT_ID env)
  then r = (Some tt, w)
  else ∃ k, k ≤ length (messageCalls env competitions) ∧
         trace (snd r) = trace w ++ sendEvents (take k (messageCalls env competitions)) ∧
         (fst r = Some tt → k = length (messageCalls env competitions)) ∧
         (fst r = None → 1 ≤ k) ∧
         (accepting w → fst r = Some tt).
Proof.
  unfold notifyTelegram.
  destruct (missing (TELEGRAM_BOT_TOKEN env) || missing (TELEGRAM_CHAT_ID env)); [done|].
  cbn zeta.
  set (messages := buildTelegramMessages competitions _).
  destruct (sendLoop_trace (default [] (TELEGRAM_BOT_TOKEN env))
              (default [] (TELEGRAM_CHAT_ID env)) messages 0 messages w eq_refl)
    as (k & Hk & Hpos & H).
  cbn zeta in H. destruct H as (Hn & Hc & Hr & Hs & Hst & Ht & Hall & Hacc).
  do 5 (split; [done|]).
  exists k. unfold messageCalls. fold messages. rewrite length_map, <- fmap_take.
  split; [done|]. split; [done|]. split; [done|]. split; [|done].
  intros Hnone. apply Hpos. intros ->. cbn in Hnone. discriminate.
Qed.

End WorkflowFacts.



Section RunFacts.

Variable env : Env.

(** A run whose page is not fetched. *)
Lemma runWorkflow_no_page (w : World) :
  match network w (trace w) (pageOf env) with
  | Some response => ok response = false
  | None => True
  end →
  runWorkflow env w = (None, record (Fetch (pageOf env)) w).
Proof.
  intros H. unfold runWorkflow. rewrite fetchHtml_eq.
  destruct (network w (trace w) (pageOf env)) as [response|]; [|done].
  by rewrite H.
Qed.

(** A run whose page is fetched: the records, the new ones among them,
    and the world before the final reading of the clock. *)
Lemma runWorkflow_page (w : World) (response : Response) :
  network w (trace w) (pageOf env) = Some response → ok response = true →
  ∃ records n w3,
    extractCompetitions (body response) = Some records ∧
    runWorkflow env w
    = (Some {| fetched := length records;
               newItems := length (filterNewCompetitions (envAt env w) records);
               notified := n; timestamp := clock w3 (readings w3) |},
       snd (newDateISO w3)) ∧
    match filterNewCompetitions (envAt env w) records with
    | [] => n = 0 ∧ w3 = record (Fetch (pageOf env)) w
    | new =>
        w3 = snd (notifyTelegram env new (storeSeen env new (record (Fetch (pageOf env)) w))) ∧
        n = match fst (notifyTelegram env new
                         (storeSeen env new (record (Fetch (pageOf env)) w))) with
            | Some _ => length new
            | None => 0
            end
    end.
Proof.
  intros Hnet Hok. unfold runWorkflow. rewrite fetchHtml_eq, Hnet, Hok.
  destruct (extractCompetitions_total (body response)) as [records Hrec].
  rewrite Hrec.
  rewrite (envAt_same env w (record (Fetch (pageOf env)) w)) by done.
  set (w0 := record (Fetch (pageOf env)) w).
  destruct (filterNewCompetitions (envAt env w) records) as [|c new] eqn:Enew.
  - exists records, 0, w0. rewrite Enew. done.
  - cbn [length Nat.ltb Nat.leb].
    destruct (notifyTelegram env (c :: new) (storeSeen env (c :: new) w0)) as [[u|] w3] eqn:En.
    + exists records, (S (length new)), w3. rewrite Enew, En. done.
    + exists records, 0, w3. rewrite Enew, En. done.
Qed.

End RunFacts.

Lemma callsOf_app (a b : list Event) : callsOf (a ++ b) = callsOf a ++ callsOf b.
Proof. apply omap_app. Qed.

Lemma callsOf_fetch (call : Call) (events : list Event) :
  callsOf (Fetch call :: events) = call :: callsOf events.
Proof. done. Qed.

Section RunFacts2.

Variable env : Env.

Lemma pageFetched_false (w : World) :
  pageFetched env w = false →
  match network w (trace w) (pageOf env) with
  | Some response => ok response = false
  | None => True
  end.
Proof. unfold pageFetched. by destruct (network w (trace w) (pageOf env)). Qed.

(** The run of a world in which the page is fetched, told with the
    records of the page. *)
Lemma runWorkflow_fetched (w : World) :
  pageFetched env w = true →
  ∃ n w3,
    runWorkflow env w
    = (Some {| fetched := length (pageRecords env w);
               newItems := length (newRecords env w);
               notified := n; timestamp := clock w3 (readings w3) |},
       snd (newDateISO w3)) ∧
    match newRecords env w with
    | [] => n = 0 ∧ w3 = record (Fetch (pageOf env)) w
    | new =>
        w3 = snd (notifyTelegram env new (storeSeen env new (record (Fetch (pageOf env)) w))) ∧
        n = match fst (notifyTelegram env new
                         (storeSeen env new (record (Fetch (pageOf env)) w))) with
            | Some _ => length new
            | None => 0
            end
    end.
Proof.
  unfold pageFetched, newRecords, pageRecords.
  destruct (network w (trace w) (pageOf env)) as [response|] eqn:Hnet; [|discriminate].
  intros Hok. destruct (runWorkflow_page env w response Hnet Hok) as (records & n & w3 & Hrec & H).
  rewrite Hrec. cbn [default]. by exists n, w3.
Qed.

Lemma runWorkflow_some (w : World) (result : WorkflowResult) (w' : World) :
  runWorkflow env w = (Some result, w') → pageFetched env w = true.
Proof.
  intros H. destruct (pageFetched env w) eqn:E; [done|].
  rewrite (runWorkflow_no_page env w (pageFetched_false w E)) in H. discriminate.
Qed.

(** The world a run leaves: the page call, then the puts, then the calls
    of the notification. *)
Lemma runWorkflow_world (w : World) (result : WorkflowResult) (w' : World) :
  runWorkflow env w = (Some result, w') →
  network w' = network w ∧ clock w' = clock w ∧ seconds w' = seconds w ∧
  fetched result = length (pageRecords env w) ∧
  newItems result = length (newRecords env w) ∧
  (notified result = newItems result ∨ notified result = 0) ∧
  store w' = store (storeSeen env (newRecords env w) (record (Fetch (pageOf env)) w)) ∧
  ∃ puts k,
    trace w' = trace w ++ Fetch (pageOf env) :: puts
                 ++ sendEvents (take k (messageCalls env (newRecords env w))) ∧
    callsOf puts = [] ∧
    putsOf puts = match COMPETITION_KV env with
                  | Some _ => map seenKey (newRecords env w)
                  | None => []
                  end ∧
    (missing (TELEGRAM_BOT_TOKEN env) || missing (TELEGRAM_CHAT_ID env) = true →
     k = 0 ∧ notified result = newItems result) ∧
    (missing (TELEGRAM_BOT_TOKEN env) || missing (TELEGRAM_CHAT_ID env) = false →
     0 < notified result → k = length (messageCalls env (newRecords env w))) ∧
    (accepting w → notified result = newItems result).
Proof.
  intros H. pose proof (runWorkflow_some _ _ _ H) as Hf.
  destruct (runWorkflow_fetched w Hf) as (n & w3 & E & Hcase).
  rewrite E in H. injection H as <- <-.
  cbn [fetched newItems notified network clock seconds store trace newDateISO snd].
  set (w0 := record (Fetch (pageOf env)) w) in *.
  destruct (newRecords env w) as [|c new] eqn:Enew.
  - destruct Hcase as [-> ->].
    do 5 (split; [done|]). split; [by left|].
    split; [unfold storeSeen; by destruct (COMPETITION_KV env)|].
    exists [], 0. rewrite take_0. cbn [sendEvents app].
    split; [done|]. split; [done|].
    split; [by destruct (COMPETITION_KV env)|]. by repeat split.
  - destruct Hcase as [-> ->].
    destruct (storeSeen_frame env (c :: new) w0) as (Sn & Sc & Ss & puts & St & Scalls & Sputs).
    destruct (notifyTelegram_trace env (c :: new) (storeSeen env (c :: new) w0))
      as (Nn & Nc & Nr & Ns & Nst & Hcred).
    rewrite Nn, Nc, Ns, Nst, Sn, Sc, Ss.
    do 5 (split; [done|]).
    split; [destruct (fst (notifyTelegram _ _ _)); [by left | by right]|].
    split; [done|].
    destruct (missing (TELEGRAM_BOT_TOKEN env) || missing (TELEGRAM_CHAT_ID env)) eqn:Ecred.
    + rewrite Hcred. exists puts, 0. rewrite take_0. cbn [fst snd sendEvents]. rewrite St, app_nil_r.
      split; [unfold w0; cbn [record trace]; by rewrite <- app_assoc|].
      split; [done|]. split; [done|]. split; [done|]. split; [discriminate|]. done.
    + destruct Hcred as (k & Hk & Ht & Hall & Hnone & Hacc).
      exists puts, k. rewrite Ht, St.
      split; [unfold w0; cbn [record trace]; by rewrite <- !app_assoc|].
      split; [done|]. split; [done|]. split; [discriminate|]. split.
      * intros _. destruct (fst (notifyTelegram _ _ _)) as [[]|]; [intros _; by apply Hall|].
        cbn. lia.
      * intros Ha. rewrite Hacc; [done|]. intros history call. rewrite Sn. apply Ha.
Qed.

End RunFacts2.

(** X17. The result of a run counts the records of the page and the new
    ones among them; there are no more new records than records, and the
    number notified is the number of new records or zero, the former when
    the network accepts every call. *)
Theorem workflow_counts (env : Env) (w : World) (result : WorkflowResult) (w' : World) :
  runWorkflow env w = (Some result, w') →
  fetched result = length (pageRecords env w) ∧
  newItems result = length (newRecords env w) ∧
  newItems result ≤ fetched result ∧
  (notified result = newItems result ∨ notified result = 0) ∧
  (accepting w → notified result = newItems result).
Proof.
  intros H.
  destruct (runWorkflow_world env w result w' H)
    as (_ & _ & _ & Hf & Hn & Hnot & _ & puts & k & _ & _ & _ & _ & _ & Hacc).
  split; [done|]. split; [done|]. split; [|by split].
  rewrite Hf, Hn. apply length_gate.
Qed.

Lemma workflow_counts_witness :
  ∃ result w',
    runWorkflow sampleEnv (sampleWorld 429) = (Some result, w') ∧
    fetched result = 1 ∧ newItems result = 1.
Proof.
  destruct (runWorkflow sampleEnv (sampleWorld 429)) as [[result|] w'] eqn:E;
    [|vm_compute in E; discriminate].
  destruct (workflow_counts sampleEnv (sampleWorld 429) result w' E) as (Hf & Hn & _).
  exists result, w'. split; [reflexivity|].
  rewrite Hf, Hn. vm_compute. split; reflexivity.
Defined.


(** X18. A run that returns has fetched the page, then put the keys of
    the new records, in their order, when there is a store, and only then
    sent messages; when it reports a notification with both credentials
    set, all messages were sent. *)
Theorem workflow_stores_before_it_notifies (env : Env) (w : World)
    (result : WorkflowResult) (w' : World) :
  runWorkflow env w = (Some result, w') →
  ∃ puts k,
    trace w' = trace w ++ Fetch (pageOf env) :: puts
                 ++ sendEvents (take k (messageCalls env (newRecords env w))) ∧
    callsOf puts = [] ∧
    putsOf puts = match COMPETITION_KV env with
                  | Some _ => map (fun c => js "seen:" ++ id c) (newRecords env w)
                  | None => []
                  end ∧
    (missing (TELEGRAM_BOT_TOKEN env) || missing (TELEGRAM_CHAT_ID env) = false →
     0 < notified result → k = length (messageCalls env (newRecords env w))).
Proof.
  intros H.
  destruct (runWorkflow_world env w result w' H)
    as (_ & _ & _ & _ & _ & _ & _ & puts & k & Ht & Hc & Hp & _ & Hk & _).
  by exists puts, k.
Qed.

Lemma workflow_stores_before_it_notifies_witness :
  ∃ result w' puts k,
    runWorkflow sampleEnv (sampleWorld 200) = (Some result, w') ∧
    trace w' = Fetch (pageOf sampleEnv) :: puts
                 ++ sendEvents (take k (messageCalls sampleEnv (newRecords sampleEnv (sampleWorld 200)))) ∧
    putsOf puts = [js "seen:a"].
Proof.
  destruct (runWorkflow sampleEnv (sampleWorld 200)) as [[result|] w'] eqn:E;
    [|vm_compute in E; discriminate].
  destruct (workflow_stores_before_it_notifies sampleEnv (sampleWorld 200) result w' E)
    as (puts & k & Ht & _ & Hp & _).
  exists result, w', puts, k. split; [reflexivity|]. split; [exact Ht|].
  rewrite Hp. vm_compute. reflexivity.
Defined.


(** X19. Without the token or the chat id a run sends no message, its
    only call is the one for the page, and it still reports every new
    record as notified. *)
Theorem missing_credentials_count_as_notified (env : Env) (w : World)
    (result : WorkflowResult) (w' : World) :
  missing (TELEGRAM_BOT_TOKEN env) || missing (TELEGRAM_CHAT_ID env) = true →
  runWorkflow env w = (Some result, w') →
  notified result = newItems result ∧
  callsOf (trace w') = callsOf (trace w) ++ [pageOf env].
Proof.
  intros Hcred H.
  destruct (runWorkflow_world env w result w' H)
    as (_ & _ & _ & _ & _ & _ & _ & puts & k & Ht & Hc & _ & Hmiss & _).
  destruct (Hmiss Hcred) as [-> Hn]. split; [done|].
  rewrite Ht, take_0. cbn [sendEvents]. rewrite app_nil_r.
  rewrite callsOf_app, callsOf_fetch. by rewrite Hc.
Qed.

Lemma missing_credentials_count_as_notified_witness :
  missing (TELEGRAM_BOT_TOKEN (envWith (Some ∅))) || missing (TELEGRAM_CHAT_ID (envWith (Some ∅)))
  = true ∧
  ∃ result w',
    runWorkflow (envWith (Some ∅)) (sampleWorld 200) = (Some result, w') ∧
    notified result = newItems result.
Proof.
  split; [reflexivity|].
  destruct (runWorkflow (envWith (Some ∅)) (sampleWorld 200)) as [[result|] w'] eqn:E;
    [|vm_compute in E; discriminate].
  destruct (missing_credentials_count_as_notified (envWith (Some ∅)) (sampleWorld 200)
              result w' eq_refl E) as [Hn _].
  exists result, w'. split; [reflexivity | exact Hn].
Defined.


Lemma filter_none {A} (P : A → Prop) `{∀ x, Decision (P x)} (l : list A) :
  (∀ x, x ∈ l → ¬ P x) → filter P l = [].
Proof.
  intros Hl. destruct (filter P l) as [|x r] eqn:E; [done|].
  assert (Hx : x ∈ filter P l) by (rewrite E; by left).
  apply list_elem_of_filter in Hx as [HP Hx]. by destruct (Hl x Hx).
Qed.

(** X20. The health path is answered with 200 and the text ok, and
    nothing happens to the world. Every other path runs the workflow: the
    answer is 200 with the result as indented JSON when the page is
    fetched, whatever happens to the notification, and 500 otherwise, and
    in that case nothing is stored and the only call made is the one for
    the page. *)
Theorem handler_answers (request : Request) (env : Env) (w : World) :
  (pathname request = js "/__health" →
   fetch request env w
   = ({| reply_status := 200; reply_body := js "ok"; reply_headers := [] |}, w)) ∧
  (pathname request ≠ js "/__health" →
   snd (fetch request env w) = snd (runWorkflow env w) ∧
   reply_status (fst (fetch request env w)) = (if pageFetched env w then 200 else 500) ∧
   (pageFetched env w = true →
    ∃ result,
      fst (runWorkflow env w) = Some result ∧
      reply_body (fst (fetch request env w)) = resultText result ∧
      reply_headers (fst (fetch request env w))
      = [(js "content-type", js "application/json")]) ∧
   (pageFetched env w = false →
    reply_body (fst (fetch request env w)) = js "internal error" ∧
    store (snd (fetch request env w)) = store w ∧
    trace (snd (fetch request env w)) = trace w ++ [Fetch (pageOf env)])).
Proof.
  unfold fetch, jseqb. split.
  - intros E. by rewrite bool_decide_eq_true_2.
  - intros E. rewrite bool_decide_eq_false_2 by done.
    destruct (pageFetched env w) eqn:Ef.
    + destruct (runWorkflow_fetched env w Ef) as (n & w3 & -> & _).
      cbn [fst snd reply_status reply_body reply_headers].
      split; [reflexivity|]. split; [reflexivity|]. split; [|discriminate].
      intros _. eexists. split; [reflexivity|]. split; reflexivity.
    + rewrite (runWorkflow_no_page env w (pageFetched_false env w Ef)).
      cbn [fst snd reply_status reply_body reply_headers record store trace].
      split; [reflexivity|]. split; [reflexivity|]. split; [discriminate|].
      intros _. split; [reflexivity|]. split; reflexivity.
Qed.

(** X21. After a run with a store, a second run within ninety days that
    finds the same records on the page, none of whose earlier entries has
    expired in between, reports no new record, stores nothing and sends
    nothing, whether or not the notification of the first run went
    through. *)
Theorem second_run_is_quiet (env : Env) (w : World) (d : Z)
    (result : WorkflowResult) (w1 : World) :
  is_Some (COMPETITION_KV env) →
  runWorkflow env w = (Some result, w1) →
  (d < ninetyDays)%Z →
  pageFetched env (later d w1) = true →
  pageRecords env (later d w1) = pageRecords env w →
  (∀ c, c ∈ pageRecords env w →
        ¬ unseen (contents w) c → ¬ unseen (contents (later d w)) c) →
  ∃ result2 w2,
    runWorkflow env (later d w1) = (Some result2, w2) ∧
    fetched result2 = fetched result ∧ newItems result2 = 0 ∧ notified result2 = 0 ∧
    store w2 = store w1 ∧ trace w2 = trace w1 ++ [Fetch (pageOf env)].
Proof.
  intros [kv Hkv] Hrun Hd Hf2 Hrec Hlive.
  destruct (runWorkflow_world env w result w1 Hrun)
    as (_ & _ & Hsec & Hfetched & _ & _ & Hstore & _).
  assert (Hnew2 : newRecords env (later d w1) = []).
  { unfold newRecords. rewrite Hrec.
    rewrite (filterNewCompetitions_available _ (contents (later d w1)))
      by (cbn; by rewrite Hkv).
    apply filter_none. intros c Hc Hun.
    unfold storeSeen in Hstore. rewrite Hkv in Hstore.
    apply (unseen_after_puts (newRecords env w) (record (Fetch (pageOf env)) w) w1 d c
             Hstore Hsec) in Hun.
    destruct (bool_decide (id c ∈ map id (newRecords env w))) eqn:Eid; [lia|].
    apply bool_decide_eq_false in Eid.
    rewrite (contents_later_same w (record (Fetch (pageOf env)) w)) in Hun by done.
    apply (Hlive c Hc); [|done].
    intros Hnew. apply Eid. apply list_elem_of_fmap. exists c. split; [done|].
    unfold newRecords.
    rewrite (filterNewCompetitions_available _ (contents w)) by (cbn; by rewrite Hkv).
    apply list_elem_of_filter. by split. }
  destruct (runWorkflow_fetched env (later d w1) Hf2) as (n & w3 & E & Hcase).
  rewrite Hnew2 in E, Hcase. destruct Hcase as [-> ->].
  eexists _, _. split; [exact E|]. cbn. by rewrite Hrec, Hfetched.
Qed.

Lemma second_run_is_quiet_witness :
  ∃ result w1 result2 w2,
    runWorkflow sampleEnv (sampleWorld 429) = (Some result, w1) ∧
    runWorkflow sampleEnv (later 3600 w1) = (Some result2, w2) ∧
    newItems result2 = 0.
Proof.
  destruct (runWorkflow sampleEnv (sampleWorld 429)) as [[result|] w1] eqn:E;
    [|vm_compute in E; discriminate].
  assert (Hkv : is_Some (COMPETITION_KV sampleEnv)) by (exists ∅; reflexivity).
  assert (Hw1 : w1 = snd (runWorkflow sampleEnv (sampleWorld 429))) by (rewrite E; reflexivity).
  destruct (second_run_is_quiet sampleEnv (sampleWorld 429) 3600 result w1 Hkv E)
    as (result2 & w2 & E2 & _ & Hn & _).
  - reflexivity.
  - rewrite Hw1. vm_compute. reflexivity.
  - rewrite Hw1. vm_compute. reflexivity.
  - intros c _ Hseen _. apply Hseen. unfold unseen, KV_get.
    rewrite contents_lookup. cbn [sampleWorld store]. rewrite lookup_empty. reflexivity.
  - exists result, w1, result2, w2. split; [reflexivity|]. split; [exact E2 | exact Hn].
Defined.
